(** * gorder: ordering of top-level Go declarations and interface members

    A shallow embedding of [main.go] (the current revision, the one that
    declares [magicTypeMarker]) together with the part of Go's [sort]
    package that [sort.SliceStable] runs, the properties of the ordering
    that the specification states, and further properties of the code.
    The earlier revision that [main.go] also holds is embedded in the
    module [Rev1] near the end.  [main], [usage] and [handleFile] read,
    parse and print files; they are not embedded. *)

From Stdlib Require Import ZArith Ascii String List Lia Permutation OrderedTypeEx.
From stdpp Require Import base tactics option list sorting.

Local Open Scope Z_scope.
Local Open Scope nat_scope.

(* ===================================================================== *)
(** ** Outcomes: a Go call returns, panics, or (in the model only) runs
       out of recursion budget *)
(* ===================================================================== *)

Inductive panic : Set :=
| TooMany          (* panic("too many") in splitOnDot *)
| TypeSwitch       (* panic(fmt.Sprintf("type %T", in)) in less *)
| IndexOutOfRange  (* runtime error: index out of range *)
| TypeAssertion.   (* runtime error: interface conversion *)

Inductive outcome (A : Type) : Type :=
| Done (a : A)
| Panic (p : panic)
| OutOfFuel.

Arguments Done {A} a.
Arguments Panic {A} p.
Arguments OutOfFuel {A}.

Definition obind {A B} (m : outcome A) (k : A -> outcome B) : outcome B :=
  match m with
  | Done a => k a
  | Panic p => Panic p
  | OutOfFuel => OutOfFuel
  end.

Definition omap {A B} (f : A -> B) (m : outcome A) : outcome B :=
  obind m (fun a => Done (f a)).

#[global] Instance outcome_bind : MBind outcome := fun A B k m => obind m k.
#[global] Instance outcome_ret : MRet outcome := fun A a => Done a.
#[global] Instance outcome_fmap : FMap outcome := fun A B f m => omap f m.

Definition returns {A} (m : outcome A) : Prop := exists a, m = Done a.

Lemma bind_Done {A B} (a : A) (k : A -> outcome B) : (Done a ≫= k) = k a.
Proof. reflexivity. Qed.

Lemma fmap_Done {A B} (f : A -> B) (a : A) : f <$> Done a = Done (f a).
Proof. reflexivity. Qed.

(* ===================================================================== *)
(** ** Go strings and the [strings] / [unicode] helpers the program calls *)
(* ===================================================================== *)

(** A Go string is a byte sequence; [s1 < s2] compares bytes
    lexicographically, which is [String.ltb]. *)

Definition isUpperASCII (c : ascii) : bool :=
  let n := nat_of_ascii c in (65 <=? n) && (n <=? 90).

Definition lowerASCII (c : ascii) : ascii :=
  if isUpperASCII c then ascii_of_nat (nat_of_ascii c + 32) else c.

(** [strings.ToLower]; the program applies it to the ASCII constants of
    [commonPrefixes] only. *)
Fixpoint strings_ToLower (s : string) : string :=
  match s with
  | EmptyString => EmptyString
  | String c s' => String (lowerASCII c) (strings_ToLower s')
  end.

(** [strip p s] is [Some r] when [s = p ++ r]. *)
Fixpoint strip (p s : string) : option string :=
  match p with
  | EmptyString => Some s
  | String a p' =>
      match s with
      | EmptyString => None
      | String b s' => if Ascii.eqb a b then strip p' s' else None
      end
  end.

Definition strings_HasPrefix (s p : string) : bool :=
  match strip p s with Some _ => true | None => false end.

Definition strings_TrimPrefix (s p : string) : string :=
  match strip p s with Some r => r | None => s end.

Definition dot : ascii := "."%char.

(** [strings.Split(s, ".")]: one more part than there are dots. *)
Fixpoint strings_Split_dot (s : string) : list string :=
  match s with
  | EmptyString => [EmptyString]
  | String c s' =>
      if Ascii.eqb c dot then EmptyString :: strings_Split_dot s'
      else match strings_Split_dot s' with
           | [] => [String c EmptyString]
           | p :: ps => String c p :: ps
           end
  end.

Fixpoint count_dots (s : string) : nat :=
  match s with
  | EmptyString => 0
  | String c s' => (if Ascii.eqb c dot then 1 else 0) + count_dots s'
  end.

Definition string_eqb (s t : string) : bool := String.eqb s t.

(* ===================================================================== *)
(** ** The syntax tree, as far as the program looks at it *)
(* ===================================================================== *)

(** [dst.Expr].  [decorator.Parse] leaves [Ident.Path] empty, so an
    identifier prints as its name. *)
Inductive Expr : Type :=
| Ident (Name : string)
| SelectorExpr (X : Expr) (Sel : string)
| StarExpr (X : Expr)
| OtherExpr (kind : string).   (* any other expression node *)

Record Field : Type := mkField { Names : list string; Type_ : Expr }.

(** [*dst.FieldList]; [None] is the nil pointer. *)
Definition FieldList : Type := option (list Field).

Inductive Token : Set := PACKAGE | IMPORT | CONST | TYPE | VAR.

Inductive Spec : Type :=
| TypeSpec (Name : string)
| ImportSpec
| ValueSpec.

(** [dst.Decl] *)
Inductive Decl : Type :=
| FuncDecl (Recv : FieldList) (Name : string)
| GenDecl (Tok : Token) (Specs : list Spec)
| BadDecl.

Definition Token_eqb (a b : Token) : bool :=
  match a, b with
  | PACKAGE, PACKAGE | IMPORT, IMPORT | CONST, CONST | TYPE, TYPE | VAR, VAR => true
  | _, _ => false
  end.

Definition magicTypeMarker : string := "______".

Definition commonPrefixes : list string :=
  ["Is"; "Has"; "Get"; "All"; "Create"; "New"; "Err"; "Error"; "Init"; "Find";
   "Set"; "Render"]%string.

Definition funcWeight : Z := 200.
Definition typeWeight : Z := 100.
Definition constructorFuncWeight : Z := 50.
Definition exportedFuncWeight : Z := 30.
Definition mainFuncWeight : Z := 10.

Section Gorder.

(** Whether the first rune of a string that starts with a non-ASCII byte
    is an upper case letter: UTF-8 decoding and the Unicode tables of
    [unicode.IsUpper] are not part of the program. *)
Variable upperRune : string -> bool.

(** What [fmt.Sprintf("%s", x)] prints for an expression node [x] that
    is not an identifier (such nodes have no [String] method). *)
Variable sprintExpr : Expr -> string.

Definition firstUpper (name : string) : bool :=
  match name with
  | EmptyString => false
  | String c _ =>
      if nat_of_ascii c <? 128 then isUpperASCII c else upperRune name
  end.

Definition fieldTypeName (f : Field) : string :=
  match Type_ f with
  | StarExpr (Ident n) => n
  | StarExpr _ => EmptyString
  | Ident n => n
  | _ => EmptyString
  end.

Definition fieldListName (list : FieldList) : string :=
  match list with
  | None => EmptyString
  | Some fs => fold_left (fun b v => (b ++ fieldTypeName v)%string) fs EmptyString
  end.

Definition weightAdjustment (name : string) : Z :=
  let w := 0%Z in
  let w := if string_eqb name magicTypeMarker then (w - 5)%Z else w in
  let w := if firstUpper name then (w - 2)%Z else w in
  let w := if strings_HasPrefix name "New" then (w - 1)%Z else w in
  w.

Fixpoint trimCommonPrefix_loop (prefixes : list string) (s : string)
  : string * string :=
  match prefixes with
  | [] => (EmptyString, s)
  | prefix :: rest =>
      if strings_HasPrefix s prefix then (prefix, strings_TrimPrefix s prefix)
      else if strings_HasPrefix s (strings_ToLower prefix)
           then (prefix, strings_TrimPrefix s (strings_ToLower prefix))
           else trimCommonPrefix_loop rest s
  end.

Definition trimCommonPrefix (s : string) : string * string :=
  trimCommonPrefix_loop commonPrefixes s.

Definition splitOnDot (name : string) : outcome (string * string) :=
  let parts := strings_Split_dot name in
  if 2 <? length parts then Panic TooMany
  else if length parts =? 1 then Done (EmptyString, name)
  else Done (nth 0 parts EmptyString, nth 1 parts EmptyString).

(** The tail of [lesss], after both names were split. *)
Definition lesss_parts (s1r s1name s2r s2name : string) : bool :=
  if negb (string_eqb s1r s2r) then String.ltb s1r s2r
  else
    let s1w := (100 + weightAdjustment s1name)%Z in
    let s2w := (100 + weightAdjustment s2name)%Z in
    if negb (s1w =? s2w)%Z then (s1w <? s2w)%Z
    else
      (* the two results are bound in this order in the source *)
      let '(s1name', s1prefix) := trimCommonPrefix s1name in
      let '(s2name', s2prefix) := trimCommonPrefix s2name in
      if negb (string_eqb s1prefix EmptyString)
         && negb (string_eqb s2prefix EmptyString)
      then String.ltb s1prefix s2prefix
      else String.ltb s1name' s2name'.

Definition lesss (s1 s2 : string) : outcome bool :=
  '(s1r, s1name) ← splitOnDot s1;
  '(s2r, s2name) ← splitOnDot s2;
  Done (lesss_parts s1r s1name s2r s2name).

Definition lessStringers (s1 s2 : string) : outcome bool := lesss s1 s2.

(** The closure [strf] of [less]. *)
Definition strf (e : Expr) : outcome string :=
  match e with
  | SelectorExpr (Ident x) sel => Done (x ++ "." ++ sel)%string
  | SelectorExpr x sel => Done (sprintExpr x ++ "." ++ sel)%string
  | Ident n => Done n
  | _ => Panic TypeSwitch
  end.

Definition less (s t : Expr) : outcome bool :=
  a ← strf s;
  b ← strf t;
  lesss a b.

Definition preserveOrder (decl : Decl) : bool :=
  match decl with
  | GenDecl tok _ => Token_eqb tok PACKAGE || Token_eqb tok IMPORT
  | _ => false
  end.

(** [isFuncDecl] of the source; the current revision does not call it. *)
Definition isFuncDecl (decl : Decl) : bool :=
  match decl with
  | FuncDecl _ _ => true
  | _ => false
  end.

(** The closures [funcName], [genName] and [name] of [sortDecls]. *)
Definition funcName (d : Decl) : outcome (string * Z) :=
  match d with
  | FuncDecl recv name =>
      let fr := fieldListName recv in
      if string_eqb fr EmptyString then
        if string_eqb name "main" then Done (name, mainFuncWeight)
        else if strings_HasPrefix name "new" then Done (name, constructorFuncWeight)
        else if firstUpper name then
          let weight := exportedFuncWeight in
          let weight := if strings_HasPrefix name "New" then (weight - 1)%Z else weight in
          Done (name, weight)
        else Done (name, funcWeight)
      else Done ((fr ++ "." ++ name)%string, typeWeight)
  | _ => Done (EmptyString, (-1)%Z)
  end.

Definition genName (d : Decl) : outcome (string * Z) :=
  match d with
  | GenDecl tok specs =>
      if Token_eqb tok TYPE then
        match specs with
        | [] => Panic IndexOutOfRange
        | TypeSpec n :: _ => Done ((n ++ "." ++ magicTypeMarker)%string, typeWeight)
        | _ :: _ => Panic TypeAssertion
        end
      else Done (EmptyString, (-1)%Z)
  | _ => Done (EmptyString, (-1)%Z)
  end.

Definition name (d : Decl) : outcome (string * Z) :=
  '(s, weight) ← funcName d;
  if negb (weight =? -1)%Z then Done (s, weight) else genName d.

(** The [less] closure of [sortDecls] at positions [i], [j] holding
    [di], [dj]. *)
Definition declLess (i j : nat) (di dj : Decl) : outcome bool :=
  if preserveOrder di || preserveOrder dj then Done (i <? j)
  else
    '(si, weighti) ← name di;
    '(sj, weightj) ← name dj;
    if (weighti =? -1)%Z && (weightj =? -1)%Z then Done (i <? j)
    else if negb (weighti =? weightj)%Z then Done (weighti <? weightj)%Z
    else lesss si sj.

(** The [less] closure of [sortFieldList]. *)
Definition fieldLess (fi fj : Field) : outcome bool :=
  let ni := length (Names fi) in
  let nj := length (Names fj) in
  if (ni =? 0) && (nj =? 0) then less (Type_ fi) (Type_ fj)
  else if ni =? 0 then Done true
  else if nj =? 0 then Done false
  else lessStringers (nth 0 (Names fi) EmptyString) (nth 0 (Names fj) EmptyString).

End Gorder.

(* ===================================================================== *)
(** ** [sort.SliceStable]: insertion sort on blocks of 20, then SymMerge *)
(* ===================================================================== *)

Section SliceStable.

Context {A : Type}.

(** The [less] closure; it reads the slice as it is at the call. *)
Variable less : list A -> nat -> nat -> outcome bool.

(** The swapper of [reflect.Swapper]. *)
Definition swap (data : list A) (i j : nat) : list A :=
  match data !! i, data !! j with
  | Some x, Some y => <[i:=y]> (<[j:=x]> data)
  | _, _ => data
  end.

(** [for j := i; j > a && less(j, j-1); j-- { swap(j, j-1) }] *)
Fixpoint insertionSort_inner (a j : nat) (data : list A) : outcome (list A) :=
  match j with
  | 0 => Done data
  | S j' =>
      if a <? j then
        b ← less data j j';
        if b : bool then insertionSort_inner a j' (swap data j j') else Done data
      else Done data
  end.

(** [for i := a + 1; i < b; i++], with [count] iterations left. *)
Fixpoint insertionSort_outer (count a i : nat) (data : list A) : outcome (list A) :=
  match count with
  | 0 => Done data
  | S count' =>
      data' ← insertionSort_inner a i data;
      insertionSort_outer count' a (S i) data'
  end.

Definition insertionSort (data : list A) (a b : nat) : outcome (list A) :=
  insertionSort_outer (b - (a + 1)) a (a + 1) data.

(** [for i := 0; i < n; i++ { swap(a+i, b+i) }] *)
Fixpoint swapRange (data : list A) (a b n : nat) : list A :=
  match n with
  | 0 => data
  | S n' => swapRange (swap data a b) (S a) (S b) n'
  end.

(** The loop of [rotate], on [i] and [j]. *)
Fixpoint rotate_loop (fuel m i j : nat) (data : list A) : outcome (list A) :=
  if i =? j then Done (swapRange data (m - i) m i)
  else
    match fuel with
    | 0 => OutOfFuel
    | S fuel' =>
        if j <? i then rotate_loop fuel' m (i - j) j (swapRange data (m - i) m j)
        else rotate_loop fuel' m i (j - i) (swapRange data (m - i) (m + j - i) i)
    end.

Definition rotate (data : list A) (a m b : nat) : outcome (list A) :=
  rotate_loop (b - a) m (m - a) (b - m) data.

(** The binary searches of [symMerge]:
    [for i < j { h := int(uint(i+j) >> 1); if go_right(h) { i = h + 1 } else { j = h } }] *)
Fixpoint search (fuel : nat) (go_right : nat -> outcome bool) (i j : nat)
  : outcome nat :=
  if i <? j then
    match fuel with
    | 0 => OutOfFuel
    | S fuel' =>
        let h := (i + j) / 2 in
        b ← go_right h;
        if b : bool then search fuel' go_right (h + 1) j
        else search fuel' go_right i h
    end
  else Done i.

(** [for k := a; k < i-1; k++ { swap(k, k+1) }] *)
Fixpoint shift_up (count k : nat) (data : list A) : list A :=
  match count with
  | 0 => data
  | S count' => shift_up count' (S k) (swap data k (S k))
  end.

(** [for k := m; k > i; k-- { swap(k, k-1) }] *)
Fixpoint shift_down (count k : nat) (data : list A) : list A :=
  match count with
  | 0 => data
  | S count' => shift_down count' (k - 1) (swap data k (k - 1))
  end.

Fixpoint symMerge (fuel : nat) (data : list A) (a m b : nat) : outcome (list A) :=
  if m - a =? 1 then
    i ← search (b - m) (fun h => less data h a) m b;
    Done (shift_up (i - 1 - a) a data)
  else if b - m =? 1 then
    i ← search (m - a) (fun h => negb <$> less data m h) a m;
    Done (shift_down (m - i) m data)
  else
    match fuel with
    | 0 => OutOfFuel
    | S fuel' =>
        let mid := (a + b) / 2 in
        let n := mid + m in
        let '(start, r) := if mid <? m then (n - b, mid) else (a, m) in
        let p := n - 1 in
        start ← search (r - start) (fun c => negb <$> less data (p - c) c) start r;
        let end_ := n - start in
        data ← (if (start <? m) && (m <? end_) then rotate data start m end_
                else Done data);
        data ← (if (a <? start) && (start <? mid) then symMerge fuel' data a start mid
                else Done data);
        if (mid <? end_) && (end_ <? b) then symMerge fuel' data mid end_ b
        else Done data
    end.

(** First loop of [stable]: [for b <= n { insertionSort(a, b); a = b; b += blockSize }],
    then [insertionSort(a, n)]. *)
Fixpoint stable_blocks (fuel blockSize a n : nat) (data : list A) : outcome (list A) :=
  let b := a + blockSize in
  if b <=? n then
    match fuel with
    | 0 => OutOfFuel
    | S fuel' =>
        data ← insertionSort data a b;
        stable_blocks fuel' blockSize b n data
    end
  else insertionSort data a n.

(** One pass of merges: [for b <= n { symMerge(a, a+blockSize, b); a = b; b += 2*blockSize }],
    then [if m := a + blockSize; m < n { symMerge(a, m, n) }]. *)
Fixpoint stable_pass (fuel blockSize a n : nat) (data : list A) : outcome (list A) :=
  let b := a + 2 * blockSize in
  if b <=? n then
    match fuel with
    | 0 => OutOfFuel
    | S fuel' =>
        data ← symMerge (b - a) data a (a + blockSize) b;
        stable_pass fuel' blockSize b n data
    end
  else
    let m := a + blockSize in
    if m <? n then symMerge (n - a) data a m n else Done data.

(** [for blockSize < n { ...; blockSize *= 2 }] *)
Fixpoint stable_merges (fuel blockSize n : nat) (data : list A) : outcome (list A) :=
  if blockSize <? n then
    match fuel with
    | 0 => OutOfFuel
    | S fuel' =>
        data ← stable_pass n blockSize 0 n data;
        stable_merges fuel' (2 * blockSize) n data
    end
  else Done data.

Definition stable (data : list A) (n : nat) : outcome (list A) :=
  let blockSize := 20 in
  data ← stable_blocks n blockSize 0 n data;
  stable_merges n blockSize n data.

Definition SliceStable (data : list A) : outcome (list A) :=
  stable data (length data).

End SliceStable.

(** The closure handed to [sort.SliceStable] reads [data[i]] and [data[j]]. *)
Definition at_indices {A} (f : nat -> nat -> A -> A -> outcome bool)
  (data : list A) (i j : nat) : outcome bool :=
  match data !! i, data !! j with
  | Some x, Some y => f i j x y
  | _, _ => Panic IndexOutOfRange
  end.

Section Sorting.

Variable upperRune : string -> bool.
Variable sprintExpr : Expr -> string.

Definition sortDecls (decls : list Decl) : outcome (list Decl) :=
  SliceStable (at_indices (declLess upperRune)) decls.

Definition sortFieldList (fields : list Field) : outcome (list Field) :=
  SliceStable (at_indices (fun _ _ => fieldLess upperRune sprintExpr)) fields.

End Sorting.

(* ===================================================================== *)
(** ** What the slice operations of [sort.SliceStable] do *)
(* ===================================================================== *)

Lemma half_between (i j : nat) : i < j -> i <= (i + j) / 2 < j.
Proof.
  intros Hij. split.
  - apply Nat.div_le_lower_bound; lia.
  - apply Nat.Div0.div_lt_upper_bound; lia.
Qed.

Lemma half_le (a b : nat) : a <= b -> a <= (a + b) / 2 <= b.
Proof.
  intros Hab. split.
  - apply Nat.div_le_lower_bound; lia.
  - apply Nat.Div0.div_le_upper_bound; lia.
Qed.

Lemma half_twice (a b : nat) : 2 * ((a + b) / 2) <= a + b < 2 * ((a + b) / 2) + 2.
Proof.
  pose proof (Nat.div_mod (a + b) 2 ltac:(lia)) as H.
  pose proof (Nat.mod_upper_bound (a + b) 2 ltac:(lia)). lia.
Qed.

Ltac split_decide :=
  repeat match goal with
    | |- context [decide ?P] => destruct (decide P)
    | H : context [decide ?P] |- _ => destruct (decide P)
    end.

Section SliceFacts.

Context {A : Type}.
Implicit Types (l data : list A) (i j k a b m n : nat).

Lemma swap_length l i j : length (swap l i j) = length l.
Proof.
  unfold swap. destruct (l !! i), (l !! j); rewrite ?length_insert; done.
Qed.

Lemma swap_lookup l i j k :
  i < length l -> j < length l ->
  swap l i j !! k =
    if decide (k = i) then l !! j else if decide (k = j) then l !! i else l !! k.
Proof.
  intros Hi Hj. unfold swap.
  destruct (lookup_lt_is_Some_2 l i Hi) as [x Hx].
  destruct (lookup_lt_is_Some_2 l j Hj) as [y Hy].
  rewrite Hx, Hy, !list_lookup_insert, !length_insert.
  split_decide; subst; try done; try lia; naive_solver lia.
Qed.

Lemma swap_perm l i j : swap l i j ≡ₚ l.
Proof.
  destruct (decide (i < length l)) as [Hi|Hi]; last first.
  { unfold swap. rewrite (lookup_ge_None_2 l i) by lia. done. }
  destruct (decide (j < length l)) as [Hj|Hj]; last first.
  { unfold swap. rewrite (lookup_ge_None_2 l j) by lia. by destruct (l !! i). }
  apply Permutation_inj. split; [apply swap_length|].
  exists (fun k => if decide (k = i) then j else if decide (k = j) then i else k).
  split.
  - intros k1 k2. split_decide; lia.
  - intros k. rewrite swap_lookup by done. split_decide; done.
Qed.

Lemma swapRange_length l a b n : length (swapRange l a b n) = length l.
Proof.
  revert l a b. induction n as [|n IH]; intros; simpl; [done|].
  by rewrite IH, swap_length.
Qed.

Lemma swapRange_perm l a b n : swapRange l a b n ≡ₚ l.
Proof.
  revert l a b. induction n as [|n IH]; intros; simpl; [done|].
  by rewrite IH, swap_perm.
Qed.

(** Two disjoint ranges of equal length change places. *)
Lemma swapRange_lookup l a b n k :
  a + n <= b -> b + n <= length l ->
  swapRange l a b n !! k =
    if decide (a <= k < a + n) then l !! (k + (b - a))
    else if decide (b <= k < b + n) then l !! (k - (b - a))
    else l !! k.
Proof.
  revert l a b. induction n as [|n IH]; intros l a b Hab Hb; simpl.
  { split_decide; try lia; done. }
  rewrite IH by (rewrite ?swap_length; lia).
  rewrite !swap_lookup by lia.
  split_decide; try lia; try done; f_equal; lia.
Qed.

Lemma shift_up_length count k l : length (shift_up count k l) = length l.
Proof.
  revert k l. induction count as [|c IH]; intros; simpl; [done|].
  by rewrite IH, swap_length.
Qed.

Lemma shift_up_perm count k l : shift_up count k l ≡ₚ l.
Proof.
  revert k l. induction count as [|c IH]; intros; simpl; [done|].
  by rewrite IH, swap_perm.
Qed.

(** The element at [k] moves up by [count] places. *)
Lemma shift_up_lookup count k l q :
  k + count < length l ->
  shift_up count k l !! q =
    if decide (k <= q < k + count) then l !! (S q)
    else if decide (q = k + count) then l !! k
    else l !! q.
Proof.
  revert k l. induction count as [|c IH]; intros k l Hk; simpl.
  { split_decide; try lia; subst; f_equal; lia. }
  rewrite IH by (rewrite swap_length; lia).
  rewrite !swap_lookup by lia.
  split_decide; try lia; try done; f_equal; lia.
Qed.

Lemma shift_down_length count k l : length (shift_down count k l) = length l.
Proof.
  revert k l. induction count as [|c IH]; intros; simpl; [done|].
  by rewrite IH, swap_length.
Qed.

Lemma shift_down_perm count k l : shift_down count k l ≡ₚ l.
Proof.
  revert k l. induction count as [|c IH]; intros; simpl; [done|].
  by rewrite IH, swap_perm.
Qed.

(** The element at [k] moves down by [count] places. *)
Lemma shift_down_lookup count k l q :
  count <= k -> k < length l ->
  shift_down count k l !! q =
    if decide (k - count < q <= k) then l !! (q - 1)
    else if decide (q = k - count) then l !! k
    else l !! q.
Proof.
  revert k l. induction count as [|c IH]; intros k l Hc Hk; simpl.
  { split_decide; try lia; subst; f_equal; lia. }
  rewrite IH by (rewrite ?swap_length; lia).
  rewrite !swap_lookup by lia.
  split_decide; try lia; try done; f_equal; lia.
Qed.

Lemma rotate_loop_spec fuel m i j l :
  0 < i -> 0 < j -> i <= m -> m + j <= length l -> i + j <= fuel ->
  exists l', rotate_loop fuel m i j l = Done l' /\ length l' = length l /\ l' ≡ₚ l /\
    forall k, l' !! k =
      if decide (m - i <= k < m - i + j) then l !! (k + i)
      else if decide (m - i + j <= k < m + j) then l !! (k - j)
      else l !! k.
Proof.
  revert m i j l. induction fuel as [|fuel IH]; intros m i j l Hi Hj Him Hmj Hfuel;
    [lia|].
  simpl. destruct (i =? j) eqn:Hij.
  - apply Nat.eqb_eq in Hij. subst j. eexists. split; [done|].
    split; [apply swapRange_length|]. split; [apply swapRange_perm|].
    intros k. rewrite swapRange_lookup by lia.
    split_decide; try lia; try done; f_equal; lia.
  - apply Nat.eqb_neq in Hij. destruct (j <? i) eqn:Hji.
    + apply Nat.ltb_lt in Hji.
      destruct (IH m (i - j) j (swapRange l (m - i) m j)) as (l' & -> & Hlen & Hperm & Hl');
        rewrite ?swapRange_length; try lia.
      exists l'. split; [done|]. split; [by rewrite Hlen, swapRange_length|].
      split; [by rewrite Hperm, swapRange_perm|].
      intros k. rewrite Hl'. rewrite !swapRange_lookup by lia.
      split_decide; try lia; try done; f_equal; lia.
    + apply Nat.ltb_ge in Hji.
      destruct (IH m i (j - i) (swapRange l (m - i) (m + j - i) i))
        as (l' & -> & Hlen & Hperm & Hl'); rewrite ?swapRange_length; try lia.
      exists l'. split; [done|]. split; [by rewrite Hlen, swapRange_length|].
      split; [by rewrite Hperm, swapRange_perm|].
      intros k. rewrite Hl'. rewrite !swapRange_lookup by lia.
      split_decide; try lia; try done; f_equal; lia.
Qed.

(** [rotate] turns [x u v y] into [x v u y], with [u = data[a:m]] and
    [v = data[m:b]]. *)
Lemma rotate_spec l a m b :
  a < m < b -> b <= length l ->
  exists l', rotate l a m b = Done l' /\ length l' = length l /\ l' ≡ₚ l /\
    forall k, l' !! k =
      if decide (a <= k < a + (b - m)) then l !! (k + (m - a))
      else if decide (a + (b - m) <= k < b) then l !! (k - (b - m))
      else l !! k.
Proof.
  intros Hamb Hb. unfold rotate.
  destruct (rotate_loop_spec (b - a) m (m - a) (b - m) l)
    as (l' & Hrun & Hlen & Hperm & Hl'); try lia.
  exists l'. split; [done|]. split; [done|]. split; [done|].
  intros k. rewrite Hl'. split_decide; try lia; try done; f_equal; lia.
Qed.

Lemma search_spec fuel (go_right : nat -> outcome bool) i j :
  i <= j -> j - i <= fuel ->
  (forall h, i <= h < j -> returns (go_right h)) ->
  exists r, search fuel go_right i j = Done r /\ i <= r <= j /\
    (r = i \/ go_right (r - 1) = Done true) /\
    (r = j \/ go_right r = Done false).
Proof.
  revert i j. induction fuel as [|fuel IH]; intros i j Hij Hfuel Hret.
  { assert (i = j) as -> by lia. exists j. simpl. rewrite Nat.ltb_irrefl.
    repeat split; auto. }
  cbn [search]. destruct (i <? j) eqn:Hlt.
  - apply Nat.ltb_lt in Hlt. pose proof (half_between i j Hlt) as Hh.
    destruct (Hret ((i + j) / 2) Hh) as [bb Hbb]. rewrite Hbb, bind_Done.
    destruct bb.
    + destruct (IH ((i + j) / 2 + 1) j) as (r & -> & Hr & Hlo & Hhi); try lia.
      { intros h Hh'. apply Hret. lia. }
      exists r. split; [done|]. split; [lia|]. split; [|done].
      destruct Hlo as [->|Hlo]; [|by right].
      right. by replace ((i + j) / 2 + 1 - 1) with ((i + j) / 2) by lia.
    + destruct (IH i ((i + j) / 2)) as (r & -> & Hr & Hlo & Hhi); try lia.
      { intros h Hh'. apply Hret. lia. }
      exists r. split; [done|]. split; [lia|]. split; [done|].
      destruct Hhi as [->|Hhi]; [|by right]. by right.
  - apply Nat.ltb_ge in Hlt. assert (i = j) as -> by lia.
    exists j. repeat split; auto.
Qed.

End SliceFacts.

(* ===================================================================== *)
(** ** What [sort.SliceStable] guarantees for a comparator that need not
       be a strict weak order *)
(* ===================================================================== *)

Section Ordering.

Context {A : Type}.
Implicit Types (l data : list A) (i j k a b m n : nat).

Variable less : list A -> nat -> nat -> outcome bool.

(** [lt x y]: the answer of the closure when [x] sits at the higher index.
    All calls of [sort.SliceStable] are of that kind. *)
Variable lt : A -> A -> outcome bool.
Hypothesis Hless : forall data i j x y,
  j < i -> data !! i = Some x -> data !! j = Some y -> less data i j = lt x y.

(** [pos x]: the index of [x] in the slice handed to the sort. *)
Variable pos : A -> nat.

(** A preorder that the comparator refines, on the entries of the slice,
    whenever the first argument came later in the input. *)
Variable rle : A -> A -> Prop.
Hypothesis rle_refl : forall x, rle x x.
Hypothesis rle_trans : forall x y z, rle x y -> rle y z -> rle x z.
Variable dom : A -> Prop.
Hypothesis Hcmp : forall x y, dom x -> dom y -> pos y < pos x ->
  exists c : bool, lt x y = Done c /\ if c then rle x y else rle y x.

Definition sorted_range l a b : Prop :=
  forall i j x y, a <= i -> i <= j -> j < b ->
    l !! i = Some x -> l !! j = Some y -> rle x y.

(** Every pair that stands against the input order was put so by the
    comparator itself. *)
Definition justified l a b : Prop :=
  forall p q x y, a <= p -> p < q -> q < b ->
    l !! p = Some x -> l !! q = Some y -> pos y < pos x -> lt x y = Done true.

Definition placed l a b : Prop :=
  forall k x, a <= k < b -> l !! k = Some x -> a <= pos x < b.

Definition untouched l a b : Prop :=
  forall k x, a <= k < b -> l !! k = Some x -> pos x = k.

(** [l'] differs from [l] inside [a, b) only, and what it holds there
    was there before. *)
Definition within l l' a b : Prop :=
  length l' = length l /\
  (forall k, k < a \/ b <= k -> l' !! k = l !! k) /\
  (forall k, a <= k < b -> exists k', a <= k' < b /\ l' !! k = l !! k').

Lemma within_refl l a b : within l l a b.
Proof. repeat split; eauto. Qed.

Lemma within_trans l1 l2 l3 a b :
  within l1 l2 a b -> within l2 l3 a b -> within l1 l3 a b.
Proof.
  intros (Hlen1 & Hout1 & Hin1) (Hlen2 & Hout2 & Hin2).
  split; [congruence|]. split.
  - intros k Hk. by rewrite Hout2, Hout1.
  - intros k Hk. destruct (Hin2 k Hk) as (k' & Hk' & ->).
    destruct (Hin1 k' Hk') as (k'' & Hk'' & ->). eauto.
Qed.

Lemma within_mono l l' a b a' b' :
  a' <= a -> b <= b' -> within l l' a b -> within l l' a' b'.
Proof.
  intros Ha Hb (Hlen & Hout & Hin). split; [done|]. split.
  - intros k Hk. apply Hout. lia.
  - intros k Hk. destruct (decide (a <= k < b)) as [Hk'|Hk'].
    + destruct (Hin k Hk') as (k' & ? & ->). exists k'. split; [lia|done].
    + exists k. split; [done|]. apply Hout. lia.
Qed.

Lemma within_placed l l' a b a' b' :
  a' <= a -> b <= b' -> within l l' a b -> placed l a' b' -> placed l' a' b'.
Proof.
  intros Ha Hb Hw Hpl k x Hk Hx.
  destruct (within_mono _ _ _ _ a' b' Ha Hb Hw) as (_ & _ & Hin).
  destruct (Hin k Hk) as (k' & Hk' & Heq). rewrite Heq in Hx. eauto.
Qed.

(** The inner loop of [insertionSort] moves the entry at [j] down to
    some [j'], past entries it compares less than. *)
Lemma insertionSort_inner_spec a j l x :
  a <= j -> l !! j = Some x ->
  (forall k y, a <= k < j -> l !! k = Some y -> returns (lt x y)) ->
  exists j' l', insertionSort_inner less a j l = Done l' /\ a <= j' <= j /\
    length l' = length l /\ l' ≡ₚ l /\
    (forall k, l' !! k =
       if decide (k = j') then Some x
       else if decide (j' < k <= j) then l !! (k - 1) else l !! k) /\
    (forall k y, j' <= k < j -> l !! k = Some y -> lt x y = Done true) /\
    (j' = a \/ exists y, l !! (j' - 1) = Some y /\ lt x y = Done false).
Proof.
  revert l. induction j as [|j IH]; intros l Haj Hx Hret.
  { exists 0, l. cbn. split; [done|]. split; [lia|]. split; [done|]. split; [done|].
    split; [|split; [intros; lia|left; lia]].
    intros k. split_decide; subst; try done; lia. }
  cbn [insertionSort_inner]. destruct (a <? S j) eqn:Ha.
  - apply Nat.ltb_lt in Ha.
    pose proof (lookup_lt_Some _ _ _ Hx) as Hlen.
    destruct (lookup_lt_is_Some_2 l j ltac:(lia)) as [y Hy].
    rewrite (Hless l (S j) j x y) by (done || lia).
    destruct (Hret j y ltac:(lia) Hy) as [c Hc]. rewrite Hc, bind_Done.
    destruct c.
    + assert (swap l (S j) j !! j = Some x) as Hx'.
      { rewrite swap_lookup by lia. split_decide; try lia; done. }
      destruct (IH (swap l (S j) j)) as (j' & l' & Hrun & Hj' & Hlen' & Hperm & Hl' & Hlt & Hstop);
        [lia|done| |].
      { intros k z Hk Hz. rewrite swap_lookup in Hz by lia.
        apply (Hret k z); [lia|]. revert Hz. split_decide; try lia; done. }
      exists j', l'. split; [done|]. split; [lia|].
      split; [by rewrite Hlen', swap_length|].
      split; [by rewrite Hperm, swap_perm|]. split; [|split].
      * intros k. rewrite Hl', !swap_lookup by lia.
        split_decide; try lia; try done; subst; try done; f_equal; lia.
      * intros k z Hk Hz. destruct (decide (k = j)) as [->|Hne]; [congruence|].
        apply (Hlt k z); [lia|]. rewrite swap_lookup by lia.
        split_decide; try lia; done.
      * destruct Hstop as [->|(z & Hz & Hzlt)]; [by left|].
        destruct (decide (j' = a)) as [->|Hne]; [by left|]. right.
        exists z. split; [|done]. rewrite swap_lookup in Hz by lia.
        revert Hz. split_decide; try lia; done.
    + exists (S j), l. split; [done|]. split; [lia|]. split; [done|]. split; [done|].
      split; [|split; [intros; lia|]].
      * intros k. split_decide; subst; try done; lia.
      * right. exists y. by replace (S j - 1) with j by lia.
  - apply Nat.ltb_ge in Ha. exists (S j), l. split; [done|]. split; [lia|].
    split; [done|]. split; [done|]. split; [|split; [intros; lia|left; lia]].
    intros k. split_decide; subst; try done; lia.
Qed.

Lemma lt_true_rle x y :
  dom x -> dom y -> pos y < pos x -> lt x y = Done true -> rle x y.
Proof.
  intros Hx Hy Hpos Hlt. destruct (Hcmp x y Hx Hy Hpos) as (c & Hc & Hr).
  rewrite Hlt in Hc. by simplify_eq.
Qed.

Lemma lt_false_rle x y :
  dom x -> dom y -> pos y < pos x -> lt x y = Done false -> rle y x.
Proof.
  intros Hx Hy Hpos Hlt. destruct (Hcmp x y Hx Hy Hpos) as (c & Hc & Hr).
  rewrite Hlt in Hc. by simplify_eq.
Qed.

Lemma lt_returns x y : dom x -> dom y -> pos y < pos x -> returns (lt x y).
Proof.
  intros Hx Hy Hpos. destruct (Hcmp x y Hx Hy Hpos) as (c & Hc & _). by exists c.
Qed.

Definition block_inv l a b : Prop :=
  sorted_range l a b /\ placed l a b /\ justified l a b.

(** One round of the outer loop of [insertionSort]. *)
Lemma insert_step a i l :
  a <= i < length l -> Forall dom l ->
  block_inv l a i -> untouched l i (S i) ->
  exists l', insertionSort_inner less a i l = Done l' /\ l' ≡ₚ l /\
    within l l' a (S i) /\ block_inv l' a (S i).
Proof.
  intros Hi Hdom (Hsorted & Hplaced & Hjust) Hun.
  destruct (lookup_lt_is_Some_2 l i ltac:(lia)) as [x Hx].
  assert (pos x = i) as Hposx by (apply (Hun i x); [lia|done]).
  assert (forall k y, l !! k = Some y -> dom y) as Hd
    by (intros k y Hy; exact (Forall_lookup_1 _ _ _ _ Hdom Hy)).
  assert (forall k y, a <= k < i -> l !! k = Some y -> pos y < pos x) as Hlow.
  { intros k y Hk Hy. destruct (Hplaced k y Hk Hy). lia. }
  destruct (insertionSort_inner_spec a i l x)
    as (j' & l' & Hrun & Hj' & Hlen & Hperm & Hl' & Hlt & Hstop); [lia|done| |].
  { intros k y Hk Hy. apply lt_returns; eauto. }
  exists l'. split; [done|]. split; [done|].
  assert (within l l' a (S i)) as Hw.
  { split; [done|]. split.
    - intros k Hk. rewrite Hl'. split_decide; try lia; done.
    - intros k Hk. rewrite Hl'. split_decide.
      + exists i. split; [lia|]. by rewrite Hx.
      + exists (k - 1). split; [lia|done].
      + exists k. split; [lia|done]. }
  split; [done|]. split; [|split].
  - intros p q u v Hp Hpq Hq. rewrite !Hl'. intros Hu Hv.
    destruct (decide (p = j')) as [->|Hpj]; destruct (decide (q = j')) as [->|Hqj].
    + by simplify_eq.
    + destruct (decide (j' < q <= i)); [|lia]. simplify_eq.
      apply lt_true_rle; eauto. apply (Hlow (q - 1)); [lia|done].
      apply (Hlt (q - 1)); [lia|done].
    + destruct (decide (j' < p <= i)); [lia|]. simplify_eq.
      destruct Hstop as [->|(y & Hy & Hylt)]; [lia|].
      apply (rle_trans _ y).
      * apply (Hsorted p (j' - 1)); try done; lia.
      * apply lt_false_rle; eauto. apply (Hlow (j' - 1)); [lia|done].
    + destruct (decide (j' < p <= i)); destruct (decide (j' < q <= i)); try lia.
      * apply (Hsorted (p - 1) (q - 1)); try done; lia.
      * apply (Hsorted p (q - 1)); try done; lia.
      * apply (Hsorted p q); try done; lia.
  - apply (within_placed l l' a (S i)); [lia|lia|done|].
    intros k y Hk Hy. destruct (decide (k = i)) as [->|Hne].
    + simplify_eq. lia.
    + destruct (Hplaced k y ltac:(lia) Hy). lia.
  - intros p q u v Hp Hpq Hq. rewrite !Hl'. intros Hu Hv Hpos.
    destruct (decide (p = j')) as [->|Hpj]; destruct (decide (q = j')) as [->|Hqj];
      try lia.
    + destruct (decide (j' < q <= i)); [|lia]. simplify_eq.
      apply (Hlt (q - 1)); [lia|done].
    + destruct (decide (j' < p <= i)); [lia|]. simplify_eq.
      specialize (Hlow p u ltac:(lia) Hu). lia.
    + destruct (decide (j' < p <= i)); destruct (decide (j' < q <= i)); try lia.
      * apply (Hjust (p - 1) (q - 1)); try done; lia.
      * apply (Hjust p (q - 1)); try done; lia.
      * apply (Hjust p q); try done; lia.
Qed.

Lemma insertionSort_outer_spec count a i l :
  a <= i -> i + count <= length l -> Forall dom l ->
  block_inv l a i -> untouched l i (i + count) ->
  exists l', insertionSort_outer less count a i l = Done l' /\ l' ≡ₚ l /\
    within l l' a (i + count) /\ block_inv l' a (i + count).
Proof.
  revert i l. induction count as [|count IH]; intros i l Hai Hlen Hdom Hinv Hun.
  { exists l. rewrite Nat.add_0_r. split; [done|]. split; [done|].
    split; [apply within_refl|done]. }
  cbn [insertionSort_outer].
  destruct (insert_step a i l) as (l1 & -> & Hperm1 & Hw1 & Hinv1); [lia|done|done| |].
  { intros k x Hk. apply Hun. lia. }
  rewrite bind_Done. pose proof Hw1 as (Hlen1 & Hout1 & _).
  destruct (IH (S i) l1) as (l' & -> & Hperm' & Hw' & Hinv'); [lia|lia| |done| |].
  { by rewrite Hperm1. }
  { intros k x Hk. rewrite Hout1 by lia. apply Hun. lia. }
  exists l'. replace (i + S count) with (S i + count) by lia.
  split; [done|]. split; [by rewrite Hperm'|]. split; [|done].
  apply (within_trans _ l1); [|done]. apply (within_mono _ _ a (S i)); [lia|lia|done].
Qed.

(** [insertionSort(data, a, b)] on a block that is still in input order. *)
Lemma insertionSort_spec l a b :
  a <= b <= length l -> Forall dom l -> untouched l a b ->
  exists l', insertionSort less l a b = Done l' /\ l' ≡ₚ l /\
    within l l' a b /\ block_inv l' a b.
Proof.
  intros Hab Hdom Hun. unfold insertionSort.
  destruct (decide (b <= a + 1)) as [Hsmall|Hbig].
  - replace (b - (a + 1)) with 0 by lia. exists l. split; [done|]. split; [done|].
    split; [apply within_refl|]. split; [|split].
    + intros i j x y Hi Hij Hj Hx Hy. assert (i = j) as -> by lia. by simplify_eq.
    + intros k x Hk Hx. rewrite (Hun k x Hk Hx). done.
    + intros p q x y Hp Hpq Hq. lia.
  - destruct (insertionSort_outer_spec (b - (a + 1)) a (a + 1) l)
      as (l' & Hrun & Hperm & Hw & Hinv); [lia|lia|done| | |].
    + split; [|split].
      * intros i j x y Hi Hij Hj Hx Hy. assert (i = j) as -> by lia. by simplify_eq.
      * intros k x Hk Hx. rewrite (Hun k x ltac:(lia) Hx). lia.
      * intros p q x y Hp Hpq Hq. lia.
    + intros k x Hk. apply Hun. lia.
    + replace (a + 1 + (b - (a + 1))) with b in * by lia. eauto.
Qed.

(** *** SymMerge *)

Definition merge_pre l a m b c : Prop :=
  sorted_range l a m /\ sorted_range l m b /\
  (forall k x, a <= k < m -> l !! k = Some x -> pos x < c) /\
  (forall k x, m <= k < b -> l !! k = Some x -> c <= pos x).

Lemma symMerge_one_left fuel l a m b :
  m - a = 1 ->
  symMerge less fuel l a m b =
    (i ← search (b - m) (fun h => less l h a) m b; Done (shift_up (i - 1 - a) a l)).
Proof. intros H. destruct fuel; cbn [symMerge]; rewrite H; reflexivity. Qed.

Lemma symMerge_one_right fuel l a m b :
  m - a <> 1 -> b - m = 1 ->
  symMerge less fuel l a m b =
    (i ← search (m - a) (fun h => negb <$> less l m h) a m;
     Done (shift_down (m - i) m l)).
Proof.
  intros H1 H2. apply Nat.eqb_neq in H1.
  destruct fuel; cbn [symMerge]; rewrite H1, H2; reflexivity.
Qed.

(** A call [less(hi, lo)] across the two runs. *)
Lemma cross_less l a m b c hi lo x y :
  Forall dom l -> merge_pre l a m b c ->
  a <= lo < m -> m <= hi < b -> l !! hi = Some x -> l !! lo = Some y ->
  exists r : bool, less l hi lo = Done r /\ if r then rle x y else rle y x.
Proof.
  intros Hdom (_ & _ & Hlo & Hhi) Hl Hh Hx Hy.
  rewrite (Hless l hi lo x y) by (done || lia).
  apply Hcmp.
  - exact (Forall_lookup_1 _ _ _ _ Hdom Hx).
  - exact (Forall_lookup_1 _ _ _ _ Hdom Hy).
  - specialize (Hlo lo y Hl Hy). specialize (Hhi hi x Hh Hx). lia.
Qed.

Lemma symMerge_left_sorted fuel l a m b c :
  m = a + 1 -> m < b -> b <= length l -> Forall dom l -> merge_pre l a m b c ->
  exists l', symMerge less fuel l a m b = Done l' /\ l' ≡ₚ l /\
    within l l' a b /\ sorted_range l' a b.
Proof.
  intros Hm Hmb Hb Hdom Hpre. rewrite symMerge_one_left by lia.
  destruct (lookup_lt_is_Some_2 l a ltac:(lia)) as [y Hy].
  assert (forall h x, m <= h < b -> l !! h = Some x ->
            exists r : bool, less l h a = Done r /\ if r then rle x y else rle y x) as Hcross.
  { intros h x Hh Hx. apply (cross_less l a m b c h a); auto. lia. }
  destruct (search_spec (b - m) (fun h => less l h a) m b) as (i & -> & Hi & Hlo & Hhi);
    [lia|lia| |].
  { intros h Hh. destruct (lookup_lt_is_Some_2 l h ltac:(lia)) as [x Hx].
    destruct (Hcross h x Hh Hx) as (r & Hr & _). by exists r. }
  rewrite bind_Done. eexists. split; [done|].
  split; [apply shift_up_perm|].
  pose proof (shift_up_lookup (i - 1 - a) a l) as Hl'.
  assert (a + (i - 1 - a) = i - 1) as Hidx by lia. rewrite Hidx in Hl'.
  destruct Hpre as (_ & Hsr & _ & _).
  split.
  - split; [apply shift_up_length|]. split.
    + intros k Hk. rewrite Hl' by lia. split_decide; try lia; done.
    + intros k Hk. rewrite Hl' by lia. split_decide.
      * exists (S k). split; [lia|done].
      * exists a. split; [lia|done].
      * exists k. split; [lia|done].
  - intros p q u v Hp Hpq Hq. rewrite !Hl' by lia. intros Hu Hv.
    destruct (decide (a <= p < i - 1)) as [Hp1|Hp1];
      destruct (decide (a <= q < i - 1)) as [Hq1|Hq1]; try lia.
    + apply (Hsr (S p) (S q)); try done; lia.
    + destruct (decide (q = i - 1)) as [->|Hq2].
      * destruct Hlo as [->|Hlo]; [lia|].
        destruct (lookup_lt_is_Some_2 l (i - 1) ltac:(lia)) as [w Hw].
        destruct (Hcross (i - 1) w ltac:(lia) Hw) as (r & Hr & Hrle).
        rewrite Hlo in Hr. simplify_eq.
        apply (rle_trans _ w); [|done]. apply (Hsr (S p) (i - 1)); try done; lia.
      * apply (Hsr (S p) q); try done; lia.
    + destruct (decide (p = i - 1)) as [->|Hp2];
        destruct (decide (q = i - 1)) as [->|Hq2]; try lia.
      * by simplify_eq.
      * destruct Hhi as [->|Hhi]; [lia|].
        destruct (lookup_lt_is_Some_2 l i ltac:(lia)) as [w Hw].
        destruct (Hcross i w ltac:(lia) Hw) as (r & Hr & Hrle).
        rewrite Hhi in Hr. simplify_eq.
        apply (rle_trans _ w); [done|]. apply (Hsr i q); try done; lia.
      * apply (Hsr p q); try done; lia.
Qed.

Lemma symMerge_right_sorted fuel l a m b c :
  a < m -> m - a <> 1 -> b = m + 1 -> b <= length l -> Forall dom l ->
  merge_pre l a m b c ->
  exists l', symMerge less fuel l a m b = Done l' /\ l' ≡ₚ l /\
    within l l' a b /\ sorted_range l' a b.
Proof.
  intros Ham Hm1 Hbm Hb Hdom Hpre. rewrite symMerge_one_right by lia.
  destruct (lookup_lt_is_Some_2 l m ltac:(lia)) as [x Hx].
  assert (forall h y, a <= h < m -> l !! h = Some y ->
            exists r : bool, less l m h = Done r /\ if r then rle x y else rle y x) as Hcross.
  { intros h y Hh Hy. apply (cross_less l a m b c m h); auto. lia. }
  destruct (search_spec (m - a) (fun h => negb <$> less l m h) a m)
    as (i & -> & Hi & Hlo & Hhi); [lia|lia| |].
  { intros h Hh. destruct (lookup_lt_is_Some_2 l h ltac:(lia)) as [y Hy].
    destruct (Hcross h y Hh Hy) as (r & -> & _). by eexists. }
  rewrite bind_Done. eexists. split; [done|].
  split; [apply shift_down_perm|].
  pose proof (shift_down_lookup (m - i) m l) as Hl'.
  assert (m - (m - i) = i) as Hidx by lia. rewrite Hidx in Hl'.
  destruct Hpre as (Hsl & _ & _ & _).
  split.
  - split; [apply shift_down_length|]. split.
    + intros k Hk. rewrite Hl' by lia. split_decide; try lia; done.
    + intros k Hk. rewrite Hl' by lia. split_decide.
      * exists (k - 1). split; [lia|done].
      * exists m. split; [lia|done].
      * exists k. split; [lia|done].
  - intros p q u v Hp Hpq Hq. rewrite !Hl' by lia. intros Hu Hv.
    destruct (decide (i < p <= m)) as [Hp1|Hp1];
      destruct (decide (i < q <= m)) as [Hq1|Hq1]; try lia.
    + apply (Hsl (p - 1) (q - 1)); try done; lia.
    + destruct (decide (p = i)) as [->|Hp2].
      * destruct Hhi as [->|Hhi]; [lia|].
        destruct (lookup_lt_is_Some_2 l i ltac:(lia)) as [w Hw].
        destruct (Hcross i w ltac:(lia) Hw) as (r & Hr & Hrle).
        rewrite Hr, fmap_Done in Hhi. destruct r; simplify_eq.
        apply (rle_trans _ w); [done|]. apply (Hsl i (q - 1)); try done; lia.
      * apply (Hsl p (q - 1)); try done; lia.
    + destruct (decide (p = i)) as [->|Hp2];
        destruct (decide (q = i)) as [->|Hq2]; try lia.
      * by simplify_eq.
      * destruct Hlo as [->|Hlo]; [lia|].
        destruct (lookup_lt_is_Some_2 l (i - 1) ltac:(lia)) as [w Hw].
        destruct (Hcross (i - 1) w ltac:(lia) Hw) as (r & Hr & Hrle).
        rewrite Hr, fmap_Done in Hlo. destruct r; simplify_eq.
        apply (rle_trans _ w); [|done]. apply (Hsl p (i - 1)); try done; lia.
      * apply (Hsl p q); try done; lia.
Qed.

Lemma symMerge_general fuel l a m b start0 r0 :
  m - a <> 1 -> b - m <> 1 ->
  (if (a + b) / 2 <? m then ((a + b) / 2 + m - b, (a + b) / 2) else (a, m)) = (start0, r0) ->
  symMerge less (S fuel) l a m b =
    (start ← search (r0 - start0)
               (fun c => negb <$> less l ((a + b) / 2 + m - 1 - c) c) start0 r0;
     data ← (if (start <? m) && (m <? (a + b) / 2 + m - start)
             then rotate l start m ((a + b) / 2 + m - start) else Done l);
     data ← (if (a <? start) && (start <? (a + b) / 2)
             then symMerge less fuel data a start ((a + b) / 2) else Done data);
     if ((a + b) / 2 <? (a + b) / 2 + m - start) && ((a + b) / 2 + m - start <? b)
     then symMerge less fuel data ((a + b) / 2) ((a + b) / 2 + m - start) b
     else Done data).
Proof.
  intros H1 H2 Hsr. apply Nat.eqb_neq in H1, H2.
  cbn [symMerge]. rewrite H1, H2, Hsr. reflexivity.
Qed.

(** Where the search of the general case starts and what it probes. *)
Lemma symMerge_bounds a m b start0 r0 :
  a < m < b ->
  (if (a + b) / 2 <? m then ((a + b) / 2 + m - b, (a + b) / 2) else (a, m)) = (start0, r0) ->
  let mid := (a + b) / 2 in
  a < mid < b /\ a <= start0 <= r0 /\ r0 <= m /\ r0 <= mid /\ mid + m - start0 <= b /\
  (start0 = a \/ mid + m - start0 = b) /\ (r0 = m \/ r0 = mid /\ mid < m).
Proof.
  intros Hamb Hsr mid. pose proof (half_twice a b) as Hmid. fold mid in Hmid, Hsr.
  destruct (mid <? m) eqn:Hcase; simplify_eq.
  - apply Nat.ltb_lt in Hcase. lia.
  - apply Nat.ltb_ge in Hcase. lia.
Qed.

(** The two runs [l[s:m]] and [l[m:e]] have changed places in [l1]. *)
Definition exchanged l l1 s m e : Prop :=
  length l1 = length l /\
  forall k, l1 !! k =
    if decide (s <= k < s + (e - m)) then l !! (k + (m - s))
    else if decide (s + (e - m) <= k < e) then l !! (k - (e - m))
    else l !! k.

Lemma rotate_or_skip l s m e :
  s <= m <= e -> e <= length l ->
  exists l1, (if (s <? m) && (m <? e) then rotate l s m e else Done l) = Done l1 /\
    l1 ≡ₚ l /\ exchanged l l1 s m e.
Proof.
  intros Hsme He. destruct ((s <? m) && (m <? e)) eqn:Hrot.
  - apply andb_true_iff in Hrot as [H1%Nat.ltb_lt H2%Nat.ltb_lt].
    destruct (rotate_spec l s m e) as (l1 & Hrun & Hlen1 & Hperm1 & HL1); [lia|lia|].
    exists l1. split; [done|]. split; [done|]. split; [done|]. done.
  - exists l. split; [done|]. split; [done|]. split; [done|].
    assert (s = m \/ e = m) as Hdeg.
    { apply andb_false_iff in Hrot as [H%Nat.ltb_ge|H%Nat.ltb_ge]; lia. }
    clear Hrot He. intros k. split_decide; try done; f_equal; lia.
Qed.

Lemma exchanged_within l l1 s m e :
  s <= m <= e -> exchanged l l1 s m e -> within l l1 s e.
Proof.
  intros Hsme [Hlen HL1]. split; [done|]. split.
  - intros k Hk. rewrite HL1. split_decide; try lia; done.
  - intros k Hk. rewrite HL1. split_decide; try lia.
    + exists (k + (m - s)). split; [lia|done].
    + exists (k - (e - m)). split; [lia|done].
Qed.

Lemma merge_pre_ext l l' a m b c :
  a <= m <= b ->
  (forall k, a <= k < b -> l' !! k = l !! k) -> merge_pre l a m b c -> merge_pre l' a m b c.
Proof.
  intros Hamb Heq (Hs1 & Hs2 & Hp1 & Hp2). split; [|split; [|split]].
  - intros i j x y Hi Hij Hj. rewrite !Heq by lia. by apply Hs1.
  - intros i j x y Hi Hij Hj. rewrite !Heq by lia. by apply Hs2.
  - intros k x Hk. rewrite Heq by lia. by apply Hp1.
  - intros k x Hk. rewrite Heq by lia. by apply Hp2.
Qed.

Lemma exchanged_pre_left l l1 a s m e b c :
  a <= s <= m -> m <= e <= b -> merge_pre l a m b c -> exchanged l l1 s m e ->
  merge_pre l1 a s (s + (e - m)) c.
Proof.
  intros Has Hmb (Hsl & Hsr & Hposl & Hposr) [_ HL1]. split; [|split; [|split]].
  - intros i j x y Hi Hij Hj. rewrite !HL1.
    destruct (decide (s <= i < s + (e - m))); [lia|].
    destruct (decide (s + (e - m) <= i < e)); [lia|].
    destruct (decide (s <= j < s + (e - m))); [lia|].
    destruct (decide (s + (e - m) <= j < e)); [lia|].
    intros Hx Hy. apply (Hsl i j); try done; lia.
  - intros i j x y Hi Hij Hj. rewrite !HL1.
    destruct (decide (s <= i < s + (e - m))); [|lia].
    destruct (decide (s <= j < s + (e - m))); [|lia].
    intros Hx Hy. apply (Hsr (i + (m - s)) (j + (m - s))); try done; lia.
  - intros k x Hk. rewrite HL1.
    destruct (decide (s <= k < s + (e - m))); [lia|].
    destruct (decide (s + (e - m) <= k < e)); [lia|].
    intros Hx. apply (Hposl k); [lia|done].
  - intros k x Hk. rewrite HL1.
    destruct (decide (s <= k < s + (e - m))); [|lia].
    intros Hx. apply (Hposr (k + (m - s))); [lia|done].
Qed.

Lemma exchanged_pre_right l l1 a s m e b c :
  a <= s <= m -> m <= e <= b -> merge_pre l a m b c -> exchanged l l1 s m e ->
  merge_pre l1 (s + (e - m)) e b c.
Proof.
  intros Has Hmb (Hsl & Hsr & Hposl & Hposr) [_ HL1]. split; [|split; [|split]].
  - intros i j x y Hi Hij Hj. rewrite !HL1.
    destruct (decide (s <= i < s + (e - m))); [lia|].
    destruct (decide (s + (e - m) <= i < e)); [|lia].
    destruct (decide (s <= j < s + (e - m))); [lia|].
    destruct (decide (s + (e - m) <= j < e)); [|lia].
    intros Hx Hy. apply (Hsl (i - (e - m)) (j - (e - m))); try done; lia.
  - intros i j x y Hi Hij Hj. rewrite !HL1.
    destruct (decide (s <= i < s + (e - m))); [lia|].
    destruct (decide (s + (e - m) <= i < e)); [lia|].
    destruct (decide (s <= j < s + (e - m))); [lia|].
    destruct (decide (s + (e - m) <= j < e)); [lia|].
    intros Hx Hy. apply (Hsr i j); try done; lia.
  - intros k x Hk. rewrite HL1.
    destruct (decide (s <= k < s + (e - m))); [lia|].
    destruct (decide (s + (e - m) <= k < e)); [|lia].
    intros Hx. apply (Hposl (k - (e - m))); [lia|done].
  - intros k x Hk. rewrite HL1.
    destruct (decide (s <= k < s + (e - m))); [lia|].
    destruct (decide (s + (e - m) <= k < e)); [lia|].
    intros Hx. apply (Hposr k); [lia|done].
Qed.

(** Everything in [l[a:mid]] is below everything in [l[mid:b]]. *)
Definition cross_ok l a mid b : Prop :=
  forall i j x y, a <= i < mid -> mid <= j < b ->
    l !! i = Some x -> l !! j = Some y -> rle x y.

Lemma sorted_join l a mid b :
  sorted_range l a mid -> sorted_range l mid b -> cross_ok l a mid b ->
  sorted_range l a b.
Proof.
  intros H1 H2 Hc i j x y Hi Hij Hj Hx Hy.
  destruct (decide (j < mid)); [apply (H1 i j); done|].
  destruct (decide (mid <= i)); [apply (H2 i j); done|].
  apply (Hc i j); try done; lia.
Qed.

Lemma exchanged_cross l l1 a s m e b c :
  a <= s <= m -> m <= e <= b -> b <= length l ->
  merge_pre l a m b c -> exchanged l l1 s m e ->
  (s < m -> m < e -> forall x y, l !! (e - 1) = Some x -> l !! s = Some y -> rle x y) ->
  (a < s -> e < b -> forall x y, l !! (s - 1) = Some x -> l !! e = Some y -> rle x y) ->
  cross_ok l1 a (s + (e - m)) b.
Proof.
  intros Has Hmb Hb (Hsl & Hsr & _ & _) [Hlen HL1] Hin Hout i j u v Hi Hj.
  rewrite !HL1.
  destruct (decide (s <= i < s + (e - m))) as [Hi1|Hi1].
  - destruct (decide (s <= j < s + (e - m))); [lia|].
    destruct (decide (s + (e - m) <= j < e)) as [Hj1|Hj1]; intros Hu Hv.
    + assert (e - 1 < length l) as He by lia.
      assert (s < length l) as Hs' by lia.
      destruct (lookup_lt_is_Some_2 l _ He) as [x Hx].
      destruct (lookup_lt_is_Some_2 l _ Hs') as [y Hy].
      apply (rle_trans _ x); [apply (Hsr (i + (m - s)) (e - 1)); try done; lia|].
      apply (rle_trans _ y); [apply (Hin ltac:(lia) ltac:(lia) x y); done|].
      apply (Hsl s (j - (e - m))); try done; lia.
    + apply (Hsr (i + (m - s)) j); try done; lia.
  - destruct (decide (s + (e - m) <= i < e)); [lia|].
    destruct (decide (s <= j < s + (e - m))); [lia|].
    destruct (decide (s + (e - m) <= j < e)) as [Hj1|Hj1]; intros Hu Hv.
    + apply (Hsl i (j - (e - m))); try done; lia.
    + assert (e < length l) as He by lia.
      assert (s - 1 < length l) as Hs' by lia.
      destruct (lookup_lt_is_Some_2 l _ Hs') as [x Hx].
      destruct (lookup_lt_is_Some_2 l _ He) as [y Hy].
      apply (rle_trans _ x); [apply (Hsl i (s - 1)); try done; lia|].
      apply (rle_trans _ y); [apply (Hout ltac:(lia) ltac:(lia) x y); done|].
      apply (Hsr e j); try done; lia.
Qed.

Lemma cross_within l1 l2 l3 a mid b :
  a <= mid <= b -> cross_ok l1 a mid b -> within l1 l2 a mid -> within l2 l3 mid b ->
  cross_ok l3 a mid b.
Proof.
  intros Hamb Hc (_ & Hout2 & Hin2) (_ & Hout3 & Hin3) i j x y Hi Hj Hx Hy.
  rewrite Hout3 in Hx by lia.
  destruct (Hin2 i Hi) as (i' & Hi' & Hieq). rewrite Hieq in Hx.
  destruct (Hin3 j Hj) as (j' & Hj' & Hjeq). rewrite Hjeq, Hout2 in Hy by lia.
  by apply (Hc i' j').
Qed.

Lemma sorted_range_within_right l l' a mid b :
  within l l' mid b -> sorted_range l a mid -> sorted_range l' a mid.
Proof.
  intros (_ & Hout & _) Hs i j x y Hi Hij Hj. rewrite !Hout by lia. by apply Hs.
Qed.

(** The recursive calls of [symMerge], or none when a part is empty. *)
Lemma symMerge_half (rec : list A -> nat -> nat -> nat -> outcome (list A)) l a m b c :
  a <= m <= b -> merge_pre l a m b c ->
  (a < m < b -> exists l', rec l a m b = Done l' /\ l' ≡ₚ l /\
                  within l l' a b /\ sorted_range l' a b) ->
  exists l', (if (a <? m) && (m <? b) then rec l a m b else Done l) = Done l' /\
    l' ≡ₚ l /\ within l l' a b /\ sorted_range l' a b.
Proof.
  intros Hamb (Hs1 & Hs2 & _) Hrec. destruct ((a <? m) && (m <? b)) eqn:Hc.
  - apply andb_true_iff in Hc as [H1%Nat.ltb_lt H2%Nat.ltb_lt]. apply Hrec. lia.
  - exists l. split; [done|]. split; [done|]. split; [apply within_refl|].
    assert (m = a \/ m = b) as [->| ->]; [|done|done].
    apply andb_false_iff in Hc as [H%Nat.ltb_ge|H%Nat.ltb_ge]; lia.
Qed.

(** What the binary search of the general case finds. *)
Lemma symMerge_probe l a m b c mid start0 r0 :
  a < m < b -> b <= length l -> Forall dom l -> merge_pre l a m b c ->
  a <= start0 <= r0 -> r0 <= m -> r0 <= mid -> mid + m - start0 <= b ->
  (start0 = a \/ mid + m - start0 = b) -> (r0 = m \/ r0 = mid /\ mid < m) ->
  exists start,
    search (r0 - start0) (fun cc => negb <$> less l (mid + m - 1 - cc) cc) start0 r0
    = Done start /\ start0 <= start <= r0 /\
    (start < m -> m < mid + m - start ->
     forall x y, l !! (mid + m - start - 1) = Some x -> l !! start = Some y -> rle x y) /\
    (a < start -> mid + m - start < b ->
     forall x y, l !! (start - 1) = Some x -> l !! (mid + m - start) = Some y -> rle x y).
Proof.
  intros Hamb Hb Hdom Hpre Hs0 Hr0m Hr0mid Hend0 Hfst Hlst.
  assert (forall cc x y, start0 <= cc < r0 ->
            l !! (mid + m - 1 - cc) = Some x -> l !! cc = Some y ->
            exists r : bool, less l (mid + m - 1 - cc) cc = Done r /\
                             if r then rle x y else rle y x) as Hcross.
  { intros cc x y Hcc Hx Hy.
    apply (cross_less l a m b c (mid + m - 1 - cc) cc); auto; lia. }
  destruct (search_spec (r0 - start0)
              (fun cc => negb <$> less l (mid + m - 1 - cc) cc) start0 r0)
    as (start & Hrun & Hst & Hlo & Hhi); [lia|lia| |].
  { intros h Hh. destruct (lookup_lt_is_Some_2 l h ltac:(lia)) as [y Hy].
    destruct (lookup_lt_is_Some_2 l (mid + m - 1 - h) ltac:(lia)) as [x Hx].
    destruct (Hcross h x y Hh Hx Hy) as (r & -> & _). by eexists. }
  exists start. split; [done|]. split; [done|]. clear Hrun Hpre Hdom. split.
  - intros H1 H2 x y Hx Hy. destruct Hhi as [->|Hhi]; [lia|].
    assert (start < r0) as Hlt by lia.
    replace (mid + m - start - 1) with (mid + m - 1 - start) in Hx by lia.
    destruct (Hcross start x y ltac:(lia) Hx Hy) as (r & Hr & Hrle).
    rewrite Hr, fmap_Done in Hhi. destruct r; by simplify_eq.
  - intros H1 H2 x y Hx Hy. destruct Hlo as [->|Hlo]; [lia|].
    assert (start0 < start) as Hlt by lia.
    replace (mid + m - start) with (mid + m - 1 - (start - 1)) in Hy by lia.
    destruct (Hcross (start - 1) y x ltac:(lia) Hy Hx) as (r & Hr & Hrle).
    rewrite Hr, fmap_Done in Hlo. destruct r; by simplify_eq.
Qed.

(** SymMerge leaves the two runs merged into one that ascends in [rle]. *)
Lemma symMerge_sorted fuel : forall l a m b c,
  a < m < b -> b <= length l -> b - a <= fuel -> Forall dom l -> merge_pre l a m b c ->
  exists l', symMerge less fuel l a m b = Done l' /\ l' ≡ₚ l /\
    within l l' a b /\ sorted_range l' a b.
Proof.
  induction fuel as [|fuel IH]; intros l a m b c Hamb Hb Hfuel Hdom Hpre; [lia|].
  destruct (decide (m - a = 1)) as [Hone|Hone].
  { apply (symMerge_left_sorted _ l a m b c); auto; lia. }
  destruct (decide (b - m = 1)) as [Hone'|Hone'].
  { apply (symMerge_right_sorted _ l a m b c); auto; lia. }
  destruct (if (a + b) / 2 <? m then ((a + b) / 2 + m - b, (a + b) / 2) else (a, m))
    as [start0 r0] eqn:Hsr.
  rewrite (symMerge_general fuel l a m b start0 r0) by done.
  pose proof (symMerge_bounds a m b start0 r0 Hamb Hsr) as Hbd. cbv zeta in Hbd.
  generalize dependent ((a + b) / 2). intros mid _ Hbd. clear Hone Hone'.
  destruct Hbd as (Hmid & Hs0 & Hr0m & Hr0mid & Hend0 & Hfst & Hlst).
  destruct (symMerge_probe l a m b c mid start0 r0)
    as (start & -> & Hst & Hin & Hout); try done.
  rewrite bind_Done.
  assert (exists e, e = mid + m - start) as [e He] by eauto. rewrite <- He in *.
  assert (start + (e - m) = mid) as Hsplit by lia.
  assert (a <= start <= m /\ m <= e <= b /\ a <= mid <= b /\ mid - a <= fuel
          /\ b - mid <= fuel /\ start <= mid <= e)
    as (Has & Hmeb & Hamid & Hf1 & Hf2 & Hsme) by lia.
  clear Hs0 Hr0m Hr0mid Hend0 Hfst Hlst Hst He Hfuel Hmid start0 r0.
  destruct (rotate_or_skip l start m e) as (l1 & -> & Hperm1 & Hex); [lia|lia|].
  rewrite bind_Done.
  pose proof (exchanged_pre_left l l1 a start m e b c Has Hmeb Hpre Hex) as Hpre1.
  pose proof (exchanged_pre_right l l1 a start m e b c Has Hmeb Hpre Hex) as Hpre2.
  pose proof (exchanged_cross l l1 a start m e b c Has Hmeb Hb Hpre Hex Hin Hout) as Hcr.
  pose proof (exchanged_within l l1 start m e ltac:(lia) Hex) as Hw1.
  destruct Hex as [Hlen1 _]. rewrite Hsplit in Hpre1, Hpre2, Hcr.
  clear Hin Hout Hpre Hsplit.
  destruct (symMerge_half (symMerge less fuel) l1 a start mid c)
    as (l2 & -> & Hperm2 & Hw2 & Hs2); [lia|done| |].
  { intros H. apply (IH l1 a start mid c); [done|lia|done|by rewrite Hperm1|done]. }
  rewrite bind_Done. pose proof Hw2 as (Hlen2 & Hout2 & _).
  destruct (symMerge_half (symMerge less fuel) l2 mid e b c)
    as (l3 & -> & Hperm3 & Hw3 & Hs3); [lia| | |].
  { apply (merge_pre_ext l1); [lia| |done]. intros k Hk. apply Hout2. lia. }
  { intros H. apply (IH l2 mid e b c); [done|lia|done|by rewrite Hperm2, Hperm1|].
    apply (merge_pre_ext l1); [lia| |done]. intros k Hk. apply Hout2. lia. }
  exists l3. split; [done|]. split; [by rewrite Hperm3, Hperm2|]. split.
  - apply (within_trans _ l1); [apply (within_mono _ _ start e); [lia|lia|done]|].
    apply (within_trans _ l2); [apply (within_mono _ _ a mid); [lia|lia|done]|].
    apply (within_mono _ _ mid b); [lia|lia|done].
  - apply (sorted_join _ a mid b); [|done|].
    + by apply (sorted_range_within_right l2 _ a mid b).
    + by apply (cross_within l1 l2 l3).
Qed.

(** *** The two phases of [stable] *)

Lemma block_inv_ext l l' a b :
  (forall k, a <= k < b -> l' !! k = l !! k) -> block_inv l a b -> block_inv l' a b.
Proof.
  intros Heq (Hs & Hp & Hj). split; [|split].
  - intros i j x y Hi Hij Hj'. rewrite !Heq by lia. by apply Hs.
  - intros k x Hk. rewrite Heq by lia. by apply Hp.
  - intros p q x y Hp' Hpq Hq. rewrite !Heq by lia. by apply Hj.
Qed.

(** Blocks of [blockSize] entries, counted from [a], the last one cut at [n]. *)
Definition blocks_from (P : list A -> nat -> nat -> Prop) (blockSize a n : nat) l : Prop :=
  forall j, a + j * blockSize < n ->
    P l (a + j * blockSize) (Nat.min (a + j * blockSize + blockSize) n).

Lemma stable_blocks_spec fuel blockSize : forall a l,
  0 < blockSize -> a <= length l -> length l - a <= fuel ->
  Forall dom l -> untouched l a (length l) ->
  exists l', stable_blocks less fuel blockSize a (length l) l = Done l' /\ l' ≡ₚ l /\
    within l l' a (length l) /\ blocks_from block_inv blockSize a (length l) l'.
Proof.
  induction fuel as [|fuel IH]; intros a l Hbs Ha Hfuel Hdom Hun.
  - cbn [stable_blocks]. destruct (a + blockSize <=? length l) eqn:Hb;
      [apply Nat.leb_le in Hb; lia|]. apply Nat.leb_gt in Hb.
    destruct (insertionSort_spec l a (length l)) as (l' & -> & Hperm & Hw & Hinv);
      [lia|done|done|].
    exists l'. split; [done|]. split; [done|]. split; [done|].
    intros j Hj. assert (j = 0) as -> by nia.
    replace (Nat.min _ _) with (length l) by lia. by rewrite Nat.add_0_r.
  - cbn [stable_blocks]. destruct (a + blockSize <=? length l) eqn:Hb.
    + apply Nat.leb_le in Hb.
      destruct (insertionSort_spec l a (a + blockSize)) as (l1 & -> & Hperm1 & Hw1 & Hinv1);
        [lia|done| |].
      { intros k x Hk. apply Hun. lia. }
      rewrite bind_Done. pose proof Hw1 as (Hlen1 & Hout1 & _).
      rewrite <- Hlen1.
      destruct (IH (a + blockSize) l1) as (l' & -> & Hperm' & Hw' & Hinv');
        [done|lia|lia|by rewrite Hperm1| |].
      { intros k x Hk. rewrite Hout1 by lia. apply Hun. lia. }
      pose proof Hw' as (Hlen' & Hout' & _).
      exists l'. split; [done|]. split; [by rewrite Hperm'|]. split.
      * rewrite Hlen1 in *. apply (within_trans _ l1).
        -- apply (within_mono _ _ a (a + blockSize)); [lia|lia|done].
        -- apply (within_mono _ _ (a + blockSize) (length l)); [lia|lia|done].
      * intros [|j] Hj.
        -- rewrite Nat.add_0_r in *. replace (Nat.min _ _) with (a + blockSize) by lia.
           apply (block_inv_ext l1); [|done]. intros k Hk. apply Hout'. lia.
        -- replace (a + S j * blockSize) with (a + blockSize + j * blockSize) in * by lia.
           by apply Hinv'.
    + apply Nat.leb_gt in Hb.
      destruct (insertionSort_spec l a (length l)) as (l' & -> & Hperm & Hw & Hinv);
        [lia|done|done|].
      exists l'. split; [done|]. split; [done|]. split; [done|].
      intros j Hj. assert (j = 0) as -> by nia.
      replace (Nat.min _ _) with (length l) by lia. by rewrite Nat.add_0_r.
Qed.

Definition run_ok l a b : Prop := sorted_range l a b /\ placed l a b.

Lemma run_ok_ext l l' a b :
  (forall k, a <= k < b -> l' !! k = l !! k) -> run_ok l a b -> run_ok l' a b.
Proof.
  intros Heq (Hs & Hp). split.
  - intros i j x y Hi Hij Hj'. rewrite !Heq by lia. by apply Hs.
  - intros k x Hk. rewrite Heq by lia. by apply Hp.
Qed.

(** Two neighbouring runs are merged by [symMerge]. *)
Lemma symMerge_runs l a m b :
  a < m < b -> b <= length l -> Forall dom l -> run_ok l a m -> run_ok l m b ->
  exists l', symMerge less (b - a) l a m b = Done l' /\ l' ≡ₚ l /\
    within l l' a b /\ run_ok l' a b.
Proof.
  intros Hamb Hb Hdom (Hs1 & Hp1) (Hs2 & Hp2).
  destruct (symMerge_sorted (b - a) l a m b m) as (l' & Hrun & Hperm & Hw & Hs);
    [done|done|lia|done| |].
  { split; [done|]. split; [done|]. split.
    - intros k x Hk Hx. destruct (Hp1 k x Hk Hx). lia.
    - intros k x Hk Hx. destruct (Hp2 k x Hk Hx). lia. }
  exists l'. split; [done|]. split; [done|]. split; [done|]. split; [done|].
  apply (within_placed l l' a b); [lia|lia|done|].
  intros k x Hk Hx. destruct (decide (k < m)).
  - destruct (Hp1 k x ltac:(lia) Hx). lia.
  - destruct (Hp2 k x ltac:(lia) Hx). lia.
Qed.

Lemma stable_pass_spec fuel blockSize : forall a l,
  0 < blockSize -> a <= length l -> length l - a <= fuel -> Forall dom l ->
  blocks_from run_ok blockSize a (length l) l ->
  exists l', stable_pass less fuel blockSize a (length l) l = Done l' /\ l' ≡ₚ l /\
    within l l' a (length l) /\ blocks_from run_ok (2 * blockSize) a (length l) l'.
Proof.
  induction fuel as [|fuel IH]; intros a l Hbs Ha Hfuel Hdom Hblocks;
    cbn [stable_pass]; destruct (a + 2 * blockSize <=? length l) eqn:Hb;
    try (apply Nat.leb_le in Hb); try (apply Nat.leb_gt in Hb); try lia.
  1,3: destruct (a + blockSize <? length l) eqn:Hm;
    [apply Nat.ltb_lt in Hm|apply Nat.ltb_ge in Hm].
  1,3: pose proof (Hblocks 0 ltac:(lia)) as H0; pose proof (Hblocks 1 ltac:(lia)) as H1;
    rewrite Nat.add_0_r in H0;
    replace (Nat.min (a + blockSize) (length l)) with (a + blockSize) in H0 by lia;
    replace (a + 1 * blockSize) with (a + blockSize) in H1 by lia;
    replace (Nat.min (a + blockSize + blockSize) (length l)) with (length l) in H1 by lia;
    destruct (symMerge_runs l a (a + blockSize) (length l))
      as (l' & -> & Hperm & Hw & Hrun); [lia|lia|done|done|done|];
    exists l'; (split; [done|]); (split; [done|]); (split; [done|]);
    intros j Hj; assert (j = 0) as -> by nia;
    replace (Nat.min _ _) with (length l) by lia; by rewrite Nat.add_0_r.
  1,2: exists l; (split; [done|]); (split; [done|]); (split; [apply within_refl|]);
    intros j Hj; assert (j = 0) as -> by nia;
    pose proof (Hblocks 0 ltac:(lia)) as H0; rewrite Nat.add_0_r in *;
    replace (Nat.min (a + 2 * blockSize) (length l)) with (length l) by lia;
    replace (Nat.min (a + blockSize) (length l)) with (length l) in H0 by lia; done.
  pose proof (Hblocks 0 ltac:(lia)) as H0. pose proof (Hblocks 1 ltac:(lia)) as H1.
  rewrite Nat.add_0_r in H0.
  replace (Nat.min (a + blockSize) (length l)) with (a + blockSize) in H0 by lia.
  replace (a + 1 * blockSize) with (a + blockSize) in H1 by lia.
  replace (Nat.min (a + blockSize + blockSize) (length l)) with (a + 2 * blockSize)
    in H1 by lia.
  replace (a + 2 * blockSize - a) with (a + 2 * blockSize - a) by lia.
  destruct (symMerge_runs l a (a + blockSize) (a + 2 * blockSize))
    as (l1 & -> & Hperm1 & Hw1 & Hrun1); [lia|lia|done|done|done|].
  rewrite bind_Done. pose proof Hw1 as (Hlen1 & Hout1 & _). rewrite <- Hlen1.
  destruct (IH (a + 2 * blockSize) l1) as (l' & -> & Hperm' & Hw' & Hblocks');
    [done|lia|lia|by rewrite Hperm1| |].
  { intros j Hj. rewrite Hlen1 in *.
    apply (run_ok_ext l); [intros k Hk; apply Hout1; lia|].
    replace (a + 2 * blockSize + j * blockSize) with (a + (2 + j) * blockSize) by lia.
    apply Hblocks. lia. }
  pose proof Hw' as (Hlen' & Hout' & _).
  exists l'. split; [done|]. split; [by rewrite Hperm'|]. split.
  - rewrite Hlen1 in *. apply (within_trans _ l1).
    + apply (within_mono _ _ a (a + 2 * blockSize)); [lia|lia|done].
    + apply (within_mono _ _ (a + 2 * blockSize) (length l)); [lia|lia|done].
  - intros [|j] Hj.
    + rewrite Nat.add_0_r in *.
      replace (Nat.min _ _) with (a + 2 * blockSize) by lia.
      apply (run_ok_ext l1); [|done]. intros k Hk. apply Hout'. lia.
    + replace (a + S j * (2 * blockSize))
        with (a + 2 * blockSize + j * (2 * blockSize)) in * by lia.
      by apply Hblocks'.
Qed.

Lemma stable_merges_spec fuel : forall blockSize l,
  0 < blockSize -> length l - blockSize <= fuel -> Forall dom l ->
  blocks_from run_ok blockSize 0 (length l) l ->
  exists l', stable_merges less fuel blockSize (length l) l = Done l' /\ l' ≡ₚ l /\
    run_ok l' 0 (length l).
Proof.
  induction fuel as [|fuel IH]; intros blockSize l Hbs Hfuel Hdom Hblocks;
    cbn [stable_merges]; destruct (Nat.ltb_spec blockSize (length l)) as [Hlt|Hlt];
    try lia.
  1,3: exists l; (split; [done|]); (split; [done|]);
    destruct (decide (0 < length l)) as [Hpos|Hnil];
    [ pose proof (Hblocks 0 ltac:(lia)) as H0; cbn in H0;
      replace (Nat.min blockSize (length l)) with (length l) in H0 by lia; done
    | split; [intros i j x y Hi Hij Hj; lia|intros k x Hk; lia] ].
  destruct (stable_pass_spec (length l) blockSize 0 l)
    as (l1 & -> & Hperm1 & Hw1 & Hblocks1); [done|lia|lia|done|done|].
  rewrite bind_Done. pose proof Hw1 as (Hlen1 & _). rewrite <- Hlen1.
  destruct (IH (2 * blockSize) l1) as (l' & -> & Hperm' & Hrun');
    [lia|lia|by rewrite Hperm1|by rewrite Hlen1|].
  exists l'. split; [done|]. split; [by rewrite Hperm'|done].
Qed.

Lemma blocks_from_weaken (P Q : list A -> nat -> nat -> Prop) blockSize a n l :
  (forall s e, P l s e -> Q l s e) ->
  blocks_from P blockSize a n l -> blocks_from Q blockSize a n l.
Proof. intros HPQ Hb j Hj. apply HPQ, Hb, Hj. Qed.

(** [sort.SliceStable] returns, with the entries rearranged so that they
    ascend in [rle]. *)
Theorem SliceStable_sorted l :
  Forall dom l -> untouched l 0 (length l) ->
  exists l', SliceStable less l = Done l' /\ l' ≡ₚ l /\ sorted_range l' 0 (length l).
Proof.
  intros Hdom Hun. unfold SliceStable, stable.
  destruct (stable_blocks_spec (length l) 20 0 l) as (l1 & -> & Hperm1 & Hw1 & Hblocks1);
    [lia|lia|lia|done|done|].
  rewrite bind_Done. pose proof Hw1 as (Hlen1 & _). rewrite <- Hlen1.
  destruct (stable_merges_spec (length l1) 20 l1) as (l' & -> & Hperm' & Hs & _);
    [lia|lia|by rewrite Hperm1| |].
  { rewrite Hlen1. apply (blocks_from_weaken block_inv); [|done].
    intros s e (? & ? & ?). by split. }
  exists l'. split; [done|]. split; [by rewrite Hperm'|done].
Qed.

Lemma stable_merges_small fuel blockSize n l :
  n <= blockSize -> stable_merges less fuel blockSize n l = Done l.
Proof.
  intros Hn. destruct fuel; cbn [stable_merges];
    (destruct (Nat.ltb_spec blockSize n); [lia|done]).
Qed.

(** Up to 20 entries the sort is one insertion sort, and an entry gets in
    front of an earlier one only by comparing less than it. *)
Theorem SliceStable_short l :
  length l <= 20 -> Forall dom l -> untouched l 0 (length l) ->
  exists l', SliceStable less l = Done l' /\ l' ≡ₚ l /\
    sorted_range l' 0 (length l) /\ justified l' 0 (length l).
Proof.
  intros Hshort Hdom Hun. unfold SliceStable, stable.
  destruct (stable_blocks_spec (length l) 20 0 l) as (l1 & -> & Hperm1 & Hw1 & Hblocks1);
    [lia|lia|lia|done|done|].
  rewrite bind_Done. pose proof Hw1 as (Hlen1 & _).
  assert (stable_merges less (length l) 20 (length l) l1 = Done l1) as ->.
  { by apply stable_merges_small. }
  exists l1. split; [done|]. split; [done|].
  destruct (decide (0 < length l)) as [Hpos|Hnil].
  - pose proof (Hblocks1 0 ltac:(lia)) as H0.
    replace (Nat.min (0 + 0 * 20 + 20) (length l)) with (length l) in H0 by lia.
    replace (0 + 0 * 20) with 0 in H0 by lia.
    destruct H0 as (? & ? & ?). done.
  - split; [intros i j x y Hi Hij Hj; lia|intros p q x y Hp Hpq Hq; lia].
Qed.

End Ordering.

(* ===================================================================== *)
(** ** The sort does not look at what the closure does not look at *)
(* ===================================================================== *)

Section Erasure.

Context {A B : Type} (f : A -> B).
Variable lessA : list A -> nat -> nat -> outcome bool.
Variable lessB : list B -> nat -> nat -> outcome bool.
Hypothesis Hnat : forall l i j, lessA l i j = lessB (f <$> l) i j.

Lemma omap_bind {X Y Z} (g : Y -> Z) (m : outcome X) (k : X -> outcome Y) :
  omap g (m ≫= k) = (m ≫= fun x => omap g (k x)).
Proof. by destruct m. Qed.

Lemma bind_omap {X Y Z} (g : X -> Y) (m : outcome X) (k : Y -> outcome Z) :
  (omap g m ≫= k) = (m ≫= fun x => k (g x)).
Proof. by destruct m. Qed.

Lemma erase_bind (m : outcome (list A)) (m' : outcome (list B))
    (k : list A -> outcome (list A)) (k' : list B -> outcome (list B)) :
  omap (fmap (M:=list) f) m = m' ->
  (forall l, omap (fmap (M:=list) f) (k l) = k' (fmap (M:=list) f l)) ->
  omap (fmap (M:=list) f) (m ≫= k) = (m' ≫= k').
Proof. intros <- Hk. destruct m; simpl; auto. Qed.

Lemma swap_fmap l i j : f <$> swap l i j = swap (f <$> l) i j.
Proof.
  unfold swap. rewrite !list_lookup_fmap.
  destruct (l !! i), (l !! j); simpl; rewrite ?list_fmap_insert; done.
Qed.

Lemma swapRange_fmap l a b n : f <$> swapRange l a b n = swapRange (f <$> l) a b n.
Proof.
  revert l a b. induction n as [|n IH]; intros; simpl; [done|].
  by rewrite IH, swap_fmap.
Qed.

Lemma shift_up_fmap count k l : f <$> shift_up count k l = shift_up count k (f <$> l).
Proof.
  revert k l. induction count as [|c IH]; intros; simpl; [done|].
  by rewrite IH, swap_fmap.
Qed.

Lemma shift_down_fmap count k l :
  f <$> shift_down count k l = shift_down count k (f <$> l).
Proof.
  revert k l. induction count as [|c IH]; intros; simpl; [done|].
  by rewrite IH, swap_fmap.
Qed.

Lemma insertionSort_inner_fmap a j l :
  omap (fmap f) (insertionSort_inner lessA a j l)
  = insertionSort_inner lessB a j (f <$> l).
Proof.
  revert l. induction j as [|j IH]; intros l; cbn [insertionSort_inner]; [done|].
  destruct (a <? S j); [|done]. rewrite <- Hnat.
  destruct (lessA l (S j) j) as [[|]| |]; try done.
  rewrite !bind_Done. by rewrite IH, swap_fmap.
Qed.

Lemma insertionSort_outer_fmap count a i l :
  omap (fmap f) (insertionSort_outer lessA count a i l)
  = insertionSort_outer lessB count a i (f <$> l).
Proof.
  revert i l. induction count as [|c IH]; intros i l; cbn [insertionSort_outer]; [done|].
  rewrite <- insertionSort_inner_fmap, omap_bind, bind_omap.
  destruct (insertionSort_inner lessA a i l); try done. rewrite !bind_Done. apply IH.
Qed.

Lemma insertionSort_fmap l a b :
  omap (fmap f) (insertionSort lessA l a b) = insertionSort lessB (f <$> l) a b.
Proof. apply insertionSort_outer_fmap. Qed.

Lemma rotate_loop_fmap fuel m i j l :
  omap (fmap f) (rotate_loop fuel m i j l) = rotate_loop fuel m i j (f <$> l).
Proof.
  revert i j l. induction fuel as [|fuel IH]; intros i j l; cbn [rotate_loop];
    destruct (i =? j); try done; try (cbn; by rewrite swapRange_fmap).
  destruct (j <? i); by rewrite IH, swapRange_fmap.
Qed.

Lemma search_ext fuel (P Q : nat -> outcome bool) i j :
  (forall h, P h = Q h) -> search fuel P i j = search fuel Q i j.
Proof.
  intros HPQ. revert i j. induction fuel as [|fuel IH]; intros i j; cbn [search];
    destruct (i <? j); try done.
  rewrite HPQ. destruct (Q ((i + j) / 2)) as [[|]| |]; try done; rewrite !bind_Done; apply IH.
Qed.

Lemma symMerge_fmap fuel : forall l a m b,
  omap (fmap (M:=list) f) (symMerge lessA fuel l a m b)
  = symMerge lessB fuel (fmap (M:=list) f l) a m b.
Proof.
  assert (forall (l : list A) a m b,
    omap (fmap (M:=list) f) (i ← search (b - m) (fun h => lessA l h a) m b;
                   Done (shift_up (i - 1 - a) a l))
    = (i ← search (b - m) (fun h => lessB (fmap (M:=list) f l) h a) m b;
       Done (shift_up (i - 1 - a) a (fmap (M:=list) f l)))) as Hleft.
  { intros l a m b.
    rewrite (search_ext _ _ (fun h => lessB (fmap (M:=list) f l) h a))
      by (intros; apply Hnat).
    destruct (search _ _ _ _); try done. rewrite !bind_Done. cbn.
    by rewrite shift_up_fmap. }
  assert (forall (l : list A) a m,
    omap (fmap (M:=list) f) (i ← search (m - a) (fun h => negb <$> lessA l m h) a m;
                   Done (shift_down (m - i) m l))
    = (i ← search (m - a) (fun h => negb <$> lessB (fmap (M:=list) f l) m h) a m;
       Done (shift_down (m - i) m (fmap (M:=list) f l)))) as Hright.
  { intros l a m.
    rewrite (search_ext _ (fun h => negb <$> lessA l m h)
               (fun h => negb <$> lessB (fmap (M:=list) f l) m h)) by (intros; by rewrite Hnat).
    destruct (search _ _ _ _); try done. rewrite !bind_Done. cbn.
    by rewrite shift_down_fmap. }
  induction fuel as [|fuel IH]; intros l a m b; cbn [symMerge];
    destruct (m - a =? 1); auto; destruct (b - m =? 1); auto.
  destruct (if (a + b) / 2 <? m then _ else _) as [start0 r0].
  rewrite (search_ext _ (fun c => negb <$> lessA l ((a + b) / 2 + m - 1 - c) c)
             (fun c => negb <$> lessB (fmap (M:=list) f l) ((a + b) / 2 + m - 1 - c) c))
    by (intros; by rewrite Hnat).
  destruct (search _ _ _ _) as [start| |]; try done. rewrite !bind_Done.
  apply erase_bind.
  { destruct (_ && _); [apply rotate_loop_fmap|done]. }
  intros l1. apply erase_bind.
  { destruct (_ && _); [apply IH|done]. }
  intros l2. destruct (_ && _); [apply IH|done].
Qed.

Lemma stable_blocks_fmap fuel blockSize : forall a n l,
  omap (fmap f) (stable_blocks lessA fuel blockSize a n l)
  = stable_blocks lessB fuel blockSize a n (f <$> l).
Proof.
  induction fuel as [|fuel IH]; intros a n l; cbn [stable_blocks];
    destruct (a + blockSize <=? n); try done; try apply insertionSort_fmap.
  apply erase_bind; [apply insertionSort_fmap|]. intros l1. apply IH.
Qed.

Lemma stable_pass_fmap fuel blockSize : forall a n l,
  omap (fmap f) (stable_pass lessA fuel blockSize a n l)
  = stable_pass lessB fuel blockSize a n (f <$> l).
Proof.
  induction fuel as [|fuel IH]; intros a n l; cbn [stable_pass];
    destruct (a + 2 * blockSize <=? n); try done;
    try (destruct (a + blockSize <? n); [apply symMerge_fmap|done]).
  apply erase_bind; [apply symMerge_fmap|]. intros l1. apply IH.
Qed.

Lemma stable_merges_fmap fuel : forall blockSize n l,
  omap (fmap f) (stable_merges lessA fuel blockSize n l)
  = stable_merges lessB fuel blockSize n (f <$> l).
Proof.
  induction fuel as [|fuel IH]; intros blockSize n l; cbn [stable_merges];
    destruct (blockSize <? n); try done.
  apply erase_bind; [apply stable_pass_fmap|]. intros l1. apply IH.
Qed.

(** Sorting and then forgetting what the closure ignores is sorting what
    is left. *)
Theorem SliceStable_fmap l :
  omap (fmap f) (SliceStable lessA l) = SliceStable lessB (f <$> l).
Proof.
  unfold SliceStable, stable. rewrite length_fmap.
  apply erase_bind; [apply stable_blocks_fmap|]. intros l1. apply stable_merges_fmap.
Qed.

End Erasure.

(* ===================================================================== *)
(** ** Sorting with the input positions kept on the entries *)
(* ===================================================================== *)

Section Traced.

Context {A : Type}.

(** The closure of a [sort.SliceStable] call, as a function of the two
    indices and of the entries found there. *)
Variable cmp : nat -> nat -> A -> A -> outcome bool.

Definition tagged (l : list A) : list (nat * A) := imap pair l.

(** The same sort, run on entries that carry their input position. *)
Definition traced (l : list A) : outcome (list (nat * A)) :=
  SliceStable (at_indices (fun i j x y => cmp i j x.2 y.2)) (tagged l).

Lemma tagged_lookup (l : list A) k : tagged l !! k = pair k <$> l !! k.
Proof. apply list_lookup_imap. Qed.

Lemma tagged_length (l : list A) : length (tagged l) = length l.
Proof. apply length_imap. Qed.

Lemma tagged_snd (l : list A) : (tagged l).*2 = l.
Proof.
  apply list_eq. intros k. rewrite list_lookup_fmap, tagged_lookup.
  by destruct (l !! k).
Qed.

Lemma tagged_fst (l : list A) : (tagged l).*1 = seq 0 (length l).
Proof.
  apply list_eq. intros k. rewrite list_lookup_fmap, tagged_lookup.
  destruct (l !! k) as [x|] eqn:Hk; simpl.
  - symmetry. apply lookup_seq. split; [done|]. by apply lookup_lt_Some in Hk.
  - symmetry. apply lookup_seq_ge. by apply lookup_ge_None in Hk.
Qed.

Lemma elem_of_tagged (l : list A) i x : (i, x) ∈ tagged l <-> l !! i = Some x.
Proof.
  rewrite list_elem_of_lookup. split.
  - intros [k Hk]. rewrite tagged_lookup in Hk.
    destruct (l !! k) eqn:E; simpl in Hk; by simplify_eq.
  - intros Hi. exists i. by rewrite tagged_lookup, Hi.
Qed.

(** What ends up where: [out] lists every input entry once, with its
    position. *)
Definition arranges (l : list A) (out : list (nat * A)) : Prop := out ≡ₚ tagged l.

Lemma arranges_lookup l out p i x :
  arranges l out -> out !! p = Some (i, x) -> l !! i = Some x.
Proof.
  intros Hperm Hp. apply elem_of_tagged. rewrite <- Hperm.
  by apply list_elem_of_lookup_2 in Hp.
Qed.

Lemma arranges_inj l out p q x y :
  arranges l out -> out !! p = Some x -> out !! q = Some y -> x.1 = y.1 -> p = q.
Proof.
  intros Hperm Hp Hq Heq.
  assert (NoDup (out.*1)) as Hnd.
  { rewrite Hperm, tagged_fst. apply NoDup_seq. }
  apply (NoDup_lookup _ p q (x.1) Hnd); rewrite list_lookup_fmap.
  - by rewrite Hp.
  - by rewrite Hq, Heq.
Qed.

Lemma arranges_snd l out : arranges l out -> out.*2 ≡ₚ l.
Proof. intros Hperm. unfold arranges in Hperm. by rewrite Hperm, tagged_snd. Qed.

Lemma traced_erase l : omap (fmap snd) (traced l) = SliceStable (at_indices cmp) l.
Proof.
  unfold traced. rewrite <- (tagged_snd l) at 2.
  apply SliceStable_fmap. intros data i j. unfold at_indices.
  rewrite !list_lookup_fmap. by destruct (data !! i), (data !! j).
Qed.

(** Every call the sort makes has the higher index first; [hi] is the
    closure on such calls. *)
Variable hi : A -> A -> outcome bool.
Hypothesis Hhi : forall i j x y, j < i -> cmp i j x y = hi x y.

Lemma traced_less (data : list (nat * A)) i j x y :
  j < i -> data !! i = Some x -> data !! j = Some y ->
  at_indices (fun i j x y => cmp i j x.2 y.2) data i j = hi x.2 y.2.
Proof. intros Hij Hx Hy. unfold at_indices. rewrite Hx, Hy. by apply Hhi. Qed.

Lemma tagged_untouched l : untouched fst (tagged l) 0 (length (tagged l)).
Proof.
  intros k x Hk Hx. rewrite tagged_lookup in Hx.
  destruct (l !! k); simpl in Hx; by simplify_eq.
Qed.

Lemma tagged_dom l : Forall (fun x => x ∈ tagged l) (tagged l).
Proof. by apply Forall_forall. Qed.

(** The sort returns, and its result ascends in any preorder that the
    closure refines on later-against-earlier calls. *)
Theorem traced_sorted (rle : nat * A -> nat * A -> Prop) l :
  (forall x, rle x x) -> (forall x y z, rle x y -> rle y z -> rle x z) ->
  (forall x y, x ∈ tagged l -> y ∈ tagged l -> y.1 < x.1 ->
     exists c : bool, hi x.2 y.2 = Done c /\ if c then rle x y else rle y x) ->
  exists out, traced l = Done out /\ SliceStable (at_indices cmp) l = Done out.*2 /\
    arranges l out /\
    forall p q x y, p <= q -> out !! p = Some x -> out !! q = Some y -> rle x y.
Proof.
  intros Hrefl Htrans Hcmp.
  destruct (SliceStable_sorted (at_indices (fun i j x y => cmp i j x.2 y.2))
              (fun x y => hi x.2 y.2) traced_less fst rle Hrefl Htrans
              (fun x => x ∈ tagged l) Hcmp (tagged l) (tagged_dom l) (tagged_untouched l))
    as (out & Hrun & Hperm & Hsorted).
  exists out. split; [done|]. split.
  { rewrite <- traced_erase. unfold traced. by rewrite Hrun. }
  split; [done|]. intros p q x y Hpq Hx Hy.
  apply (Hsorted p q); try done; [lia|].
  apply lookup_lt_Some in Hy. by rewrite <- (Permutation_length Hperm).
Qed.

(** Up to 20 entries, an entry gets in front of an earlier one only by
    comparing less than it. *)
Theorem traced_short l :
  length l <= 20 ->
  (forall x y, x ∈ tagged l -> y ∈ tagged l -> y.1 < x.1 -> returns (hi x.2 y.2)) ->
  exists out, traced l = Done out /\ SliceStable (at_indices cmp) l = Done out.*2 /\
    arranges l out /\
    forall p q x y, p < q -> out !! p = Some x -> out !! q = Some y ->
      y.1 < x.1 -> hi x.2 y.2 = Done true.
Proof.
  intros Hshort Hret.
  destruct (SliceStable_short (at_indices (fun i j x y => cmp i j x.2 y.2))
              (fun x y => hi x.2 y.2) traced_less fst (fun _ _ => True)
              (fun _ => I) (fun _ _ _ _ _ => I) (fun x => x ∈ tagged l))
    with (l := tagged l) as (out & Hrun & Hperm & _ & Hjust).
  { intros x y Hx Hy Hpos. destruct (Hret x y Hx Hy Hpos) as [c Hc].
    exists c. split; [done|]. by destruct c. }
  { by rewrite tagged_length. }
  { apply tagged_dom. }
  { apply tagged_untouched. }
  exists out. split; [done|]. split.
  { rewrite <- traced_erase. unfold traced. by rewrite Hrun. }
  split; [done|]. intros p q x y Hpq Hx Hy Hpos.
  apply (Hjust p q); try done; [lia|].
  apply lookup_lt_Some in Hy. by rewrite <- (Permutation_length Hperm).
Qed.

End Traced.

(* ===================================================================== *)
(** ** Slices that [sort.SliceStable] leaves as they are *)
(* ===================================================================== *)

Section Settled.

Context {A : Type}.
Implicit Types (l data : list A) (i j k a b m n : nat).

Variable less : list A -> nat -> nat -> outcome bool.
Variable lt : A -> A -> outcome bool.
Hypothesis Hless : forall data i j x y,
  j < i -> data !! i = Some x -> data !! j = Some y -> less data i j = lt x y.

(** No entry of [l[a:b]] compares less than the entry in front of it. *)
Definition settled l a b : Prop :=
  forall k x y, a <= k -> S k < b -> l !! k = Some y -> l !! S k = Some x ->
    lt x y = Done false.

(** No entry of [l] compares less than any entry in front of it. *)
Definition ascending l : Prop :=
  forall i j x y, j < i -> l !! i = Some x -> l !! j = Some y -> lt x y = Done false.

Lemma ascending_settled l a b : ascending l -> settled l a b.
Proof. intros H k x y _ _ Hy Hx. apply (H (S k) k); [lia|done|done]. Qed.

Lemma insertionSort_inner_settled a j l :
  j < length l -> settled l a (S j) -> insertionSort_inner less a j l = Done l.
Proof.
  intros Hj Hs. destruct j as [|j]; [done|]. cbn [insertionSort_inner].
  destruct (Nat.ltb_spec a (S j)); [|done].
  destruct (lookup_lt_is_Some_2 l (S j) Hj) as [x Hx].
  destruct (lookup_lt_is_Some_2 l j ltac:(lia)) as [y Hy].
  rewrite (Hless l (S j) j x y) by (done || lia).
  rewrite (Hs j x y); [done|lia|lia|done|done].
Qed.

Lemma insertionSort_outer_settled count a i l :
  i + count <= length l -> settled l a (i + count) ->
  insertionSort_outer less count a i l = Done l.
Proof.
  revert i. induction count as [|count IH]; intros i Hlen Hs; [done|].
  cbn [insertionSort_outer]. rewrite insertionSort_inner_settled.
  - rewrite bind_Done. apply IH; [lia|].
    by replace (S i + count) with (i + S count) by lia.
  - lia.
  - intros k x y Hk Hk'. apply Hs; lia.
Qed.

Lemma insertionSort_settled l a b :
  b <= length l -> settled l a b -> insertionSort less l a b = Done l.
Proof.
  intros Hb Hs. unfold insertionSort. destruct (decide (a + 1 <= b)).
  - apply insertionSort_outer_settled; [lia|].
    by replace (a + 1 + (b - (a + 1))) with b by lia.
  - by replace (b - (a + 1)) with 0 by lia.
Qed.

Lemma stable_blocks_last fuel blockSize a n l :
  n < a + blockSize -> stable_blocks less fuel blockSize a n l = insertionSort less l a n.
Proof.
  intros Hn. destruct fuel; cbn [stable_blocks];
    (destruct (Nat.leb_spec (a + blockSize) n); [lia|done]).
Qed.

Lemma bind_ret_outcome {B} (m : outcome B) : (x ← m; Done x) = m.
Proof. by destruct m. Qed.

(** Up to 20 entries [sort.SliceStable] is one insertion sort. *)
Lemma SliceStable_small l :
  length l <= 20 -> SliceStable less l = insertionSort less l 0 (length l).
Proof.
  intros Hn. unfold SliceStable, stable.
  rewrite <- (bind_ret_outcome (insertionSort less l 0 (length l))).
  destruct (decide (length l = 20)) as [E|E].
  - rewrite E. cbn [stable_blocks]. simpl Nat.leb. cbv iota.
    destruct (insertionSort less l 0 (0 + 20)) as [d| |] eqn:Hd; simpl in Hd; rewrite Hd;
      done.
  - rewrite stable_blocks_last by lia.
    destruct (insertionSort less l 0 (length l)) as [d| |]; try done.
    rewrite !bind_Done. by apply stable_merges_small.
Qed.

(** *** A slice in ascending order is left as it is *)

Lemma less_ascending l i j :
  ascending l -> j < i < length l -> less l i j = Done false.
Proof.
  intros Hasc Hij.
  destruct (lookup_lt_is_Some_2 l i ltac:(lia)) as [x Hx].
  destruct (lookup_lt_is_Some_2 l j ltac:(lia)) as [y Hy].
  rewrite (Hless l i j x y) by (done || lia). apply (Hasc i j); [lia|done|done].
Qed.

Lemma search_all_false fuel (go_right : nat -> outcome bool) i j :
  i <= j -> j - i <= fuel -> (forall h, i <= h < j -> go_right h = Done false) ->
  search fuel go_right i j = Done i.
Proof.
  intros Hij Hfuel Hgo.
  destruct (search_spec fuel go_right i j Hij Hfuel) as (r & -> & Hr & Hlo & _).
  { intros h Hh. rewrite Hgo by done. by eexists. }
  destruct Hlo as [->|Hlo]; [done|].
  destruct (decide (r = i)) as [->|]; [done|]. rewrite Hgo in Hlo by lia. done.
Qed.

Lemma search_all_true fuel (go_right : nat -> outcome bool) i j :
  i <= j -> j - i <= fuel -> (forall h, i <= h < j -> go_right h = Done true) ->
  search fuel go_right i j = Done j.
Proof.
  intros Hij Hfuel Hgo.
  destruct (search_spec fuel go_right i j Hij Hfuel) as (r & -> & Hr & _ & Hhi).
  { intros h Hh. rewrite Hgo by done. by eexists. }
  destruct Hhi as [->|Hhi]; [done|].
  destruct (decide (r = j)) as [->|]; [done|]. rewrite Hgo in Hhi by lia. done.
Qed.

Lemma symMerge_ascending fuel : forall l a m b,
  a < m < b -> b <= length l -> b - a <= fuel -> ascending l ->
  symMerge less fuel l a m b = Done l.
Proof.
  induction fuel as [|fuel IH]; intros l a m b Hamb Hb Hfuel Hasc; [lia|].
  destruct (decide (m - a = 1)) as [H1|H1].
  { rewrite symMerge_one_left by done.
    rewrite search_all_false; [|lia|lia|].
    - rewrite bind_Done. by replace (m - 1 - a) with 0 by lia.
    - intros h Hh. apply less_ascending; [done|lia]. }
  destruct (decide (b - m = 1)) as [H2|H2].
  { rewrite symMerge_one_right by done.
    rewrite search_all_true; [|lia|lia|].
    - rewrite bind_Done. by replace (m - m) with 0 by lia.
    - intros h Hh. rewrite less_ascending; [done|done|lia]. }
  destruct (if (a + b) / 2 <? m then ((a + b) / 2 + m - b, (a + b) / 2) else (a, m))
    as [start0 r0] eqn:Hsr.
  rewrite (symMerge_general less fuel l a m b start0 r0 H1 H2 Hsr).
  pose proof (symMerge_bounds a m b start0 r0 Hamb Hsr) as Hbounds.
  set (mid := (a + b) / 2) in *. cbv zeta in Hbounds.
  destruct Hbounds as (Hmid & Hstart & Hrm & Hrmid & Hend & _ & Hr0).
  rewrite search_all_true; [|lia|lia|].
  2:{ intros c Hc. rewrite less_ascending; [done|done|lia]. }
  rewrite bind_Done. destruct Hr0 as [->|[-> Hlt]].
  - replace (mid + m - m) with mid by lia. rewrite !Nat.ltb_irrefl.
    rewrite !andb_false_l. cbv iota. rewrite bind_Done.
    destruct ((a <? m) && (m <? mid)) eqn:Hc.
    + apply andb_true_iff in Hc as [_ Hc%Nat.ltb_lt].
      rewrite IH; [done|lia|lia|lia|done].
    + done.
  - replace (mid + m - mid) with m by lia. rewrite !Nat.ltb_irrefl.
    rewrite !andb_false_r. cbv iota. rewrite !bind_Done.
    destruct (Nat.ltb_spec mid m); [|lia]. destruct (Nat.ltb_spec m b); [|lia].
    rewrite andb_true_l. apply IH; [lia|lia|lia|done].
Qed.

Lemma stable_blocks_ascending fuel blockSize : forall a l,
  0 < blockSize -> length l - a <= fuel -> ascending l ->
  stable_blocks less fuel blockSize a (length l) l = Done l.
Proof.
  induction fuel as [|fuel IH]; intros a l Hbs Hfuel Hasc; cbn [stable_blocks];
    destruct (Nat.leb_spec (a + blockSize) (length l)); try lia;
    try (apply insertionSort_settled; [lia|by apply ascending_settled]).
  rewrite insertionSort_settled; [|lia|by apply ascending_settled].
  rewrite bind_Done. apply IH; [done|lia|done].
Qed.

Lemma stable_pass_ascending fuel blockSize : forall a l,
  0 < blockSize -> length l - a <= fuel -> ascending l ->
  stable_pass less fuel blockSize a (length l) l = Done l.
Proof.
  induction fuel as [|fuel IH]; intros a l Hbs Hfuel Hasc; cbn [stable_pass];
    destruct (Nat.leb_spec (a + 2 * blockSize) (length l)); try lia;
    try (destruct (Nat.ltb_spec (a + blockSize) (length l)); [|done];
         apply symMerge_ascending; [lia|lia|lia|done]).
  rewrite symMerge_ascending; [|lia|lia|lia|done].
  rewrite bind_Done. apply IH; [done|lia|done].
Qed.

Lemma stable_merges_ascending fuel : forall blockSize l,
  0 < blockSize -> length l - blockSize <= fuel -> ascending l ->
  stable_merges less fuel blockSize (length l) l = Done l.
Proof.
  induction fuel as [|fuel IH]; intros blockSize l Hbs Hfuel Hasc; cbn [stable_merges];
    destruct (Nat.ltb_spec blockSize (length l)); try lia; try done.
  rewrite stable_pass_ascending; [|done|lia|done].
  rewrite bind_Done. apply IH; [lia|lia|done].
Qed.

(** [sort.SliceStable] leaves a slice as it is when no entry compares
    less than an entry in front of it. *)
Theorem SliceStable_ascending l : ascending l -> SliceStable less l = Done l.
Proof.
  intros Hasc. unfold SliceStable, stable.
  rewrite stable_blocks_ascending; [|lia|lia|done].
  rewrite bind_Done. apply stable_merges_ascending; [lia|lia|done].
Qed.

(** *** An insertion sort settles the block it runs on *)

Variable dom : A -> Prop.
Hypothesis Hret : forall x y, dom x -> dom y -> returns (lt x y).
Hypothesis Hasym : forall x y, dom x -> dom y -> lt x y = Done true -> lt y x = Done false.

Lemma insert_settles a i l :
  a <= i < length l -> Forall dom l -> settled l a i ->
  exists l', insertionSort_inner less a i l = Done l' /\ l' ≡ₚ l /\ settled l' a (S i).
Proof.
  intros Hi Hdom Hs.
  destruct (lookup_lt_is_Some_2 l i ltac:(lia)) as [x Hx].
  assert (forall k y, l !! k = Some y -> dom y) as Hd
    by (intros k y Hy; exact (Forall_lookup_1 _ _ _ _ Hdom Hy)).
  destruct (insertionSort_inner_spec less lt Hless a i l x)
    as (j' & l' & Hrun & Hj' & Hlen & Hperm & Hl' & Hlt & Hstop); [lia|done| |].
  { intros k y Hk Hy. apply Hret; eauto. }
  exists l'. split; [done|]. split; [done|].
  intros k u v Hk Hk'. rewrite !Hl'.
  destruct (decide (k = j')) as [->|Nk].
  - intros [= <-]. destruct (decide (S j' = j')); [lia|].
    destruct (decide (j' < S j' <= i)); [|lia].
    replace (S j' - 1) with j' by lia. intros Hu.
    apply Hasym; eauto. apply (Hlt j'); [lia|done].
  - destruct (decide (S k = j')) as [Ej|Nj].
    + destruct (decide (j' < k <= i)); [lia|]. intros Hv [= <-].
      destruct Hstop as [E|(y & Hy & Hylt)]; [lia|].
      replace (j' - 1) with k in Hy by lia. by simplify_eq.
    + destruct (decide (j' < k <= i)); destruct (decide (j' < S k <= i)); try lia;
        intros Hv Hu.
      * replace (S k - 1) with (S (k - 1)) in Hu by lia.
        apply (Hs (k - 1)); try done; lia.
      * apply (Hs k); try done; lia.
Qed.

Lemma insertionSort_outer_settles count a i l :
  a <= i -> i + count <= length l -> Forall dom l -> settled l a i ->
  exists l', insertionSort_outer less count a i l = Done l' /\ l' ≡ₚ l /\
    settled l' a (i + count).
Proof.
  revert i l. induction count as [|count IH]; intros i l Hai Hlen Hdom Hs.
  { exists l. by rewrite Nat.add_0_r. }
  cbn [insertionSort_outer].
  destruct (insert_settles a i l) as (l1 & -> & Hperm1 & Hs1); [lia|done|done|].
  rewrite bind_Done.
  destruct (IH (S i) l1) as (l' & -> & Hperm' & Hs'); [lia| |by rewrite Hperm1|done|].
  { rewrite (Permutation_length Hperm1). lia. }
  exists l'. replace (i + S count) with (S i + count) by lia.
  split; [done|]. split; [by rewrite Hperm'|done].
Qed.

Lemma insertionSort_settles l a b :
  a <= b <= length l -> Forall dom l ->
  exists l', insertionSort less l a b = Done l' /\ l' ≡ₚ l /\ settled l' a b.
Proof.
  intros Hab Hdom. unfold insertionSort.
  destruct (decide (b <= a + 1)) as [Hsmall|Hbig].
  - replace (b - (a + 1)) with 0 by lia. exists l. split; [done|]. split; [done|].
    intros k x y Hk Hk'. lia.
  - destruct (insertionSort_outer_settles (b - (a + 1)) a (a + 1) l)
      as (l' & Hrun & Hperm & Hs); [lia|lia|done| |].
    { intros k x y Hk Hk'. lia. }
    replace (a + 1 + (b - (a + 1))) with b in Hs by lia. eauto.
Qed.

(** Sorting up to 20 entries a second time changes nothing. *)
Theorem SliceStable_twice l :
  length l <= 20 -> Forall dom l ->
  exists l', SliceStable less l = Done l' /\ l' ≡ₚ l /\ SliceStable less l' = Done l'.
Proof.
  intros Hn Hdom. rewrite SliceStable_small by done.
  destruct (insertionSort_settles l 0 (length l)) as (l' & Hrun & Hperm & Hs);
    [lia|done|].
  exists l'. split; [done|]. split; [done|].
  rewrite SliceStable_small by (by rewrite (Permutation_length Hperm)).
  apply insertionSort_settled; [done|]. by rewrite (Permutation_length Hperm).
Qed.

End Settled.

(* ===================================================================== *)
(** ** [sort.SliceStable] with a closure that may panic *)
(* ===================================================================== *)

Section Guarded.

Context {A : Type}.
Implicit Types (l data : list A) (i j k a b m n : nat).

Variable less : list A -> nat -> nat -> outcome bool.
Variable lt : A -> A -> outcome bool.
Hypothesis Hless : forall data i j x y,
  j < i -> data !! i = Some x -> data !! j = Some y -> less data i j = lt x y.
Hypothesis Hfuel : forall x y, lt x y <> OutOfFuel.

(** The run ends: with a rearrangement of [l], or with the panic of a
    call of the closure on two entries of [l]. *)
Definition guarded l (r : outcome (list A)) : Prop :=
  match r with
  | Done l' => l' ≡ₚ l
  | Panic p => exists x y, x ∈ l /\ y ∈ l /\ lt x y = Panic p
  | OutOfFuel => False
  end.

Lemma guarded_perm l l' (r : outcome (list A)) : l' ≡ₚ l -> guarded l' r -> guarded l r.
Proof.
  intros Hperm. destruct r as [d|p|]; simpl; [|intros (x & y & Hx & Hy & H)|done].
  - intros ->. done.
  - exists x, y. by rewrite <- Hperm.
Qed.

Lemma guarded_bind l (r : outcome (list A)) (k : list A -> outcome (list A)) :
  guarded l r -> (forall l', r = Done l' -> l' ≡ₚ l -> guarded l' (k l')) ->
  guarded l (r ≫= k).
Proof.
  destruct r as [d|p|]; simpl; [|done|done].
  intros Hperm Hk. apply (guarded_perm l d); [done|]. by apply Hk.
Qed.

Lemma guarded_Done l : guarded l (Done l).
Proof. simpl. reflexivity. Qed.

(** A call of the closure inside the slice. *)
Lemma less_guarded l i j :
  j < i < length l ->
  match less l i j with
  | Done _ => True
  | Panic p => exists x y, x ∈ l /\ y ∈ l /\ lt x y = Panic p
  | OutOfFuel => False
  end.
Proof.
  intros Hij.
  destruct (lookup_lt_is_Some_2 l i ltac:(lia)) as [x Hx].
  destruct (lookup_lt_is_Some_2 l j ltac:(lia)) as [y Hy].
  rewrite (Hless l i j x y) by (done || lia).
  destruct (lt x y) as [c|p|] eqn:E; [done| |by apply Hfuel in E].
  exists x, y. eauto using list_elem_of_lookup_2.
Qed.

Lemma insertionSort_inner_guarded a j l :
  j < length l -> guarded l (insertionSort_inner less a j l).
Proof.
  revert l. induction j as [|j IH]; intros l Hj; [apply guarded_Done|].
  cbn [insertionSort_inner]. destruct (Nat.ltb_spec a (S j)); [|apply guarded_Done].
  pose proof (less_guarded l (S j) j ltac:(lia)) as Hl.
  destruct (less l (S j) j) as [[|]|p|]; try done; [|apply guarded_Done].
  rewrite bind_Done. apply (guarded_perm l (swap l (S j) j)); [apply swap_perm|].
  apply IH. rewrite swap_length. lia.
Qed.

Lemma insertionSort_outer_guarded count a i l :
  i + count <= length l -> guarded l (insertionSort_outer less count a i l).
Proof.
  revert i l. induction count as [|count IH]; intros i l Hlen; [apply guarded_Done|].
  cbn [insertionSort_outer]. apply guarded_bind.
  - apply insertionSort_inner_guarded. lia.
  - intros l' _ Hperm. apply IH. rewrite (Permutation_length Hperm). lia.
Qed.

Lemma insertionSort_guarded l a b :
  b <= length l -> guarded l (insertionSort less l a b).
Proof.
  intros Hb. unfold insertionSort. destruct (decide (a + 1 <= b)).
  - apply insertionSort_outer_guarded. lia.
  - replace (b - (a + 1)) with 0 by lia. apply guarded_Done.
Qed.

(** A binary search with probes that may panic. *)
Lemma search_guarded fuel (go_right : nat -> outcome bool) i j :
  i <= j -> j - i <= fuel ->
  (forall h, i <= h < j -> go_right h <> OutOfFuel) ->
  match search fuel go_right i j with
  | Done r => i <= r <= j
  | Panic p => exists h, i <= h < j /\ go_right h = Panic p
  | OutOfFuel => False
  end.
Proof.
  revert i j. induction fuel as [|fuel IH]; intros i j Hij Hf Hgo.
  { assert (i = j) as -> by lia. simpl. rewrite Nat.ltb_irrefl. lia. }
  cbn [search]. destruct (Nat.ltb_spec i j) as [Hlt|Hge]; [|lia].
  pose proof (half_between i j Hlt) as Hh.
  destruct (go_right ((i + j) / 2)) as [[|]|p|] eqn:E.
  - rewrite bind_Done. specialize (IH ((i + j) / 2 + 1) j).
    destruct (search fuel go_right ((i + j) / 2 + 1) j) as [r|p|].
    + lapply IH; [|lia]. intros IH'. lapply IH'; [|lia]. intros IH''.
      lapply IH''; [lia|]. intros h Hh'. apply Hgo. lia.
    + destruct IH as (h & Hh' & Hp); [lia|lia|intros h Hh'; apply Hgo; lia|].
      exists h. split; [lia|done].
    + apply IH; [lia|lia|intros h Hh'; apply Hgo; lia].
  - rewrite bind_Done. specialize (IH i ((i + j) / 2)).
    destruct (search fuel go_right i ((i + j) / 2)) as [r|p|].
    + lapply IH; [|lia]. intros IH'. lapply IH'; [|lia]. intros IH''.
      lapply IH''; [lia|]. intros h Hh'. apply Hgo. lia.
    + destruct IH as (h & Hh' & Hp); [lia|lia|intros h Hh'; apply Hgo; lia|].
      exists h. split; [lia|done].
    + apply IH; [lia|lia|intros h Hh'; apply Hgo; lia].
  - simpl. exists ((i + j) / 2). done.
  - by apply Hgo in E.
Qed.

(** A binary search of [symMerge]: its probes are calls of the closure
    inside the slice. *)
Lemma probe_guarded l (go_right : nat -> outcome bool) fuel i j :
  i <= j -> j - i <= fuel ->
  (forall h, i <= h < j -> exists hi lo (f : bool -> bool),
     lo < hi < length l /\ go_right h = f <$> less l hi lo) ->
  match search fuel go_right i j with
  | Done r => i <= r <= j
  | Panic p => exists x y, x ∈ l /\ y ∈ l /\ lt x y = Panic p
  | OutOfFuel => False
  end.
Proof.
  intros Hij Hf Hin.
  assert (forall h, i <= h < j -> go_right h <> OutOfFuel) as Hgo.
  { intros h Hh. destruct (Hin h Hh) as (hi & lo & f & Hr & ->).
    pose proof (less_guarded l hi lo Hr) as Hl. by destruct (less l hi lo). }
  pose proof (search_guarded fuel go_right i j Hij Hf Hgo) as Hs.
  destruct (search fuel go_right i j) as [r|p|]; [done| |done].
  destruct Hs as (h & Hh & Hp). destruct (Hin h Hh) as (hi & lo & f & Hr & E).
  rewrite E in Hp. pose proof (less_guarded l hi lo Hr) as Hl.
  destruct (less l hi lo) as [c|p'|]; try done. simpl in Hp. by injection Hp as <-.
Qed.

Lemma fmap_id_outcome (r : outcome bool) : (fun c : bool => c) <$> r = r.
Proof. by destruct r. Qed.

Lemma symMerge_guarded fuel : forall l a m b,
  a < m < b -> b <= length l -> b - a <= fuel ->
  guarded l (symMerge less fuel l a m b).
Proof.
  induction fuel as [|fuel IH]; intros l a m b Hamb Hb Hf; [lia|].
  destruct (decide (m - a = 1)) as [H1|H1].
  { rewrite symMerge_one_left by done.
    pose proof (probe_guarded l (fun h => less l h a) (b - m) m b) as Hs.
    destruct (search (b - m) (fun h => less l h a) m b) as [r|p|].
    - rewrite bind_Done. simpl. apply shift_up_perm.
    - apply Hs; [lia|lia|]. intros h Hh. exists h, a, (fun c => c).
      split; [lia|]. by rewrite fmap_id_outcome.
    - apply Hs; [lia|lia|]. intros h Hh. exists h, a, (fun c => c).
      split; [lia|]. by rewrite fmap_id_outcome. }
  destruct (decide (b - m = 1)) as [H2|H2].
  { rewrite symMerge_one_right by done.
    pose proof (probe_guarded l (fun h => negb <$> less l m h) (m - a) a m) as Hs.
    destruct (search (m - a) (fun h => negb <$> less l m h) a m) as [r|p|].
    - rewrite bind_Done. simpl. apply shift_down_perm.
    - apply Hs; [lia|lia|]. intros h Hh. exists m, h, negb. split; [lia|done].
    - apply Hs; [lia|lia|]. intros h Hh. exists m, h, negb. split; [lia|done]. }
  destruct (if (a + b) / 2 <? m then ((a + b) / 2 + m - b, (a + b) / 2) else (a, m))
    as [start0 r0] eqn:Hsr.
  rewrite (symMerge_general less fuel l a m b start0 r0 H1 H2 Hsr).
  pose proof (symMerge_bounds a m b start0 r0 Hamb Hsr) as Hbounds.
  set (mid := (a + b) / 2) in *. cbv zeta in Hbounds.
  destruct Hbounds as (Hmid & Hstart & Hrm & Hrmid & Hend & _ & _).
  pose proof (probe_guarded l (fun c => negb <$> less l (mid + m - 1 - c) c)
                (r0 - start0) start0 r0) as Hs.
  destruct (search (r0 - start0) (fun c => negb <$> less l (mid + m - 1 - c) c) start0 r0)
    as [start|p|].
  2,3: apply Hs; [lia|lia|]; intros c Hc; exists (mid + m - 1 - c), c, negb;
       (split; [lia|done]).
  assert (start0 <= start <= r0) as Hst.
  { apply Hs; [lia|lia|]. intros c Hc. exists (mid + m - 1 - c), c, negb.
    split; [lia|done]. }
  clear Hs. rewrite bind_Done.
  apply guarded_bind.
  { destruct ((start <? m) && (m <? mid + m - start)) eqn:Hc; [|apply guarded_Done].
    apply andb_true_iff in Hc as [Hc1%Nat.ltb_lt Hc2%Nat.ltb_lt].
    destruct (rotate_spec l start m (mid + m - start)) as (l1 & -> & _ & Hperm & _);
      [lia|lia|done]. }
  intros l1 _ Hperm1. pose proof (Permutation_length Hperm1) as Hlen1.
  apply guarded_bind.
  { destruct ((a <? start) && (start <? mid)) eqn:Hc; [|apply guarded_Done].
    apply andb_true_iff in Hc as [Hc1%Nat.ltb_lt Hc2%Nat.ltb_lt].
    apply IH; lia. }
  intros l2 _ Hperm2. pose proof (Permutation_length Hperm2) as Hlen2.
  destruct ((mid <? mid + m - start) && (mid + m - start <? b)) eqn:Hc;
    [|apply guarded_Done].
  apply andb_true_iff in Hc as [Hc1%Nat.ltb_lt Hc2%Nat.ltb_lt].
  apply IH; lia.
Qed.

Lemma stable_blocks_guarded fuel blockSize : forall a l,
  0 < blockSize -> length l - a <= fuel ->
  guarded l (stable_blocks less fuel blockSize a (length l) l).
Proof.
  induction fuel as [|fuel IH]; intros a l Hbs Hf; cbn [stable_blocks];
    destruct (Nat.leb_spec (a + blockSize) (length l)); try lia;
    try (by apply insertionSort_guarded).
  apply guarded_bind; [apply insertionSort_guarded; lia|].
  intros l' _ Hperm. rewrite <- (Permutation_length Hperm).
  apply IH; [done|]. rewrite (Permutation_length Hperm). lia.
Qed.

Lemma stable_pass_guarded fuel blockSize : forall a l,
  0 < blockSize -> length l - a <= fuel ->
  guarded l (stable_pass less fuel blockSize a (length l) l).
Proof.
  induction fuel as [|fuel IH]; intros a l Hbs Hf; cbn [stable_pass];
    destruct (Nat.leb_spec (a + 2 * blockSize) (length l)); try lia;
    try (destruct (Nat.ltb_spec (a + blockSize) (length l)); [|apply guarded_Done];
         apply symMerge_guarded; lia).
  apply guarded_bind; [apply symMerge_guarded; lia|].
  intros l' _ Hperm. rewrite <- (Permutation_length Hperm).
  apply IH; [done|]. rewrite (Permutation_length Hperm). lia.
Qed.

Lemma stable_merges_guarded fuel : forall blockSize l,
  0 < blockSize -> length l - blockSize <= fuel ->
  guarded l (stable_merges less fuel blockSize (length l) l).
Proof.
  induction fuel as [|fuel IH]; intros blockSize l Hbs Hf; cbn [stable_merges];
    destruct (Nat.ltb_spec blockSize (length l)); try lia; try apply guarded_Done.
  apply guarded_bind; [apply stable_pass_guarded; lia|].
  intros l' _ Hperm. rewrite <- (Permutation_length Hperm).
  apply IH; [lia|]. rewrite (Permutation_length Hperm). lia.
Qed.

(** [sort.SliceStable] ends on every slice: it returns a rearrangement
    of the slice, or it panics as a call of the closure on two of its
    entries does. *)
Theorem SliceStable_guarded l : guarded l (SliceStable less l).
Proof.
  unfold SliceStable, stable. apply guarded_bind.
  - apply stable_blocks_guarded; lia.
  - intros l' _ Hperm. rewrite <- (Permutation_length Hperm).
    apply stable_merges_guarded; lia.
Qed.

End Guarded.

(* ===================================================================== *)
(** ** A call of the closure that the sort is bound to make *)
(* ===================================================================== *)

Section FirstPanic.

Context {A : Type}.
Implicit Types (l d : list A) (i j k a b m n : nat).

Variable less : list A -> nat -> nat -> outcome bool.
Variable lt : A -> A -> outcome bool.
Hypothesis Hless : forall data i j x y,
  j < i -> data !! i = Some x -> data !! j = Some y -> less data i j = lt x y.

Variable l : list A.
Variable m k : nat.
Variable p : panic.

(** The first [m] entries stop every entry that is compared with them,
    the entries from [m] up to [k] can be compared with each other, and
    the entry at [k] panics against each of them. *)
Hypothesis Hmk : m < k < length l.
Hypothesis Hpin : forall t x y, t < m -> l !! t = Some y -> lt x y = Done false.
Hypothesis Hreg : forall t u x y,
  m <= u -> u < t -> t < k -> l !! t = Some x -> l !! u = Some y -> returns (lt x y).
Hypothesis Hpanic : forall u x y,
  m <= u -> u < k -> l !! k = Some x -> l !! u = Some y -> lt x y = Panic p.






End FirstPanic.

(* ===================================================================== *)
(** ** Runs of [sort.SliceStable] that return although the closure can panic *)
(* ===================================================================== *)

(** A run that returns has asked the closure only what it answers, so
    that it is also the run of every closure that gives the same
    answers. *)
Section Extension.

Context {A : Type}.
Implicit Types (data : list A) (i j a b m n : nat).

Variables less less' : list A -> nat -> nat -> outcome bool.
Hypothesis Hext : forall data i j c, less data i j = Done c -> less' data i j = Done c.

Lemma bind_Done_inv {X Y} (r : outcome X) (k : X -> outcome Y) y :
  (r ≫= k) = Done y -> exists x, r = Done x /\ k x = Done y.
Proof. destruct r as [x| |]; simpl; [|done|done]. intros H. by exists x. Qed.

Lemma insertionSort_inner_answered a j data out :
  insertionSort_inner less a j data = Done out ->
  insertionSort_inner less' a j data = Done out.
Proof.
  revert data. induction j as [|j IH]; intros data; simpl; [done|].
  destruct (a <? S j); [|done].
  intros (c & Hc & Hk)%bind_Done_inv. rewrite (Hext _ _ _ _ Hc), bind_Done.
  destruct c; [by apply IH|done].
Qed.

Lemma insertionSort_outer_answered count a i data out :
  insertionSort_outer less count a i data = Done out ->
  insertionSort_outer less' count a i data = Done out.
Proof.
  revert i data. induction count as [|count IH]; intros i data; simpl; [done|].
  intros (d & Hd & Hk)%bind_Done_inv.
  rewrite (insertionSort_inner_answered _ _ _ _ Hd), bind_Done. by apply IH.
Qed.

Lemma insertionSort_answered data a b out :
  insertionSort less data a b = Done out -> insertionSort less' data a b = Done out.
Proof. apply insertionSort_outer_answered. Qed.

Lemma search_answered fuel (g g' : nat -> outcome bool) i j out :
  (forall h c, g h = Done c -> g' h = Done c) ->
  search fuel g i j = Done out -> search fuel g' i j = Done out.
Proof.
  intros Hg. revert i j. induction fuel as [|fuel IH]; intros i j; simpl.
  - by destruct (i <? j).
  - destruct (i <? j); [|done].
    intros (c & Hc & Hk)%bind_Done_inv. rewrite (Hg _ _ Hc), bind_Done.
    destruct c; by apply IH.
Qed.

Lemma negb_answered data i j c :
  negb <$> less data i j = Done c -> negb <$> less' data i j = Done c.
Proof.
  destruct (less data i j) as [c'| |] eqn:Hc; simpl; try done.
  by rewrite (Hext _ _ _ _ Hc).
Qed.

Lemma symMerge_answered fuel data a m b out :
  symMerge less fuel data a m b = Done out -> symMerge less' fuel data a m b = Done out.
Proof.
  revert data a m b out. induction fuel as [|fuel IH]; intros data a m b out.
  - simpl. destruct (m - a =? 1).
    { intros (i & Hi & Hk)%bind_Done_inv.
      rewrite (search_answered _ (fun h => less data h a) (fun h => less' data h a) _ _ _
                 (fun h c H => Hext _ _ _ _ H) Hi). done. }
    destruct (b - m =? 1); [|done].
    intros (i & Hi & Hk)%bind_Done_inv.
    rewrite (search_answered _ (fun h => negb <$> less data m h)
               (fun h => negb <$> less' data m h) _ _ _ (fun h c H => negb_answered _ _ _ _ H) Hi).
    done.
  - cbn [symMerge]. destruct (m - a =? 1).
    { intros (i & Hi & Hk)%bind_Done_inv.
      rewrite (search_answered _ (fun h => less data h a) (fun h => less' data h a) _ _ _
                 (fun h c H => Hext _ _ _ _ H) Hi). done. }
    destruct (b - m =? 1).
    { intros (i & Hi & Hk)%bind_Done_inv.
      rewrite (search_answered _ (fun h => negb <$> less data m h)
                 (fun h => negb <$> less' data m h) _ _ _
                 (fun h c H => negb_answered _ _ _ _ H) Hi).
      done. }
    destruct (if (a + b) / 2 <? m then _ else _) as [start r].
    intros (s & Hs & Hk)%bind_Done_inv.
    rewrite (search_answered _ (fun c => negb <$> less data ((a + b) / 2 + m - 1 - c) c)
               (fun c => negb <$> less' data ((a + b) / 2 + m - 1 - c) c)
               _ _ _ (fun h c H => negb_answered _ _ _ _ H) Hs), bind_Done.
    apply bind_Done_inv in Hk as (d1 & -> & Hk). rewrite bind_Done.
    apply bind_Done_inv in Hk as (d2 & Hd2 & Hk).
    assert ((if (a <? s) && (s <? (a + b) / 2)
             then symMerge less' fuel d1 a s ((a + b) / 2) else Done d1) = Done d2) as ->.
    { destruct (_ && _); [by apply IH|done]. }
    clear Hd2. rewrite bind_Done. destruct (_ && _); [by apply IH|done].
Qed.

Lemma stable_blocks_answered fuel blockSize a n data out :
  stable_blocks less fuel blockSize a n data = Done out ->
  stable_blocks less' fuel blockSize a n data = Done out.
Proof.
  revert a data. induction fuel as [|fuel IH]; intros a data; simpl.
  - destruct (a + blockSize <=? n); [done|]. apply insertionSort_answered.
  - destruct (a + blockSize <=? n); [|apply insertionSort_answered].
    intros (d & Hd & Hk)%bind_Done_inv.
    rewrite (insertionSort_answered _ _ _ _ Hd), bind_Done. by apply IH.
Qed.

Lemma stable_pass_answered fuel blockSize a n data out :
  stable_pass less fuel blockSize a n data = Done out ->
  stable_pass less' fuel blockSize a n data = Done out.
Proof.
  revert a data. induction fuel as [|fuel IH]; intros a data; cbn [stable_pass].
  - destruct (_ <=? n); [done|]. destruct (_ <? n); [apply symMerge_answered|done].
  - destruct (_ <=? n).
    + intros (d & Hd & Hk)%bind_Done_inv.
      rewrite (symMerge_answered _ _ _ _ _ _ Hd), bind_Done. by apply IH.
    + destruct (_ <? n); [apply symMerge_answered|done].
Qed.

Lemma stable_merges_answered fuel blockSize n data out :
  stable_merges less fuel blockSize n data = Done out ->
  stable_merges less' fuel blockSize n data = Done out.
Proof.
  revert blockSize data. induction fuel as [|fuel IH]; intros blockSize data;
    cbn [stable_merges].
  - by destruct (_ <? n).
  - destruct (_ <? n); [|done].
    intros (d & Hd & Hk)%bind_Done_inv.
    rewrite (stable_pass_answered _ _ _ _ _ _ Hd), bind_Done. by apply IH.
Qed.

Theorem SliceStable_answered data out :
  SliceStable less data = Done out -> SliceStable less' data = Done out.
Proof.
  unfold SliceStable, stable. intros (d & Hd & Hk)%bind_Done_inv.
  rewrite (stable_blocks_answered _ _ _ _ _ _ Hd), bind_Done. by apply stable_merges_answered.
Qed.

End Extension.

Section Returned.

Context {A : Type}.

Variable cmp : nat -> nat -> A -> A -> outcome bool.
Variable hi : A -> A -> outcome bool.
Hypothesis Hhi : forall i j x y, j < i -> cmp i j x y = hi x y.

(** The answer of the closure, and [false] where it gives none. *)
Definition calmed (r : outcome bool) : outcome bool :=
  match r with
  | Done c => Done c
  | _ => Done false
  end.

Lemma traced_calmed l out :
  traced cmp l = Done out -> traced (fun i j x y => calmed (cmp i j x y)) l = Done out.
Proof.
  unfold traced. apply SliceStable_answered. intros data i j c. unfold at_indices.
  destruct (data !! i), (data !! j); try done. by intros ->.
Qed.

(** The result of a run that returns ascends in any preorder that the
    closure refines where it answers, and in which a later entry is not
    below an earlier one that it cannot be compared with. *)
Theorem returned_sorted (rle : nat * A -> nat * A -> Prop) l out :
  (forall x, rle x x) -> (forall x y z, rle x y -> rle y z -> rle x z) ->
  (forall x y, x ∈ tagged l -> y ∈ tagged l -> y.1 < x.1 ->
     match hi x.2 y.2 with
     | Done true => rle x y
     | _ => rle y x
     end) ->
  traced cmp l = Done out ->
  arranges l out /\
  forall p q x y, p <= q -> out !! p = Some x -> out !! q = Some y -> rle x y.
Proof.
  intros Hrefl Htrans Hcmp Hrun. apply traced_calmed in Hrun.
  destruct (traced_sorted (fun i j x y => calmed (cmp i j x y))
              (fun x y => calmed (hi x y))
              (fun i j x y Hij => f_equal calmed (Hhi i j x y Hij))
              rle l Hrefl Htrans)
    as (out' & Hrun' & _ & Harr & Hsorted).
  { intros x y Hx Hy Hpos. specialize (Hcmp x y Hx Hy Hpos).
    destruct (hi x.2 y.2) as [[]| |]; simpl; eauto. }
  rewrite Hrun in Hrun'. by simplify_eq.
Qed.

(** Up to 20 entries, in the result of a run that returns an entry is in
    front of an earlier one only when it compares less than it. *)
Theorem returned_short l out :
  length l <= 20 -> traced cmp l = Done out ->
  arranges l out /\
  forall p q x y, p < q -> out !! p = Some x -> out !! q = Some y ->
    y.1 < x.1 -> hi x.2 y.2 = Done true.
Proof.
  intros Hshort Hrun. apply traced_calmed in Hrun.
  destruct (traced_short (fun i j x y => calmed (cmp i j x y))
              (fun x y => calmed (hi x y))
              (fun i j x y Hij => f_equal calmed (Hhi i j x y Hij)) l Hshort)
    as (out' & Hrun' & _ & Harr & Hjust).
  { intros x y _ _ _. destruct (hi x.2 y.2); by eexists. }
  rewrite Hrun in Hrun'. simplify_eq. split; [done|].
  intros p q x y Hpq Hx Hy Hpos. specialize (Hjust p q x y Hpq Hx Hy Hpos).
  by destruct (hi x.2 y.2) as [[]| |].
Qed.

End Returned.

(* ===================================================================== *)
(** ** Facts on Go strings *)
(* ===================================================================== *)

Definition slt (s t : string) : Prop := String.ltb s t = true.

Lemma ltb_compare s t : String.ltb s t = true <-> String.compare s t = Lt.
Proof. unfold String.ltb. destruct (String.compare s t); split; congruence. Qed.

Lemma ltb_irrefl s : String.ltb s s = false.
Proof.
  destruct (String.ltb s s) eqn:E; [|done]. apply ltb_compare in E.
  pose proof (String.compare_antisym s s) as H. rewrite E in H. discriminate.
Qed.

Lemma ltb_asym s t : String.ltb s t = true -> String.ltb t s = false.
Proof.
  intros H. apply ltb_compare in H. unfold String.ltb.
  rewrite String.compare_antisym, H. reflexivity.
Qed.

Lemma ltb_trans s t u :
  String.ltb s t = true -> String.ltb t u = true -> String.ltb s u = true.
Proof.
  rewrite !ltb_compare. intros H1 H2.
  apply String_as_OT.cmp_lt. apply String_as_OT.cmp_lt in H1, H2.
  eapply String_as_OT.lt_trans; eauto.
Qed.

Lemma ltb_total s t : s <> t -> String.ltb s t = false -> String.ltb t s = true.
Proof.
  intros Hne H. unfold String.ltb in *. rewrite String.compare_antisym.
  destruct (String.compare s t) eqn:E; try done.
  by apply String.compare_eq_iff in E.
Qed.

Lemma string_eqb_eq s t : string_eqb s t = true <-> s = t.
Proof. apply String.eqb_eq. Qed.

Lemma string_eqb_neq s t : string_eqb s t = false <-> s <> t.
Proof. apply String.eqb_neq. Qed.

Lemma strip_Some p s r : strip p s = Some r <-> s = (p ++ r)%string.
Proof.
  revert s. induction p as [|a p IH]; intros s; simpl.
  - split; congruence.
  - destruct s as [|b s]; [split; discriminate|].
    destruct (Ascii.eqb_spec a b) as [->|Hne].
    + rewrite IH. split; congruence.
    + split; [discriminate|]. intros [=]. congruence.
Qed.

Lemma count_dots_app s t : count_dots (s ++ t) = count_dots s + count_dots t.
Proof. induction s as [|c s IH]; simpl; [done|]. rewrite IH. lia. Qed.

Lemma Split_length s : length (strings_Split_dot s) = S (count_dots s).
Proof.
  induction s as [|c s IH]; simpl; [done|].
  destruct (Ascii.eqb c dot); simpl; [by rewrite IH|].
  destruct (strings_Split_dot s); simpl in *; [discriminate|]. lia.
Qed.

Lemma Split_nodot s : count_dots s = 0 -> strings_Split_dot s = [s].
Proof.
  induction s as [|c s IH]; simpl; [done|].
  destruct (Ascii.eqb c dot); [discriminate|]. intros H. by rewrite IH.
Qed.

(** With one dot, the parts are what stands before and after it. *)
Lemma Split_onedot s :
  count_dots s = 1 ->
  exists r n, strings_Split_dot s = [r; n] /\ s = (r ++ "." ++ n)%string /\
    count_dots r = 0 /\ count_dots n = 0.
Proof.
  induction s as [|c s IH]; simpl; [discriminate|].
  destruct (Ascii.eqb_spec c dot) as [->|Hne]; simpl.
  - intros [=H]. exists EmptyString, s. by rewrite Split_nodot.
  - intros H. destruct (IH H) as (r & n & -> & -> & Hr & Hn).
    exists (String c r), n. simpl. repeat split; try done.
    destruct (Ascii.eqb_spec c dot); [done|]. by rewrite Hr.
Qed.

Lemma Split_join r n :
  count_dots r = 0 -> count_dots n = 0 ->
  strings_Split_dot (r ++ "." ++ n) = [r; n].
Proof.
  intros Hr Hn. induction r as [|c r IH]; simpl in *.
  - by rewrite Split_nodot.
  - destruct (Ascii.eqb c dot); [discriminate|]. by rewrite IH.
Qed.

(** [splitOnDot] returns the two parts around the only dot, the whole
    name when there is none, and panics from the second dot on. *)
Lemma splitOnDot_cases name :
  match splitOnDot name with
  | Done (r, n) =>
      (count_dots name = 0 /\ r = EmptyString /\ n = name) \/
      (count_dots name = 1 /\ name = (r ++ "." ++ n)%string /\
       count_dots r = 0 /\ count_dots n = 0)
  | Panic p => p = TooMany /\ 2 <= count_dots name
  | OutOfFuel => False
  end.
Proof.
  unfold splitOnDot. rewrite Split_length.
  destruct (count_dots name) as [|[|k]] eqn:Hk; simpl.
  - left. done.
  - right. destruct (Split_onedot name Hk) as (r & n & -> & -> & Hr & Hn). done.
  - split; [done|lia].
Qed.

Lemma splitOnDot_join r n r' n' :
  splitOnDot (r ++ "." ++ n) = Done (r', n') ->
  r' = r /\ n' = n /\ count_dots r = 0 /\ count_dots n = 0.
Proof.
  intros H. pose proof (splitOnDot_cases (r ++ "." ++ n)) as Hc. rewrite H in Hc.
  rewrite count_dots_app in Hc. simpl in Hc.
  destruct Hc as [(Hd & _)|(Hd & _ & _ & _)]; [lia|].
  assert (count_dots r = 0) as Hr by lia. assert (count_dots n = 0) as Hn by lia.
  unfold splitOnDot in H. rewrite (Split_join r n Hr Hn) in H. simpl in H.
  by simplify_eq.
Qed.

Lemma splitOnDot_nodot s : count_dots s = 0 -> splitOnDot s = Done (EmptyString, s).
Proof. intros H. unfold splitOnDot. by rewrite (Split_nodot s H). Qed.

(* ===================================================================== *)
(** ** The part of the comparators that is an order *)
(* ===================================================================== *)

(** Weight bucket, input position (for entries that are pinned to it),
    receiver part of the key, and the adjusted weight of [lesss]. *)
Definition key : Type := Z * nat * string * Z.

Definition key_le (k1 k2 : key) : Prop :=
  match k1, k2 with
  | (w1, t1, r1, a1), (w2, t2, r2, a2) =>
      (w1 < w2)%Z \/ (w1 = w2 /\ (t1 < t2 \/ (t1 = t2 /\
        (slt r1 r2 \/ (r1 = r2 /\ (a1 <= a2)%Z)))))
  end.

Lemma key_le_refl k : key_le k k.
Proof.
  destruct k as [[[w t] r] a]. simpl.
  right. split; [done|]. right. split; [done|]. right. split; [done|]. lia.
Qed.

Lemma key_le_trans k1 k2 k3 : key_le k1 k2 -> key_le k2 k3 -> key_le k1 k3.
Proof.
  destruct k1 as [[[w1 t1] r1] a1], k2 as [[[w2 t2] r2] a2], k3 as [[[w3 t3] r3] a3].
  unfold key_le, slt.
  intros [H1|(-> & [H1|(-> & [H1|(-> & H1)])])] [H2|(-> & [H2|(-> & [H2|(-> & H2)])])];
    try (left; lia); right; (split; [done|]);
    try (left; lia); right; (split; [done|]);
    try (left; by eauto using ltb_trans); right; (split; [done|]); lia.
Qed.

Definition is_done {A} (m : outcome A) : bool :=
  match m with Done _ => true | _ => false end.

Lemma is_done_returns {A} (m : outcome A) : is_done m = true <-> returns m.
Proof. destruct m; simpl; split; try done; try (by intros [? ?]). by eexists. Qed.

(** The closure panics on no pair of entries. *)
Definition comparable {A} (hi : A -> A -> outcome bool) (l : list A) : bool :=
  forallb (fun x => forallb (fun y => is_done (hi x y)) l) l.

Lemma comparable_returns {A} (hi : A -> A -> outcome bool) l x y :
  comparable hi l = true -> x ∈ l -> y ∈ l -> returns (hi x y).
Proof.
  unfold comparable. rewrite forallb_forall. intros H Hx Hy.
  apply list_elem_of_In in Hx, Hy. specialize (H x Hx).
  rewrite forallb_forall in H. by apply is_done_returns, H.
Qed.

Fixpoint drop_leading {A} (f : A -> bool) (l : list A) : list A :=
  match l with
  | [] => []
  | x :: l' => if f x then drop_leading f l' else l
  end.

Section DeclOrder.

Variable upperRune : string -> bool.

(** The closure of [sortDecls] when the first index is the higher one. *)
Definition hiLess (x y : Decl) : outcome bool := declLess upperRune 1 0 x y.

Lemma declLess_hi i j x y : j < i -> declLess upperRune i j x y = hiLess x y.
Proof.
  intros Hij. unfold hiLess, declLess.
  destruct (Nat.ltb_spec i j); [lia|]. reflexivity.
Qed.

Definition adjusted (n : string) : Z := (100 + weightAdjustment upperRune n)%Z.

Lemma lesss_parts_order rx nx ry ny :
  if lesss_parts upperRune rx nx ry ny
  then slt rx ry \/ (rx = ry /\ (adjusted nx <= adjusted ny)%Z)
  else slt ry rx \/ (ry = rx /\ (adjusted ny <= adjusted nx)%Z).
Proof.
  unfold lesss_parts, adjusted.
  destruct (string_eqb rx ry) eqn:Hr; simpl.
  - apply string_eqb_eq in Hr. subst ry.
    destruct (Z.eqb_spec (100 + weightAdjustment upperRune nx)
                (100 + weightAdjustment upperRune ny)) as [He|Hne]; simpl.
    + destruct (trimCommonPrefix nx), (trimCommonPrefix ny).
      destruct (_ && _); destruct (String.ltb _ _); right; split; try done; lia.
    + destruct (Z.ltb_spec (100 + weightAdjustment upperRune nx)
                  (100 + weightAdjustment upperRune ny));
        right; split; try done; lia.
  - apply string_eqb_neq in Hr. destruct (String.ltb rx ry) eqn:Hlt.
    + by left.
    + left. apply ltb_total; done.
Qed.

Definition declKey (x : nat * Decl) : key :=
  if preserveOrder x.2 then ((-2)%Z, x.1, EmptyString, 0%Z)
  else
    match name upperRune x.2 with
    | Done (s, w) =>
        if (w =? -1)%Z then ((-1)%Z, x.1, EmptyString, 0%Z)
        else match splitOnDot s with
             | Done (r, n) => (w, 0, r, adjusted n)
             | _ => (w, 0, EmptyString, 0%Z)
             end
    | _ => (0%Z, 0, EmptyString, 0%Z)
    end.

Definition declLe (x y : nat * Decl) : Prop := key_le (declKey x) (declKey y).

(** Every declaration in front of a package or import declaration is
    one itself. *)
Definition importsFirst (ds : list Decl) : Prop :=
  forall i j x y, ds !! i = Some x -> ds !! j = Some y -> i < j ->
    preserveOrder y = true -> preserveOrder x = true.

Definition importsFirstb (ds : list Decl) : bool :=
  forallb (fun d => negb (preserveOrder d)) (drop_leading preserveOrder ds).

Lemma importsFirstb_spec ds : importsFirstb ds = true -> importsFirst ds.
Proof.
  unfold importsFirstb. induction ds as [|d ds IH]; intros H i j x y Hi Hj Hij Hy.
  { by rewrite lookup_nil in Hi. }
  simpl in H. destruct (preserveOrder d) eqn:Hd.
  - destruct i as [|i]; simpl in Hi; [by simplify_eq|].
    destruct j as [|j]; [lia|]. simpl in Hj. apply (IH H i j x y); auto. lia.
  - rewrite forallb_forall in H. apply list_elem_of_lookup_2, list_elem_of_In in Hj.
    specialize (H y Hj). by rewrite Hy in H.
Qed.

Lemma name_weight d s w : name upperRune d = Done (s, w) -> (-1 <= w)%Z.
Proof.
  unfold name, funcName, genName.
  destruct d as [recv nm|tok specs|]; simpl.
  - destruct (string_eqb (fieldListName recv) _); [|intros [=]; subst; done].
    destruct (string_eqb nm _); [intros [=]; subst; done|].
    destruct (strings_HasPrefix nm "new"); [intros [=]; subst; done|].
    destruct (firstUpper upperRune nm); [|intros [=]; subst; done].
    destruct (strings_HasPrefix nm "New"); intros [=]; subst; done.
  - destruct (Token_eqb tok TYPE); [|intros [=]; subst; done].
    destruct specs as [|[n| |] ?]; intros [=]; subst; done.
  - intros [=]; subst; done.
Qed.

Lemma hiLess_pinned x y :
  preserveOrder x || preserveOrder y = true -> hiLess x y = Done false.
Proof. intros H. unfold hiLess, declLess. by rewrite H. Qed.

Lemma hiLess_eval x y sx wx sy wy :
  preserveOrder x = false -> preserveOrder y = false ->
  name upperRune x = Done (sx, wx) -> name upperRune y = Done (sy, wy) ->
  hiLess x y =
    if (wx =? -1)%Z && (wy =? -1)%Z then Done false
    else if negb (wx =? wy)%Z then Done (wx <? wy)%Z
    else lesss upperRune sx sy.
Proof. intros Hx Hy Hnx Hny. unfold hiLess, declLess. by rewrite Hx, Hy, Hnx, Hny. Qed.

Lemma lesss_eval s1 s2 r1 n1 r2 n2 :
  splitOnDot s1 = Done (r1, n1) -> splitOnDot s2 = Done (r2, n2) ->
  lesss upperRune s1 s2 = Done (lesss_parts upperRune r1 n1 r2 n2).
Proof. intros H1 H2. unfold lesss. by rewrite H1, H2. Qed.

(** What a declaration that can be compared with itself looks like to
    the closure. *)
Lemma name_cases d :
  returns (hiLess d d) -> preserveOrder d = false ->
  exists s w, name upperRune d = Done (s, w) /\
    ((w = -1)%Z \/ ((w <> -1)%Z /\ exists r n, splitOnDot s = Done (r, n))).
Proof.
  intros [c Hc] Hp. unfold hiLess, declLess in Hc. rewrite Hp in Hc. simpl in Hc.
  destruct (name upperRune d) as [[s w]| |] eqn:Hn; try discriminate.
  exists s, w. split; [done|]. rewrite !bind_Done in Hc.
  destruct (Z.eqb_spec w (-1)) as [->|Hne]; [by left|]. right. split; [done|].
  simpl in Hc. rewrite Z.eqb_refl in Hc. simpl in Hc.
  unfold lesss in Hc. destruct (splitOnDot s) as [[r n]| |]; try discriminate. eauto.
Qed.

(** On a list with the package and import declarations in front, the
    closure refines the order of the keys. *)
Lemma decl_cmp ds x y :
  comparable hiLess ds = true -> importsFirst ds ->
  x ∈ tagged ds -> y ∈ tagged ds -> y.1 < x.1 ->
  exists c : bool, hiLess x.2 y.2 = Done c /\ if c then declLe x y else declLe y x.
Proof.
  intros Hcomp Hfirst Hx Hy Hpos. destruct x as [i dx], y as [j dy]. simpl in *.
  apply elem_of_tagged in Hx, Hy.
  assert (returns (hiLess dx dx)) as Rx
    by (apply (comparable_returns _ ds); eauto using list_elem_of_lookup_2).
  assert (returns (hiLess dy dy)) as Ry
    by (apply (comparable_returns _ ds); eauto using list_elem_of_lookup_2).
  unfold declLe, declKey. simpl.
  destruct (preserveOrder dx) eqn:Px; destruct (preserveOrder dy) eqn:Py.
  - exists false. rewrite hiLess_pinned by (by rewrite Px). split; [done|].
    simpl. right. split; [done|]. left. lia.
  - rewrite (Hfirst j i dy dx Hy Hx Hpos Px) in Py. done.
  - exists false. rewrite hiLess_pinned by (rewrite Px, Py; done). split; [done|].
    destruct (name upperRune dx) as [[s w]| |] eqn:Hn; simpl; try (left; lia).
    pose proof (name_weight _ _ _ Hn).
    destruct (w =? -1)%Z; [left; lia|].
    destruct (splitOnDot s) as [[r n]| |]; left; lia.
  - destruct (name_cases dx Rx Px) as (sx & wx & Hnx & Hwx).
    destruct (name_cases dy Ry Py) as (sy & wy & Hny & Hwy).
    pose proof (name_weight _ _ _ Hnx). pose proof (name_weight _ _ _ Hny).
    rewrite (hiLess_eval dx dy sx wx sy wy) by done. rewrite Hnx, Hny.
    destruct (Z.eqb_spec wx (-1)) as [Ex|Ex]; destruct (Z.eqb_spec wy (-1)) as [Ey|Ey];
      cbn [andb negb].
    + exists false. split; [done|]. right. split; [done|]. left. lia.
    + destruct Hwy as [?|(_ & ry & ny & Hsy)]; [done|]. rewrite Hsy.
      destruct (Z.eqb_spec wx wy); [lia|]. cbn [negb].
      destruct (Z.ltb_spec wx wy); [|lia]. exists true. split; [done|]. left. lia.
    + destruct Hwx as [?|(_ & rx & nx & Hsx)]; [done|]. rewrite Hsx.
      destruct (Z.eqb_spec wx wy); [lia|]. cbn [negb].
      destruct (Z.ltb_spec wx wy); [lia|]. exists false. split; [done|]. left. lia.
    + destruct Hwx as [?|(_ & rx & nx & Hsx)]; [done|].
      destruct Hwy as [?|(_ & ry & ny & Hsy)]; [done|]. rewrite Hsx, Hsy.
      destruct (Z.eqb_spec wx wy) as [->|Hne]; cbn [negb].
      * rewrite (lesss_eval sx sy rx nx ry ny) by done.
        eexists. split; [done|].
        pose proof (lesss_parts_order rx nx ry ny) as Ho.
        destruct (lesss_parts upperRune rx nx ry ny);
          right; (split; [done|]); right; (split; [done|]);
          destruct Ho as [Ho|[-> Ho]]; auto.
      * eexists. split; [done|].
        destruct (Z.ltb_spec wx wy); left; lia.
Qed.

End DeclOrder.

Lemma key_le_fst w1 t1 r1 a1 w2 t2 r2 a2 :
  key_le (w1, t1, r1, a1) (w2, t2, r2, a2) -> (w1 <= w2)%Z.
Proof. intros [H|[-> _]]; lia. Qed.

Lemma key_le_pinned w t1 r1 a1 t2 r2 a2 :
  key_le (w, t1, r1, a1) (w, t2, r2, a2) -> t1 <= t2.
Proof. intros [H|[_ [H|[-> _]]]]; lia. Qed.

Lemma key_le_adjusted w t r a1 a2 :
  key_le (w, t, r, a1) (w, t, r, a2) -> (a1 <= a2)%Z.
Proof.
  intros [H|[_ [H|[_ [H|[_ H]]]]]]; try lia.
  unfold slt in H. by rewrite ltb_irrefl in H.
Qed.

(** A key between two keys of one bucket and one receiver is of that
    bucket and receiver. *)
Lemma key_sandwich w t r a1 a2 k :
  key_le (w, t, r, a1) k -> key_le k (w, t, r, a2) ->
  exists a, k = (w, t, r, a) /\ (a1 <= a <= a2)%Z.
Proof.
  destruct k as [[[w' t'] r'] a']. unfold key_le, slt.
  intros [H1|(<- & [H1|(<- & [H1|(<- & H1)])])] [H2|(E2 & [H2|(E3 & [H2|(E4 & H2)])])];
    try lia; simplify_eq; try (by rewrite ltb_irrefl in *).
  - pose proof (ltb_asym _ _ H1). congruence.
  - exists a'. split; [done|lia].
Qed.

Section DeclSorting.

Variable upperRune : string -> bool.

(** [sortDecls] on entries that carry their input position. *)
Definition sortDecls_traced (ds : list Decl) : outcome (list (nat * Decl)) :=
  traced (declLess upperRune) ds.

(** With the package and import declarations in front and no panic
    between any two declarations, [sortDecls] returns the declarations
    in ascending order of their keys. *)
Lemma sortDecls_ordered ds :
  comparable (hiLess upperRune) ds = true -> importsFirst ds ->
  exists out, sortDecls_traced ds = Done out /\ sortDecls upperRune ds = Done out.*2 /\
    arranges ds out /\
    forall p q x y, p <= q -> out !! p = Some x -> out !! q = Some y ->
      declLe upperRune x y.
Proof.
  intros Hcomp Hfirst.
  apply (traced_sorted (declLess upperRune) (hiLess upperRune)
           (declLess_hi upperRune) (declLe upperRune)).
  - intros x. apply key_le_refl.
  - intros x y z. apply key_le_trans.
  - intros x y Hx Hy Hpos. by apply (decl_cmp upperRune ds).
Qed.

(** Up to 20 declarations, one gets in front of an earlier one only by
    comparing less than it. *)
Lemma sortDecls_short ds :
  length ds <= 20 -> comparable (hiLess upperRune) ds = true ->
  exists out, sortDecls_traced ds = Done out /\ sortDecls upperRune ds = Done out.*2 /\
    arranges ds out /\
    forall p q x y, p < q -> out !! p = Some x -> out !! q = Some y ->
      y.1 < x.1 -> hiLess upperRune x.2 y.2 = Done true.
Proof.
  intros Hshort Hcomp.
  apply (traced_short (declLess upperRune) (hiLess upperRune) (declLess_hi upperRune));
    [done|].
  intros [i x] [j y] Hx Hy _. apply elem_of_tagged in Hx, Hy. simpl.
  apply (comparable_returns _ ds); eauto using list_elem_of_lookup_2.
Qed.

(** What the keys say about a declaration. *)


(** [d] is a type declaration whose first spec has the name [n]; [genName]
    reads [Specs[0]] and no other spec. *)
Definition typeNamed (n : string) (d : Decl) : bool :=
  match d with
  | GenDecl TYPE (TypeSpec n' :: _) => string_eqb n' n
  | _ => false
  end.

(** [d] is a function whose receiver name, as [fieldListName] gives it,
    is [n]. *)
Definition methodOf (n : string) (d : Decl) : bool :=
  match d with
  | FuncDecl recv _ => string_eqb (fieldListName recv) n
  | _ => false
  end.

Lemma declKey_import i d :
  preserveOrder d = true -> declKey upperRune (i, d) = ((-2)%Z, i, EmptyString, 0%Z).
Proof. intros H. unfold declKey. simpl. by rewrite H. Qed.

Lemma declKey_rest i d :
  preserveOrder d = false ->
  exists w t r a, declKey upperRune (i, d) = (w, t, r, a) /\ (-1 <= w)%Z.
Proof.
  intros H. unfold declKey. simpl. rewrite H.
  destruct (name upperRune d) as [[s w]| |] eqn:Hn; try (by eexists _, _, _, _).
  pose proof (name_weight _ _ _ _ Hn).
  destruct (w =? -1)%Z; [by eexists _, _, _, _|].
  destruct (splitOnDot s) as [[r n]| |]; by eexists _, _, _, _.
Qed.


Lemma funcName_weight recv nm s w :
  funcName upperRune (FuncDecl recv nm) = Done (s, w) ->
  (if string_eqb (fieldListName recv) EmptyString
   then s = nm /\ (w = 10 \/ w = 50 \/ w = 29 \/ w = 30 \/ w = 200)%Z
   else s = (fieldListName recv ++ "." ++ nm)%string /\ w = 100%Z).
Proof.
  unfold funcName. destruct (string_eqb (fieldListName recv) _).
  - destruct (string_eqb nm _); [intros [=]; subst; auto|].
    destruct (strings_HasPrefix nm "new"); [intros [=]; subst; auto|].
    destruct (firstUpper upperRune nm); [|intros [=]; subst; split; auto 10].
    destruct (strings_HasPrefix nm "New"); intros [=]; subst; split; auto 10.
  - intros [=]; subst; auto.
Qed.


Lemma adjusted_marker : adjusted upperRune magicTypeMarker = 95%Z.
Proof. reflexivity. Qed.

Lemma adjusted_bounds nm :
  string_eqb nm magicTypeMarker = false -> (97 <= adjusted upperRune nm <= 100)%Z.
Proof.
  intros H. unfold adjusted, weightAdjustment. rewrite H.
  destruct (firstUpper upperRune nm), (strings_HasPrefix nm "New"); lia.
Qed.

Lemma typeNamed_inv n d :
  typeNamed n d = true -> exists rest, d = GenDecl TYPE (TypeSpec n :: rest).
Proof.
  destruct d as [| [] [|[n'| |] rest] |]; simpl; try done.
  intros H%string_eqb_eq. subst. eauto.
Qed.

Lemma methodOf_inv n d :
  methodOf n d = true -> exists recv nm, d = FuncDecl recv nm /\ fieldListName recv = n.
Proof.
  destruct d as [recv nm| |]; simpl; try done. intros H%string_eqb_eq. eauto.
Qed.

Lemma declKey_type i n d :
  typeNamed n d = true -> returns (hiLess upperRune d d) ->
  declKey upperRune (i, d) = (100%Z, 0, n, 95%Z).
Proof.
  intros Ht Hret. destruct (typeNamed_inv n d Ht) as [rest ->].
  destruct (name_cases upperRune _ Hret eq_refl) as (s & w & Hn & Hw).
  unfold declKey. simpl fst. simpl snd. simpl preserveOrder. cbv iota. rewrite Hn.
  cbn in Hn. simplify_eq. unfold typeWeight in *.
  destruct Hw as [?|(_ & r & n' & Hs)]; [lia|].
  simpl. rewrite Hs. apply splitOnDot_join in Hs as (-> & -> & _ & _).
  by rewrite adjusted_marker.
Qed.

Lemma declKey_method i n recv nm :
  fieldListName recv = n -> n <> EmptyString ->
  returns (hiLess upperRune (FuncDecl recv nm) (FuncDecl recv nm)) ->
  declKey upperRune (i, FuncDecl recv nm) = (100%Z, 0, n, adjusted upperRune nm).
Proof.
  intros Hr Hne Hret.
  destruct (name_cases upperRune _ Hret eq_refl) as (s & w & Hn & Hw).
  unfold declKey. simpl fst. simpl snd. simpl preserveOrder. cbv iota. rewrite Hn.
  unfold name in Hn.
  destruct (funcName upperRune (FuncDecl recv nm)) as [[s' w']| |] eqn:Hf; try done.
  apply funcName_weight in Hf. rewrite Hr in Hf.
  apply string_eqb_neq in Hne. rewrite Hne in Hf. destruct Hf as [-> ->].
  rewrite bind_Done in Hn. simpl in Hn. simplify_eq.
  destruct Hw as [?|(_ & r & n' & Hs)]; [lia|].
  simpl. rewrite Hs. by apply splitOnDot_join in Hs as (-> & -> & _ & _).
Qed.

(** Bucket 100 holds type declarations and methods, keyed by the type. *)
Lemma declKey_bucket_type i d n a :
  declKey upperRune (i, d) = (100%Z, 0, n, a) -> returns (hiLess upperRune d d) ->
  typeNamed n d = true \/ methodOf n d = true.
Proof.
  intros Hk Hret. unfold declKey in Hk. simpl fst in Hk. simpl snd in Hk.
  destruct (preserveOrder d) eqn:Hp; [by simplify_eq|].
  destruct (name_cases upperRune _ Hret Hp) as (s & w & Hn & Hw).
  rewrite Hn in Hk. destruct Hw as [->|(Hw & r & n' & Hs)]; [by simplify_eq|].
  destruct (Z.eqb_spec w (-1)); [done|]. rewrite Hs in Hk. simplify_eq.
  destruct d as [recv nm|tok specs|]; [| |done].
  - right. unfold name in Hn.
    destruct (funcName upperRune (FuncDecl recv nm)) as [[s' w']| |] eqn:Hf; try done.
    apply funcName_weight in Hf. simpl.
    destruct (string_eqb (fieldListName recv) EmptyString) eqn:He.
    + destruct Hf as [-> Hf]. rewrite bind_Done in Hn.
      destruct (Z.eqb_spec w' (-1)); simpl in Hn; [lia|]. simplify_eq. lia.
    + destruct Hf as [-> ->]. rewrite bind_Done in Hn. simpl in Hn. simplify_eq.
      apply splitOnDot_join in Hs as (-> & _). by apply string_eqb_eq.
  - left. cbn in Hn. destruct tok; simpl in *; try (by simplify_eq).
    destruct specs as [|[tn| |] rest]; simpl in *; try done. simplify_eq.
    apply splitOnDot_join in Hs as (-> & _). by apply string_eqb_eq.
Qed.

End DeclSorting.

Section FieldSorting.

Variable upperRune : string -> bool.
Variable sprintExpr : Expr -> string.

Definition sortFieldList_traced (fs : list Field) : outcome (list (nat * Field)) :=
  traced (fun _ _ => fieldLess upperRune sprintExpr) fs.





Lemma sortFieldList_short fs :
  length fs <= 20 -> comparable (fieldLess upperRune sprintExpr) fs = true ->
  exists out, sortFieldList_traced fs = Done out /\
    sortFieldList upperRune sprintExpr fs = Done out.*2 /\ arranges fs out /\
    forall p q x y, p < q -> out !! p = Some x -> out !! q = Some y ->
      y.1 < x.1 -> fieldLess upperRune sprintExpr x.2 y.2 = Done true.
Proof.
  intros Hshort Hcomp.
  apply (traced_short (fun _ _ => fieldLess upperRune sprintExpr)
           (fieldLess upperRune sprintExpr) (fun _ _ _ _ _ => eq_refl)); [done|].
  intros [i x] [j y] Hx Hy _. apply elem_of_tagged in Hx, Hy. simpl.
  apply (comparable_returns _ fs); eauto using list_elem_of_lookup_2.
Qed.

End FieldSorting.

(** Entries keep their input order unless the later one compares less
    than the earlier one. *)
Definition keepsOrder {A} (hi : A -> A -> outcome bool) (out : list (nat * A)) : Prop :=
  forall p q x y, out !! p = Some x -> out !! q = Some y ->
    x.1 < y.1 -> hi y.2 x.2 = Done false -> p < q.

Lemma justified_keepsOrder {A} (hi : A -> A -> outcome bool) (l : list A) out :
  arranges l out ->
  (forall p q x y, p < q -> out !! p = Some x -> out !! q = Some y ->
     y.1 < x.1 -> hi x.2 y.2 = Done true) ->
  keepsOrder hi out.
Proof.
  intros Harr Hjust p q x y Hx Hy Hpos Hnot.
  destruct (Nat.lt_trichotomy p q) as [Hlt|[->|Hgt]]; [done| |].
  - simplify_eq. lia.
  - specialize (Hjust q p y x Hgt Hy Hx Hpos). congruence.
Qed.

(* ===================================================================== *)
(** ** Declarations and members used in the scenarios *)
(* ===================================================================== *)

Definition free (n : string) : Decl := FuncDecl None n.
Definition method (r n : string) : Decl :=
  FuncDecl (Some [mkField ["f"%string] (Ident r)]) n.
Definition typ (n : string) : Decl := GenDecl TYPE [TypeSpec n].
Definition importDecl : Decl := GenDecl IMPORT [ImportSpec].
Definition varDecl : Decl := GenDecl VAR [ValueSpec].
Definition member (n : string) : Field := mkField [n] (OtherExpr "FuncType").
Definition embedded (e : Expr) : Field := mkField [] e.

(** A table without upper case letters beyond ASCII, and a printer that
    prints nothing; the scenarios use ASCII identifiers only. *)
Definition up0 : string -> bool := fun _ => false.
Definition sp0 : Expr -> string := fun _ => EmptyString.

Local Open Scope string_scope.

(* ===================================================================== *)
(** ** The name rule of [lesss] *)
(* ===================================================================== *)

Definition unmatched (s q : string) : Prop :=
  strings_HasPrefix s q = false /\ strings_HasPrefix s (strings_ToLower q) = false.

(** [trimCommonPrefix] takes off the first prefix of the list that the
    name starts with, in its own or in lower case, and nothing else. *)
Definition stripsOne (s : string) : Prop :=
  let '(p, r) := trimCommonPrefix s in
  (p = "" /\ r = s /\ Forall (unmatched s) commonPrefixes) \/
  (exists before after, commonPrefixes = (before ++ p :: after)%list /\
     Forall (unmatched s) before /\ (s = p ++ r \/ s = strings_ToLower p ++ r)).

Lemma HasPrefix_true s p :
  strings_HasPrefix s p = true -> s = p ++ strings_TrimPrefix s p.
Proof.
  unfold strings_HasPrefix, strings_TrimPrefix.
  destruct (strip p s) as [r|] eqn:Hs; [|done]. intros _. by apply strip_Some.
Qed.

Lemma trimCommonPrefix_loop_spec ps s :
  let '(p, r) := trimCommonPrefix_loop ps s in
  (p = "" /\ r = s /\ Forall (unmatched s) ps) \/
  (exists before after, ps = (before ++ p :: after)%list /\
     Forall (unmatched s) before /\ (s = p ++ r \/ s = strings_ToLower p ++ r)).
Proof.
  induction ps as [|q ps IH]; simpl.
  { left. by repeat split. }
  destruct (strings_HasPrefix s q) eqn:H1.
  { right. exists [], ps. repeat split; [constructor|]. left. by apply HasPrefix_true. }
  destruct (strings_HasPrefix s (strings_ToLower q)) eqn:H2.
  { right. exists [], ps. repeat split; [constructor|]. right. by apply HasPrefix_true. }
  destruct (trimCommonPrefix_loop ps s) as [p r].
  destruct IH as [(-> & -> & Hall)|(before & after & -> & Hall & Hs)].
  - left. repeat split. by constructor.
  - right. exists (q :: before), after. repeat split; [|done]. by constructor.
Qed.

Lemma trimCommonPrefix_spec s : stripsOne s.
Proof. apply trimCommonPrefix_loop_spec. Qed.

Lemma lesss_parts_tie upperRune r n1 n2 :
  weightAdjustment upperRune n1 = weightAdjustment upperRune n2 ->
  (trimCommonPrefix n1).2 <> "" -> (trimCommonPrefix n2).2 <> "" ->
  lesss_parts upperRune r n1 r n2
  = String.ltb (trimCommonPrefix n1).2 (trimCommonPrefix n2).2.
Proof.
  intros Hw H1 H2. unfold lesss_parts. rewrite (proj2 (string_eqb_eq r r) eq_refl).
  rewrite Hw, Z.eqb_refl. simpl.
  destruct (trimCommonPrefix n1) as [a1 p1], (trimCommonPrefix n2) as [a2 p2]. simpl in *.
  apply string_eqb_neq in H1, H2. by rewrite H1, H2.
Qed.

Lemma lesss_parts_asym upperRune r1 n1 r2 n2 :
  lesss_parts upperRune r1 n1 r2 n2 = true -> lesss_parts upperRune r2 n2 r1 n1 = false.
Proof.
  unfold lesss_parts.
  destruct (String.eqb_spec r1 r2) as [->|Hne]; unfold string_eqb.
  - rewrite String.eqb_refl. simpl.
    rewrite (Z.eqb_sym (100 + weightAdjustment upperRune n2)).
    destruct (Z.eqb_spec (100 + weightAdjustment upperRune n1)
                (100 + weightAdjustment upperRune n2)) as [He|Hn]; simpl.
    + destruct (trimCommonPrefix n1) as [a1 p1], (trimCommonPrefix n2) as [a2 p2].
      rewrite (andb_comm (negb (p2 =? "")%string)).
      destruct (_ && _); apply ltb_asym.
    + intros H%Z.ltb_lt. apply Z.ltb_ge. lia.
  - rewrite (proj2 (String.eqb_neq r1 r2) Hne).
    rewrite (proj2 (String.eqb_neq r2 r1)) by congruence. simpl. apply ltb_asym.
Qed.

Lemma lesss_asym upperRune s1 s2 :
  lesss upperRune s1 s2 = Done true -> lesss upperRune s2 s1 = Done false.
Proof.
  unfold lesss. destruct (splitOnDot s1) as [[r1 n1]| |]; try done.
  destruct (splitOnDot s2) as [[r2 n2]| |]; try done. rewrite !bind_Done.
  intros [=H]. by rewrite (lesss_parts_asym _ _ _ _ _ H).
Qed.

Lemma lesss_outcomes upperRune s1 s2 :
  match lesss upperRune s1 s2 with
  | Done _ => count_dots s1 <= 1 /\ count_dots s2 <= 1
  | Panic p => p = TooMany /\ (2 <= count_dots s1 \/ 2 <= count_dots s2)
  | OutOfFuel => False
  end.
Proof.
  unfold lesss. pose proof (splitOnDot_cases s1) as H1.
  pose proof (splitOnDot_cases s2) as H2.
  destruct (splitOnDot s1) as [[r1 n1]| |]; try done.
  - destruct (splitOnDot s2) as [[r2 n2]| |]; try done.
    + rewrite !bind_Done. split; [destruct H1 as [(-> & _)|(-> & _)]|
                                     destruct H2 as [(-> & _)|(-> & _)]]; lia.
    + destruct H2. simpl. auto.
  - destruct H1. simpl. auto.
Qed.

(* ===================================================================== *)
(** ** Lists on which no comparison panics *)
(* ===================================================================== *)

Definition dotFree (s : string) : bool := (count_dots s =? 0)%nat.


(** Members with a dot free first name, and embedded types [T] or [p.T]. *)
Definition wellFormedField (f : Field) : bool :=
  match Names f with
  | [] =>
      match Type_ f with
      | Ident n => dotFree n
      | SelectorExpr (Ident x) sel => dotFree x && dotFree sel
      | _ => false
      end
  | n :: _ => dotFree n
  end.

Lemma lesss_returns upperRune s t :
  count_dots s <= 1 -> count_dots t <= 1 -> returns (lesss upperRune s t).
Proof.
  intros Hs Ht. pose proof (lesss_outcomes upperRune s t) as H.
  destruct (lesss upperRune s t) as [c|p|]; [by exists c| |done].
  destruct H as [_ [H|H]]; lia.
Qed.

Lemma funcName_returns upperRune recv nm : returns (funcName upperRune (FuncDecl recv nm)).
Proof.
  unfold funcName. destruct (string_eqb _ _); [|by eexists].
  destruct (string_eqb nm _); [by eexists|].
  destruct (strings_HasPrefix nm "new"); [by eexists|].
  destruct (firstUpper upperRune nm); by eexists.
Qed.



Lemma wellFormedField_comparable upperRune sprintExpr fs :
  forallb wellFormedField fs = true ->
  comparable (fieldLess upperRune sprintExpr) fs = true.
Proof.
  intros Hwf. rewrite forallb_forall in Hwf. unfold comparable.
  apply forallb_forall. intros x Hx. apply forallb_forall. intros y Hy.
  apply is_done_returns. specialize (Hwf x Hx) as Hwx. specialize (Hwf y Hy) as Hwy.
  assert (forall f, wellFormedField f = true -> Names f = [] ->
            exists s, strf sprintExpr (Type_ f) = Done s /\ count_dots s <= 1) as Hemb.
  { intros f Hf Hn. unfold wellFormedField, dotFree in Hf. rewrite Hn in Hf.
    destruct (Type_ f) as [n|[x'| | |] sel| |]; try done.
    - apply Nat.eqb_eq in Hf. exists n. split; [done|lia].
    - apply andb_true_iff in Hf as [H1%Nat.eqb_eq H2%Nat.eqb_eq].
      eexists. split; [reflexivity|]. rewrite !count_dots_app. simpl. lia. }
  unfold fieldLess.
  destruct (Names x) as [|n1 r1] eqn:Hn1, (Names y) as [|n2 r2] eqn:Hn2; simpl;
    try (by eexists).
  - destruct (Hemb x Hwx Hn1) as (sx & Hsx & Hdx).
    destruct (Hemb y Hwy Hn2) as (sy & Hsy & Hdy).
    unfold less. rewrite Hsx, Hsy, !bind_Done. by apply lesss_returns.
  - unfold wellFormedField, dotFree in Hwx, Hwy. rewrite Hn1 in Hwx. rewrite Hn2 in Hwy.
    apply Nat.eqb_eq in Hwx, Hwy. apply lesss_returns; lia.
Qed.

(** The panics of the closure of [sortDecls]. *)
Lemma name_panics upperRune d :
  match name upperRune d with
  | Done _ => True
  | Panic p => p = IndexOutOfRange \/ p = TypeAssertion
  | OutOfFuel => False
  end.
Proof.
  destruct d as [recv nm|tok specs|]; [| |by cbn].
  - destruct (funcName_returns upperRune recv nm) as [[s w] Hf].
    unfold name. rewrite Hf, bind_Done. by destruct (negb _).
  - destruct tok; try (by cbn). destruct specs as [|[n| |] specs]; cbn; auto.
Qed.

Lemma declLess_panics upperRune i j x y :
  match declLess upperRune i j x y with
  | Done _ => True
  | Panic p => p = TooMany \/ p = IndexOutOfRange \/ p = TypeAssertion
  | OutOfFuel => False
  end.
Proof.
  unfold declLess. destruct (preserveOrder x || preserveOrder y); [done|].
  pose proof (name_panics upperRune x) as Hx. pose proof (name_panics upperRune y) as Hy.
  destruct (name upperRune x) as [[sx wx]|p|]; [|simpl; tauto|done].
  destruct (name upperRune y) as [[sy wy]|p|]; [|simpl; tauto|done].
  rewrite !bind_Done. destruct (_ && _); [done|]. destruct (negb _); [done|].
  pose proof (lesss_outcomes upperRune sx sy) as Hl.
  destruct (lesss upperRune sx sy) as [c|p|]; [done| |done]. destruct Hl as [-> _]. auto.
Qed.

Lemma at_indices_hi {A} (cmp : nat -> nat -> A -> A -> outcome bool)
    (hi : A -> A -> outcome bool) :
  (forall i j x y, j < i -> cmp i j x y = hi x y) ->
  forall (data : list A) i j x y,
    j < i -> data !! i = Some x -> data !! j = Some y ->
    at_indices cmp data i j = hi x y.
Proof. intros Hhi data i j x y Hij Hx Hy. unfold at_indices. rewrite Hx, Hy. auto. Qed.

(* ===================================================================== *)
(** ** The claims on the comparators *)
(* ===================================================================== *)

(** C1 (Scenario A).  The declarations [doStuff], type [Foo], [newFoo],
    method [Foo.Bar] and [main], in that order, are sorted into [main],
    [newFoo], type [Foo], [Foo.Bar], [doStuff]; their weights are 10, 50,
    100, 100 and 200. *)
Theorem C1_scenario_A (upperRune : string -> bool) :
  sortDecls upperRune
    [free "doStuff"; typ "Foo"; free "newFoo"; method "Foo" "Bar"; free "main"]
  = Done [free "main"; free "newFoo"; typ "Foo"; method "Foo" "Bar"; free "doStuff"]
  /\ name upperRune (free "main") = Done ("main", 10%Z)
  /\ name upperRune (free "newFoo") = Done ("newFoo", 50%Z)
  /\ name upperRune (typ "Foo") = Done ("Foo.______", 100%Z)
  /\ name upperRune (method "Foo" "Bar") = Done ("Foo.Bar", 100%Z)
  /\ name upperRune (free "doStuff") = Done ("doStuff", 200%Z).
Proof. repeat split; vm_compute; reflexivity. Qed.

(** C5, as the code has it.  For two names of one receiver whose adjusted
    weights tie: at most one prefix is taken off each, the first of [Is],
    [Has], [Get], [All], [Create], [New], [Err], [Error], [Init], [Find],
    [Set], [Render] that the name starts with in its own or in lower
    case; when both names carry the same prefix, or both carry none, and
    what is left of each is not empty, they compare as what is left
    compares in byte order (the full names when no prefix matched). *)
Theorem C5_same_prefix_by_remainder (upperRune : string -> bool) (n1 n2 : string) :
  weightAdjustment upperRune n1 = weightAdjustment upperRune n2 ->
  (trimCommonPrefix n1).1 = (trimCommonPrefix n2).1 ->
  (trimCommonPrefix n1).2 <> "" -> (trimCommonPrefix n2).2 <> "" ->
  stripsOne n1 /\ stripsOne n2 /\
  (forall r, lesss_parts upperRune r n1 r n2
             = String.ltb (trimCommonPrefix n1).2 (trimCommonPrefix n2).2) /\
  (count_dots n1 = 0 -> count_dots n2 = 0 ->
   lesss upperRune n1 n2
   = Done (String.ltb (trimCommonPrefix n1).2 (trimCommonPrefix n2).2)).
Proof.
  intros Hw _ H1 H2. split; [apply trimCommonPrefix_spec|].
  split; [apply trimCommonPrefix_spec|]. split.
  - intros r. by apply lesss_parts_tie.
  - intros Hd1 Hd2. unfold lesss.
    rewrite (splitOnDot_nodot n1 Hd1), (splitOnDot_nodot n2 Hd2), !bind_Done.
    by rewrite lesss_parts_tie.
Qed.

Lemma C5_witness :
  lesss up0 "getAlpha" "getBeta" = Done true /\ lesss up0 "zeta" "alpha" = Done false.
Proof.
  split.
  - apply (C5_same_prefix_by_remainder up0 "getAlpha" "getBeta");
      [reflexivity|reflexivity|discriminate|discriminate|reflexivity|reflexivity].
  - apply (C5_same_prefix_by_remainder up0 "zeta" "alpha");
      [reflexivity|reflexivity|discriminate|discriminate|reflexivity|reflexivity].
Defined.

(** C5 fails as stated: [getzzz] starts with a listed prefix and [foo]
    does not, both are unexported free functions, and [foo] is sorted in
    front of [getzzz]. *)
Lemma C5_prefixed_not_first :
  strings_HasPrefix "getzzz" (strings_ToLower "Get") = true
  /\ Forall (unmatched "foo") commonPrefixes
  /\ name up0 (free "getzzz") = Done ("getzzz", 200%Z)
  /\ name up0 (free "foo") = Done ("foo", 200%Z)
  /\ lesss up0 "foo" "getzzz" = Done true
  /\ lesss up0 "getzzz" "foo" = Done false
  /\ sortDecls up0 [free "getzzz"; free "foo"] = Done [free "foo"; free "getzzz"].
Proof.
  repeat split; try (vm_compute; reflexivity).
  repeat constructor.
Qed.

(** [lesss] binds the two results of [trimCommonPrefix] in the other
    order than the function returns them, so that [getValue] and
    [setValue] tie and stay as they were in the input. *)
Example getValue_setValue_tie :
  trimCommonPrefix "getValue" = ("Get", "Value")
  /\ lesss up0 "getValue" "setValue" = Done false
  /\ lesss up0 "setValue" "getValue" = Done false
  /\ sortDecls up0 [free "setValue"; free "getValue"]
     = Done [free "setValue"; free "getValue"].
Proof. repeat split; vm_compute; reflexivity. Qed.

(** C8, as the code has it.  The closure of [sortDecls] is asymmetric:
    when it answers that one declaration is less than another, it answers
    that the other is not less than the one. *)
Theorem C8_comparator_asymmetric (upperRune : string -> bool) (i j : nat) (di dj : Decl) :
  declLess upperRune i j di dj = Done true ->
  declLess upperRune j i dj di = Done false.
Proof.
  unfold declLess. rewrite (orb_comm (preserveOrder dj)).
  destruct (preserveOrder di || preserveOrder dj).
  { intros [=H]. apply Nat.ltb_lt in H.
    destruct (Nat.ltb_spec j i); [lia|done]. }
  destruct (name upperRune di) as [[si wi]| |]; try done.
  destruct (name upperRune dj) as [[sj wj]| |]; try done.
  rewrite !bind_Done. simpl.
  rewrite (andb_comm (wj =? -1)%Z), (Z.eqb_sym wj wi).
  destruct ((wi =? -1)%Z && (wj =? -1)%Z).
  { intros [=H]. apply Nat.ltb_lt in H.
    destruct (Nat.ltb_spec j i); [lia|done]. }
  destruct (wi =? wj)%Z; simpl.
  - apply lesss_asym.
  - intros [=H]. apply Z.ltb_lt in H. f_equal. apply Z.ltb_ge. lia.
Qed.

Lemma C8_witness :
  declLess up0 1 0 (free "main") (free "doStuff") = Done true
  /\ declLess up0 0 1 (free "doStuff") (free "main") = Done false.
Proof.
  split; [reflexivity|].
  apply (C8_comparator_asymmetric up0 1 0 (free "main") (free "doStuff")).
  reflexivity.
Defined.

(** C8 fails as stated: on the three unexported free functions [seta],
    [getb] and [has] the closure is not transitive (it runs in a cycle),
    and on two equal keys swapping the operands does not negate the
    answer. *)
Lemma C8_not_transitive :
  declLess up0 0 1 (free "seta") (free "getb") = Done true
  /\ declLess up0 1 2 (free "getb") (free "has") = Done true
  /\ declLess up0 0 2 (free "seta") (free "has") = Done false
  /\ declLess up0 2 0 (free "has") (free "seta") = Done true
  /\ lesss up0 "seta" "getb" = Done true
  /\ lesss up0 "getb" "has" = Done true
  /\ lesss up0 "seta" "has" = Done false
  /\ lesss up0 "getValue" "setValue" = lesss up0 "setValue" "getValue".
Proof. repeat split; vm_compute; reflexivity. Qed.

(** C9.  [splitOnDot] returns the empty receiver and the name when the
    name has no dot, the parts before and after the dot when it has one,
    and panics with "too many" exactly when the name has two dots or more,
    that is more than two parts; [lesss] returns exactly when both names
    have at most one dot and panics with "too many" otherwise. *)
Theorem C9_splitOnDot (upperRune : string -> bool) (s t : string) :
  length (strings_Split_dot s) = S (count_dots s)
  /\ match splitOnDot s with
     | Done (r, n) =>
         (count_dots s = 0 /\ r = "" /\ n = s) \/
         (count_dots s = 1 /\ s = r ++ "." ++ n /\ count_dots r = 0 /\ count_dots n = 0)
     | Panic p => p = TooMany /\ 2 < length (strings_Split_dot s)
     | OutOfFuel => False
     end
  /\ match lesss upperRune s t with
     | Done _ => count_dots s <= 1 /\ count_dots t <= 1
     | Panic p => p = TooMany /\ (2 <= count_dots s \/ 2 <= count_dots t)
     | OutOfFuel => False
     end.
Proof.
  split; [apply Split_length|]. split; [|apply lesss_outcomes].
  pose proof (splitOnDot_cases s) as H. rewrite Split_length.
  destruct (splitOnDot s) as [[r n]| |]; try done.
  destruct H as [-> H]. split; [done|lia].
Qed.

Definition isPlain (e : Expr) : bool :=
  match e with
  | Ident _ | SelectorExpr _ _ => true
  | _ => false
  end.

Lemma lesss_no_TypeSwitch upperRune s t : lesss upperRune s t <> Panic TypeSwitch.
Proof.
  pose proof (lesss_outcomes upperRune s t) as H. intros E. rewrite E in H.
  by destruct H.
Qed.

Lemma strf_plain sprintExpr e :
  if isPlain e then returns (strf sprintExpr e) else strf sprintExpr e = Panic TypeSwitch.
Proof. destruct e as [n|[] sel|x|k]; simpl; try done; by eexists. Qed.

(** C10.  [less], which compares two embedded members, panics in its type
    switch exactly when one of the two type expressions is neither an
    identifier nor a selector expression; a member list with the embedded
    members [~int] (a unary expression) and [fmt.Stringer] makes
    [sortFieldList] panic. *)
Theorem C10_embedded_panic (upperRune : string -> bool) (sprintExpr : Expr -> string) :
  (forall s t, less upperRune sprintExpr s t = Panic TypeSwitch
               <-> isPlain s && isPlain t = false)
  /\ (forall s t, fieldLess upperRune sprintExpr (embedded s) (embedded t)
                  = less upperRune sprintExpr s t)
  /\ sortFieldList upperRune sprintExpr
       [embedded (OtherExpr "UnaryExpr"); embedded (SelectorExpr (Ident "fmt") "Stringer")]
     = Panic TypeSwitch.
Proof.
  split; [|split; [reflexivity|vm_compute; reflexivity]].
  intros s t. unfold less.
  pose proof (strf_plain sprintExpr s) as Hs. pose proof (strf_plain sprintExpr t) as Ht.
  destruct (isPlain s); simpl.
  - destruct Hs as [a ->]. rewrite bind_Done. destruct (isPlain t); simpl.
    + destruct Ht as [b ->]. rewrite bind_Done. split; [|done].
      intros H. by apply lesss_no_TypeSwitch in H.
    + rewrite Ht. done.
  - rewrite Hs. done.
Qed.

(* ===================================================================== *)
(** ** The claims on the sorted lists *)
(* ===================================================================== *)

(** A type declaration, taken under the name of its first spec, is
    followed by the methods of that name and by nothing else before the
    last of them. *)
Definition grouped (out : list Decl) : Prop :=
  forall p q n T m,
    out !! p = Some T -> typeNamed n T = true ->
    out !! q = Some m -> methodOf n m = true ->
    p < q /\
    forall r d, p < r -> r < q -> out !! r = Some d -> methodOf n d = true.

(** [d] is a type declaration one of whose specs declares the type [n]. *)
Definition declares (n : string) (d : Decl) : bool :=
  match d with
  | GenDecl TYPE specs =>
      existsb (fun s => match s with
                        | TypeSpec n' => string_eqb n' n
                        | _ => false
                        end) specs
  | _ => false
  end.

(** The first specs of the type declarations have names that are not
    empty and differ from one another. *)
Fixpoint distinctTypes (ds : list Decl) : bool :=
  match ds with
  | [] => true
  | d :: ds' =>
      match d with
      | GenDecl TYPE (TypeSpec n :: _) =>
          negb (string_eqb n "") && forallb (fun d' => negb (typeNamed n d')) ds'
      | _ => true
      end && distinctTypes ds'
  end.

(** No method has the name that marks the type declaration in the keys. *)
Definition noMagicMethod (ds : list Decl) : bool :=
  forallb (fun d => match d with
                    | FuncDecl recv nm =>
                        string_eqb (fieldListName recv) ""
                        || negb (string_eqb nm magicTypeMarker)
                    | _ => true
                    end) ds.

Lemma distinctTypes_spec ds :
  distinctTypes ds = true ->
  forall i j d1 d2 n, ds !! i = Some d1 -> ds !! j = Some d2 ->
    typeNamed n d1 = true -> typeNamed n d2 = true -> i = j /\ n <> "".
Proof.
  induction ds as [|d ds IH]; intros H i j d1 d2 n Hi Hj H1 H2.
  { by rewrite lookup_nil in Hi. }
  simpl in H. apply andb_true_iff in H as [Hd Hrest].
  assert (forall k d', ds !! k = Some d' -> typeNamed n d = true ->
            typeNamed n d' = true -> False) as Hhead.
  { intros k d' Hk Hn Hn'. destruct (typeNamed_inv n d Hn) as [rest ->].
    apply andb_true_iff in Hd as [_ Hd]. rewrite forallb_forall in Hd.
    apply list_elem_of_lookup_2, list_elem_of_In in Hk.
    specialize (Hd d' Hk). by rewrite Hn' in Hd. }
  destruct i as [|i], j as [|j]; simpl in Hi, Hj.
  - assert (d1 = d) as -> by congruence. split; [done|].
    destruct (typeNamed_inv n d H1) as [rest ->].
    apply andb_true_iff in Hd as [Hd _]. intros ->. done.
  - assert (d1 = d) as -> by congruence. destruct (Hhead j d2 Hj H1 H2).
  - assert (d2 = d) as -> by congruence. destruct (Hhead i d1 Hi H2 H1).
  - destruct (IH Hrest i j d1 d2 n Hi Hj H1 H2) as [-> ?]. done.
Qed.

Lemma noMagicMethod_spec ds recv nm :
  noMagicMethod ds = true -> FuncDecl recv nm ∈ ds -> fieldListName recv <> "" ->
  string_eqb nm magicTypeMarker = false.
Proof.
  unfold noMagicMethod. rewrite forallb_forall. intros H Hin Hne.
  apply list_elem_of_In in Hin. specialize (H _ Hin). simpl in H.
  apply string_eqb_neq in Hne. rewrite Hne in H. simpl in H.
  by apply negb_true_iff in H.
Qed.

(** The type group [type (B; A)], which declares [B] and [A]. *)
Definition typeGroup_B_A : Decl := GenDecl TYPE [TypeSpec "B"; TypeSpec "A"].

(** C2 does not hold of the code, on two inputs that are the declarations
    of valid Go files.  [genName] gives a type declaration the key of a
    method named [______] of that type, so that such a method stays in
    front of its type when it is there in the input: [func (f Foo) ______()]
    followed by [type Foo] comes out as it is.  And [genName] reads the
    first spec of a type declaration only: [type (B; A)], [func (f A) M()],
    [func (f B) N()] comes out as [func (f A) M()], [type (B; A)],
    [func (f B) N()], the method of [A] in front of the declaration that
    declares [A].  The comments in [funcName] and [genName] say that a
    method is wanted below its receiver type, grouped with it. *)
Theorem C2_method_ahead_of_type (upperRune : string -> bool) :
  (sortDecls upperRune [method "Foo" "______"; typ "Foo"]
   = Done [method "Foo" "______"; typ "Foo"]
   /\ methodOf "Foo" (method "Foo" "______") = true
   /\ declares "Foo" (typ "Foo") = true
   /\ ~ grouped [method "Foo" "______"; typ "Foo"])
  /\
  (sortDecls upperRune [typeGroup_B_A; method "A" "M"; method "B" "N"]
   = Done [method "A" "M"; typeGroup_B_A; method "B" "N"]
   /\ methodOf "A" (method "A" "M") = true
   /\ declares "A" typeGroup_B_A = true).
Proof.
  split.
  - split; [vm_compute; reflexivity|]. split; [reflexivity|]. split; [reflexivity|].
    intros H. destruct (H 1 0 "Foo" (typ "Foo") (method "Foo" "______")) as [Hlt _];
      try reflexivity. lia.
  - split; [vm_compute; reflexivity|]. split; reflexivity.
Qed.

(** X28.  Where the grouping is reached.  When no comparison panics, the
    package and import declarations come first, the first specs of the
    type declarations have distinct names that are not empty and no
    method is named [______], every type declaration is followed in the
    output by the methods whose receiver name is the name of its first
    spec, with no other declaration between it and any of them.  The
    types that later specs of a type group declare have no part in
    this. *)
Theorem sortDecls_groups_methods (upperRune : string -> bool) (ds : list Decl) :
  comparable (hiLess upperRune) ds = true ->
  importsFirstb ds = true ->
  distinctTypes ds = true ->
  noMagicMethod ds = true ->
  exists out, sortDecls upperRune ds = Done out /\ out ≡ₚ ds /\ grouped out.
Proof.
  intros Hcomp Hfirst Hdist Hmagic.
  destruct (sortDecls_ordered upperRune ds Hcomp (importsFirstb_spec ds Hfirst))
    as (out & _ & Hrun & Harr & Hsorted).
  exists out.*2. split; [done|]. split; [by apply arranges_snd|].
  intros p q n T m HT HnT Hm Hnm.
  apply list_lookup_fmap_Some in HT as ([i T'] & ? & HT). simpl in *. subst T'.
  apply list_lookup_fmap_Some in Hm as ([j m'] & ? & Hm). simpl in *. subst m'.
  pose proof (arranges_lookup _ _ _ _ _ Harr HT) as HiT.
  pose proof (arranges_lookup _ _ _ _ _ Harr Hm) as Hjm.
  assert (forall k d, ds !! k = Some d -> returns (hiLess upperRune d d)) as Hret.
  { intros k d Hk. apply (comparable_returns _ ds); eauto using list_elem_of_lookup_2. }
  destruct (distinctTypes_spec ds Hdist i i T T n HiT HiT HnT HnT) as [_ Hne].
  destruct (methodOf_inv n m Hnm) as (recv & nm & -> & Hrecv).
  pose proof (declKey_type upperRune i n T HnT (Hret _ _ HiT)) as HkT.
  pose proof (declKey_method upperRune j n recv nm Hrecv Hne (Hret _ _ Hjm)) as Hkm.
  assert (97 <= adjusted upperRune nm <= 100)%Z as Hadj.
  { apply adjusted_bounds, (noMagicMethod_spec ds recv); [done| |congruence].
    by apply list_elem_of_lookup_2 in Hjm. }
  split.
  - destruct (Nat.lt_ge_cases p q) as [Hlt|Hge]; [done|].
    pose proof (Hsorted q p _ _ Hge Hm HT) as Hle. unfold declLe in Hle.
    rewrite HkT, Hkm in Hle. apply key_le_adjusted in Hle. lia.
  - intros r d Hpr Hrq Hd.
    apply list_lookup_fmap_Some in Hd as ([k d'] & ? & Hd). simpl in *. subst d'.
    pose proof (arranges_lookup _ _ _ _ _ Harr Hd) as Hkd.
    pose proof (Hsorted p r _ _ ltac:(lia) HT Hd) as Hle1.
    pose proof (Hsorted r q _ _ ltac:(lia) Hd Hm) as Hle2.
    unfold declLe in Hle1, Hle2. rewrite HkT in Hle1. rewrite Hkm in Hle2.
    destruct (key_sandwich _ _ _ _ _ _ Hle1 Hle2) as (a & Hk & _).
    destruct (declKey_bucket_type upperRune k d n a Hk (Hret _ _ Hkd)) as [Ht|Hmeth];
      [|done].
    destruct (distinctTypes_spec ds Hdist i k T d n HiT Hkd HnT Ht) as [-> _].
    pose proof (arranges_inj _ _ _ _ _ _ Harr HT Hd eq_refl). lia.
Qed.

Lemma sortDecls_groups_methods_witness :
  exists out,
    sortDecls up0 [importDecl; method "Foo" "Bar"; free "main"; typ "Foo"; method "Foo" "baz"]
    = Done out /\
    out ≡ₚ [importDecl; method "Foo" "Bar"; free "main"; typ "Foo"; method "Foo" "baz"] /\
    grouped out.
Proof.
  apply (sortDecls_groups_methods up0
           [importDecl; method "Foo" "Bar"; free "main"; typ "Foo"; method "Foo" "baz"]);
    vm_compute; reflexivity.
Defined.

(** No declaration changes sides with a package or import declaration. *)
Definition anchored (out : list (nat * Decl)) : Prop :=
  forall p q x y, p < q -> out !! p = Some x -> out !! q = Some y ->
    preserveOrder x.2 || preserveOrder y.2 = true -> x.1 < y.1.

Lemma anchored_short upperRune ds out :
  arranges ds out ->
  (forall p q x y, p < q -> out !! p = Some x -> out !! q = Some y ->
     y.1 < x.1 -> hiLess upperRune x.2 y.2 = Done true) ->
  anchored out.
Proof.
  intros Harr Hjust p q x y Hpq Hx Hy Hpin.
  destruct (Nat.lt_trichotomy x.1 y.1) as [Hlt|[Heq|Hgt]]; [done| |].
  - pose proof (arranges_inj _ _ _ _ _ _ Harr Hx Hy Heq). lia.
  - specialize (Hjust p q x y Hpq Hx Hy Hgt).
    rewrite (hiLess_pinned upperRune _ _ Hpin) in Hjust. done.
Qed.

Lemma anchored_ordered upperRune ds out :
  importsFirst ds -> arranges ds out ->
  (forall p q x y, p <= q -> out !! p = Some x -> out !! q = Some y ->
     declLe upperRune x y) ->
  anchored out.
Proof.
  intros Hfirst Harr Hsorted p q [i dx] [j dy] Hpq Hx Hy Hpin. simpl in *.
  assert (i <> j) as Hne.
  { intros ->. pose proof (arranges_inj _ _ _ _ _ _ Harr Hx Hy eq_refl). lia. }
  pose proof (Hsorted p q _ _ ltac:(lia) Hx Hy) as Hle. unfold declLe in Hle.
  pose proof (arranges_lookup _ _ _ _ _ Harr Hx) as Hdx.
  pose proof (arranges_lookup _ _ _ _ _ Harr Hy) as Hdy.
  destruct (preserveOrder dx) eqn:Px; destruct (preserveOrder dy) eqn:Py; try done.
  - rewrite !declKey_import in Hle by done. apply key_le_pinned in Hle. lia.
  - destruct (Nat.lt_ge_cases i j) as [Hlt|Hge]; [done|].
    rewrite (Hfirst j i dy dx Hdy Hdx ltac:(lia) Px) in Py. done.
  - rewrite (declKey_import upperRune j dy Py) in Hle.
    destruct (declKey_rest upperRune i dx Px) as (w & t & r & a & Hk & Hw).
    rewrite Hk in Hle. apply key_le_fst in Hle. lia.
Qed.

(** The package and import declarations in the order of the input, and
    in front of every other declaration. *)
Definition anchorLe (x y : nat * Decl) : Prop :=
  if preserveOrder x.2 then (if preserveOrder y.2 then x.1 <= y.1 else True)
  else (if preserveOrder y.2 then False else True).

Lemma anchorLe_refl x : anchorLe x x.
Proof. unfold anchorLe. destruct (preserveOrder x.2); [lia|done]. Qed.

Lemma anchorLe_trans x y z : anchorLe x y -> anchorLe y z -> anchorLe x z.
Proof.
  unfold anchorLe.
  destruct (preserveOrder x.2), (preserveOrder y.2), (preserveOrder z.2); try done. lia.
Qed.

(** When [sortDecls] returns on a list with the package and import
    declarations in front, they are where they were. *)
Lemma returned_anchored_first upperRune ds out :
  importsFirst ds -> sortDecls_traced upperRune ds = Done out ->
  arranges ds out /\ anchored out.
Proof.
  intros Hfirst Hrun.
  destruct (returned_sorted (declLess upperRune) (hiLess upperRune) (declLess_hi upperRune)
              anchorLe ds out anchorLe_refl anchorLe_trans) as [Harr Hsorted]; [|done|].
  { intros [i dx] [j dy] Hx Hy Hpos. simpl in *. apply elem_of_tagged in Hx, Hy.
    unfold anchorLe. simpl.
    destruct (preserveOrder dx) eqn:Px; destruct (preserveOrder dy) eqn:Py.
    - rewrite hiLess_pinned by (by rewrite Px). lia.
    - rewrite (Hfirst j i dy dx Hy Hx Hpos Px) in Py. done.
    - rewrite hiLess_pinned by (by rewrite Px, Py). done.
    - by destruct (hiLess upperRune dx dy) as [[]| |]. }
  split; [done|]. intros p q [i dx] [j dy] Hpq Hx Hy Hpin. simpl in *.
  assert (i <> j) as Hne.
  { intros ->. pose proof (arranges_inj _ _ _ _ _ _ Harr Hx Hy eq_refl). lia. }
  pose proof (Hsorted p q _ _ ltac:(lia) Hx Hy) as Hle. unfold anchorLe in Hle.
  simpl in Hle.
  pose proof (arranges_lookup _ _ _ _ _ Harr Hx) as Hdx.
  pose proof (arranges_lookup _ _ _ _ _ Harr Hy) as Hdy.
  destruct (preserveOrder dx) eqn:Px; destruct (preserveOrder dy) eqn:Py; try done.
  - lia.
  - destruct (Nat.lt_ge_cases i j) as [Hlt|Hge]; [done|].
    rewrite (Hfirst j i dy dx Hdy Hdx ltac:(lia) Px) in Py. done.
Qed.

(** When [sortDecls] returns on at most 20 declarations, the package
    and import declarations are where they were. *)
Lemma returned_anchored_short upperRune ds out :
  length ds <= 20 -> sortDecls_traced upperRune ds = Done out ->
  arranges ds out /\ anchored out.
Proof.
  intros Hshort Hrun.
  destruct (returned_short (declLess upperRune) (hiLess upperRune) (declLess_hi upperRune)
              ds out Hshort Hrun) as [Harr Hjust].
  split; [done|]. by apply (anchored_short upperRune ds).
Qed.

Lemma sortDecls_of_traced upperRune ds :
  sortDecls upperRune ds = omap (fmap snd) (sortDecls_traced upperRune ds).
Proof. unfold sortDecls, sortDecls_traced. by rewrite traced_erase. Qed.

Lemma sortDecls_traced_ends upperRune ds : sortDecls_traced upperRune ds <> OutOfFuel.
Proof.
  intros Hrun. pose proof (sortDecls_of_traced upperRune ds) as He.
  rewrite Hrun in He. simpl in He.
  pose proof (SliceStable_guarded (at_indices (declLess upperRune)) (hiLess upperRune)
                (at_indices_hi _ _ (declLess_hi upperRune))) as H.
  specialize (H (fun x y => ltac:(pose proof (declLess_panics upperRune 1 0 x y) as Hp;
                                   unfold hiLess; by destruct (declLess _ _ _ _ _))) ds).
  unfold sortDecls in He. by rewrite He in H.
Qed.

(** C3.  On every declaration list that has its package and import
    declarations in front of the other declarations, as the declarations
    of a parsed file are, and on every list of at most 20 declarations,
    [sortDecls] ends, it panics only when a comparison of two of the
    declarations does, and when it returns every package or import
    declaration has kept its side of every other declaration. *)
Theorem C3_imports_anchored (upperRune : string -> bool) (ds : list Decl) :
  (length ds <=? 20)%nat || importsFirstb ds = true ->
  match sortDecls_traced upperRune ds with
  | Done out => sortDecls upperRune ds = Done out.*2 /\ arranges ds out /\ anchored out
  | Panic p => sortDecls upperRune ds = Panic p /\ comparable (hiLess upperRune) ds = false
  | OutOfFuel => False
  end.
Proof.
  intros Hcase. pose proof (sortDecls_of_traced upperRune ds) as He.
  pose proof (sortDecls_traced_ends upperRune ds) as Hends.
  destruct (sortDecls_traced upperRune ds) as [out|p|] eqn:Hrun; [| |done].
  - split; [done|]. apply orb_true_iff in Hcase as [Hshort|Hfirst].
    + apply Nat.leb_le in Hshort. by apply (returned_anchored_short upperRune).
    + apply importsFirstb_spec in Hfirst. by apply (returned_anchored_first upperRune).
  - split; [done|]. destruct (comparable (hiLess upperRune) ds) eqn:Hcomp; [|done].
    apply orb_true_iff in Hcase as [Hshort|Hfirst].
    + apply Nat.leb_le in Hshort.
      destruct (sortDecls_short upperRune ds Hshort Hcomp) as (out & Htr & _). congruence.
    + apply importsFirstb_spec in Hfirst.
      destruct (sortDecls_ordered upperRune ds Hcomp Hfirst) as (out & Htr & _). congruence.
Qed.

(** Two import declarations and twenty functions, [v] down to [c]. *)
Definition imports_in_front : list Decl :=
  ([importDecl; importDecl] ++
   map free ["v"; "u"; "t"; "s"; "r"; "q"; "p"; "o"; "n"; "m"; "l"; "k"; "j"; "i";
             "h"; "g"; "f"; "e"; "d"; "c"])%list.

Lemma C3_witness :
  exists out,
    sortDecls_traced up0 imports_in_front = Done out /\
    sortDecls up0 imports_in_front = Done out.*2 /\
    arranges imports_in_front out /\ anchored out.
Proof.
  assert (exists out, sortDecls_traced up0 imports_in_front = Done out) as [out Hout].
  { eexists. vm_compute. reflexivity. }
  pose proof (C3_imports_anchored up0 imports_in_front) as H.
  rewrite Hout in H. exists out. split; [exact Hout|]. apply H.
  vm_compute. reflexivity.
Defined.

(** Twenty-one declarations with an import declaration as the fourth,
    and [a] as the last.  No parsed file has such declarations: the Go
    parser takes import declarations before the other declarations
    only. *)
Definition import_in_the_middle : list Decl :=
  (map free ["b"; "c"; "d"] ++ [importDecl] ++
   map free ["e"; "f"; "g"; "h"; "i"; "j"; "k"; "l"; "m"; "n"; "o"; "p"; "q"; "r";
             "s"; "t"; "a"])%list.

(** Why the import declarations have to be in front when there are more
    than 20 declarations: in this list, [a] at the end is merged in by
    binary search and gets in front of the import declaration that was
    before it. *)
Lemma import_in_the_middle_passed :
  exists out,
    sortDecls_traced up0 import_in_the_middle = Done out /\
    sortDecls up0 import_in_the_middle = Done out.*2 /\
    out !! 0 = Some (20, free "a") /\ out !! 4 = Some (3, importDecl) /\
    ~ anchored out.
Proof.
  eexists. split; [vm_compute; reflexivity|]. split; [vm_compute; reflexivity|].
  split; [reflexivity|]. split; [reflexivity|].
  intros H. specialize (H 0 4 (20, free "a") (3, importDecl)). simpl in H.
  specialize (H ltac:(lia) eq_refl eq_refl eq_refl). lia.
Qed.

(** Two entries of which neither compares less than the other are in
    the output as they were in the input. *)
Definition stableOrder {A} (hi : A -> A -> outcome bool) (out : list (nat * A)) : Prop :=
  forall p q x y, out !! p = Some x -> out !! q = Some y -> x.1 < y.1 ->
    hi x.2 y.2 = Done false -> hi y.2 x.2 = Done false -> p < q.

Lemma keepsOrder_stable {A} (hi : A -> A -> outcome bool) out :
  keepsOrder hi out -> stableOrder hi out.
Proof. intros H p q x y Hx Hy Hpos _ Hnot. by apply (H p q x y). Qed.

(** C4, as the code has it.  On at most 20 declarations, and on at most
    20 members, when no comparison panics, the sort returns and two
    entries of which neither compares less than the other keep their
    order; more than that, two entries keep their order unless the later
    one compares less than the earlier one. *)
Theorem C4_stable_up_to_20 (upperRune : string -> bool) (sprintExpr : Expr -> string)
    (ds : list Decl) (fs : list Field) :
  length ds <= 20 -> length fs <= 20 ->
  comparable (hiLess upperRune) ds = true ->
  comparable (fieldLess upperRune sprintExpr) fs = true ->
  (exists out, sortDecls_traced upperRune ds = Done out /\
     sortDecls upperRune ds = Done out.*2 /\ arranges ds out /\
     stableOrder (hiLess upperRune) out /\ keepsOrder (hiLess upperRune) out) /\
  (exists out, sortFieldList_traced upperRune sprintExpr fs = Done out /\
     sortFieldList upperRune sprintExpr fs = Done out.*2 /\ arranges fs out /\
     stableOrder (fieldLess upperRune sprintExpr) out /\
     keepsOrder (fieldLess upperRune sprintExpr) out).
Proof.
  intros Hds Hfs Hcd Hcf. split.
  - destruct (sortDecls_short upperRune ds Hds Hcd) as (out & Htr & Hrun & Harr & Hjust).
    exists out. repeat split; try done.
    + by apply keepsOrder_stable, (justified_keepsOrder _ ds).
    + by apply (justified_keepsOrder _ ds).
  - destruct (sortFieldList_short upperRune sprintExpr fs Hfs Hcf)
      as (out & Htr & Hrun & Harr & Hjust).
    exists out. repeat split; try done.
    + by apply keepsOrder_stable, (justified_keepsOrder _ fs).
    + by apply (justified_keepsOrder _ fs).
Qed.

Lemma C4_witness :
  (exists out, sortDecls_traced up0 [free "setValue"; free "getValue"; free "main"] = Done out /\
     sortDecls up0 [free "setValue"; free "getValue"; free "main"] = Done out.*2 /\
     arranges [free "setValue"; free "getValue"; free "main"] out /\
     stableOrder (hiLess up0) out /\ keepsOrder (hiLess up0) out) /\
  (exists out, sortFieldList_traced up0 sp0 [member "Zeta"; embedded (Ident "T")] = Done out /\
     sortFieldList up0 sp0 [member "Zeta"; embedded (Ident "T")] = Done out.*2 /\
     arranges [member "Zeta"; embedded (Ident "T")] out /\
     stableOrder (fieldLess up0 sp0) out /\ keepsOrder (fieldLess up0 sp0) out).
Proof.
  apply (C4_stable_up_to_20 up0 sp0 [free "setValue"; free "getValue"; free "main"]
           [member "Zeta"; embedded (Ident "T")]);
    [simpl; lia|simpl; lia|vm_compute; reflexivity|vm_compute; reflexivity].
Defined.

(** Twenty-one unexported free functions; [seta] is the fourth, [geta]
    the last, and neither compares less than the other. *)
Definition tie_across_blocks : list Decl :=
  map free ["b"; "c"; "has"; "seta"; "d"; "e"; "f"; "g"; "h"; "i"; "j"; "k"; "l"; "m";
            "n"; "o"; "p"; "q"; "r"; "s"; "geta"].

(** C4 fails as stated: [geta] ends up in front of [seta]. *)
Lemma C4_tie_reordered :
  exists out,
    sortDecls_traced up0 tie_across_blocks = Done out /\
    sortDecls up0 tie_across_blocks = Done out.*2 /\
    out !! 0 = Some (20, free "geta") /\ out !! 4 = Some (3, free "seta") /\
    hiLess up0 (free "geta") (free "seta") = Done false /\
    hiLess up0 (free "seta") (free "geta") = Done false /\
    ~ stableOrder (hiLess up0) out.
Proof.
  eexists. split; [vm_compute; reflexivity|]. split; [vm_compute; reflexivity|].
  split; [reflexivity|]. split; [reflexivity|]. split; [reflexivity|].
  split; [reflexivity|].
  intros H. specialize (H 4 0 (3, free "seta") (20, free "geta")). simpl in H.
  specialize (H eq_refl eq_refl ltac:(lia) eq_refl eq_refl). lia.
Qed.








(* ===================================================================== *)
(** ** The two closures on later-against-earlier calls *)
(* ===================================================================== *)

Lemma hiLess_asym upperRune x y :
  hiLess upperRune x y = Done true -> hiLess upperRune y x = Done false.
Proof.
  unfold hiLess, declLess. rewrite (orb_comm (preserveOrder y)).
  destruct (preserveOrder x || preserveOrder y); [done|].
  destruct (name upperRune x) as [[sx wx]| |]; try done.
  destruct (name upperRune y) as [[sy wy]| |]; try done.
  rewrite !bind_Done. simpl.
  rewrite (andb_comm (wy =? -1)%Z), (Z.eqb_sym wy wx).
  destruct ((wx =? -1)%Z && (wy =? -1)%Z); [done|].
  destruct (wx =? wy)%Z; simpl.
  - apply lesss_asym.
  - intros [=H]. apply Z.ltb_lt in H. f_equal. apply Z.ltb_ge. lia.
Qed.

Lemma less_asym upperRune sprintExpr s t :
  less upperRune sprintExpr s t = Done true -> less upperRune sprintExpr t s = Done false.
Proof.
  unfold less. destruct (strf sprintExpr s) as [a| |]; try done.
  destruct (strf sprintExpr t) as [b| |]; try done. rewrite !bind_Done.
  apply lesss_asym.
Qed.

Lemma fieldLess_asym upperRune sprintExpr x y :
  fieldLess upperRune sprintExpr x y = Done true ->
  fieldLess upperRune sprintExpr y x = Done false.
Proof.
  unfold fieldLess. destruct (Names x) as [|n1 r1], (Names y) as [|n2 r2]; simpl;
    try done.
  - apply less_asym.
  - apply lesss_asym.
Qed.

(** Whatever the length of the slice, the sort returns a rearrangement of
    it when the closure panics on no pair of entries. *)
Lemma sorts_to_permutation {A} (cmp : nat -> nat -> A -> A -> outcome bool)
    (hi : A -> A -> outcome bool) (l : list A) :
  (forall i j x y, j < i -> cmp i j x y = hi x y) ->
  comparable hi l = true ->
  exists out, SliceStable (at_indices cmp) l = Done out /\ out ≡ₚ l.
Proof.
  intros Hhi Hcomp.
  destruct (traced_sorted cmp hi Hhi (fun _ _ => True) l) as (out & _ & Hrun & Harr & _);
    [done|done| |].
  { intros [i x] [j y] Hx%elem_of_tagged Hy%elem_of_tagged _. simpl.
    destruct (comparable_returns hi l x y Hcomp) as [c Hc];
      eauto using list_elem_of_lookup_2.
    exists c. split; [done|]. by destruct c. }
  exists out.*2. split; [done|]. by apply arranges_snd.
Qed.

(** Up to 20 entries, sorting the result again changes nothing, when the
    closure is asymmetric and panics on no pair of entries. *)
Lemma sorts_twice {A} (cmp : nat -> nat -> A -> A -> outcome bool)
    (hi : A -> A -> outcome bool) (l : list A) :
  (forall i j x y, j < i -> cmp i j x y = hi x y) ->
  (forall x y, hi x y = Done true -> hi y x = Done false) ->
  length l <= 20 -> comparable hi l = true ->
  exists out, SliceStable (at_indices cmp) l = Done out /\ out ≡ₚ l /\
    SliceStable (at_indices cmp) out = Done out.
Proof.
  intros Hhi Hasym Hshort Hcomp.
  apply (SliceStable_twice (at_indices cmp) hi (at_indices_hi cmp hi Hhi)
           (fun x => x ∈ l)); [| |done|by apply Forall_forall].
  - intros x y Hx Hy. by apply (comparable_returns hi l).
  - intros x y _ _. apply Hasym.
Qed.

Lemma arranges_elem {A} (l : list A) out p x :
  arranges l out -> out !! p = Some x -> x ∈ tagged l.
Proof. intros Harr Hx. rewrite <- Harr. by apply list_elem_of_lookup_2 in Hx. Qed.

(** When the closure is the strict part of an order of the entries with
    their input positions, the sort is stable on slices of any length,
    and sorting the result again changes nothing. *)
Lemma sorts_stably {A} (cmp : nat -> nat -> A -> A -> outcome bool)
    (hi : A -> A -> outcome bool) (le : nat * A -> nat * A -> Prop) (l : list A) :
  (forall i j x y, j < i -> cmp i j x y = hi x y) ->
  (forall x, le x x) ->
  (forall x y z, le x y -> le y z -> le x z) ->
  (forall x y, le x y -> le y x -> x.1 = y.1) ->
  (forall x y, hi x y = Done true -> hi y x = Done false) ->
  comparable hi l = true ->
  (forall x y, x ∈ tagged l -> y ∈ tagged l -> y.1 < x.1 ->
     exists c : bool, hi x.2 y.2 = Done c /\ if c then le x y else le y x) ->
  exists out, traced cmp l = Done out /\
    SliceStable (at_indices cmp) l = Done out.*2 /\ arranges l out /\
    (forall p q x y, p <= q -> out !! p = Some x -> out !! q = Some y -> le x y) /\
    keepsOrder hi out /\
    SliceStable (at_indices cmp) out.*2 = Done out.*2.
Proof.
  intros Hhi Hrefl Htrans Hanti Hasym Hcomp Hcmp.
  destruct (traced_sorted cmp hi Hhi le l Hrefl Htrans Hcmp)
    as (out & Htr & Hrun & Harr & Hsorted).
  exists out. split; [done|]. split; [done|]. split; [done|]. split; [done|]. split.
  - intros p q x y Hx Hy Hpos Hnot.
    destruct (Nat.lt_trichotomy p q) as [Hlt|[->|Hgt]]; [done| |].
    + simplify_eq. lia.
    + pose proof (Hsorted q p y x ltac:(lia) Hy Hx) as Hyx.
      destruct (Hcmp y x) as (c & Hc & Hle); eauto using arranges_elem.
      rewrite Hnot in Hc. injection Hc as <-.
      pose proof (Hanti x y Hle Hyx). lia.
  - apply (SliceStable_ascending (at_indices cmp) hi (at_indices_hi cmp hi Hhi)).
    intros p q x y Hqp Hx Hy.
    apply list_lookup_fmap_Some in Hx as ([i x'] & ? & Hx). simpl in *. subst x'.
    apply list_lookup_fmap_Some in Hy as ([j y'] & ? & Hy). simpl in *. subst y'.
    pose proof (Hsorted q p _ _ ltac:(lia) Hy Hx) as Hyx.
    pose proof (arranges_elem _ _ _ _ Harr Hx) as Ex.
    pose proof (arranges_elem _ _ _ _ Harr Hy) as Ey.
    assert (i <> j) as Hne.
    { intros ->. pose proof (arranges_inj _ _ _ _ _ _ Harr Hx Hy eq_refl). lia. }
    destruct (comparable_returns hi l x y Hcomp) as [[|] Hc];
      [eapply list_elem_of_lookup_2, arranges_lookup; eauto
      |eapply list_elem_of_lookup_2, arranges_lookup; eauto| |done].
    exfalso. destruct (Nat.lt_ge_cases j i) as [Hlt|Hge].
    + destruct (Hcmp (i, x) (j, y) Ex Ey Hlt) as (c & Hc' & Hle).
      simpl in Hc'. rewrite Hc in Hc'. injection Hc' as <-.
      pose proof (Hanti _ _ Hle Hyx). simpl in *. lia.
    + destruct (Hcmp (j, y) (i, x) Ey Ex ltac:(simpl; lia)) as (c & Hc' & Hle).
      simpl in Hc'. rewrite (Hasym x y Hc) in Hc'. injection Hc' as <-.
      pose proof (Hanti _ _ Hle Hyx). simpl in *. lia.
Qed.

(* ===================================================================== *)
(** ** Further properties of [sortDecls] and [sortFieldList] *)
(* ===================================================================== *)

(** X1.  [sortDecls] neither drops nor duplicates a declaration: on a
    list of any length, with package and import declarations anywhere,
    on which no comparison panics, it returns a rearrangement of the
    list. *)
Theorem sortDecls_permutes (upperRune : string -> bool) (ds : list Decl) :
  comparable (hiLess upperRune) ds = true ->
  exists out, sortDecls upperRune ds = Done out /\ out ≡ₚ ds.
Proof. apply sorts_to_permutation, declLess_hi. Qed.

Lemma sortDecls_permutes_witness :
  exists out, sortDecls up0 [free "b"; importDecl; typ "T"; free "a"] = Done out /\
    out ≡ₚ [free "b"; importDecl; typ "T"; free "a"].
Proof.
  apply (sortDecls_permutes up0 [free "b"; importDecl; typ "T"; free "a"]).
  vm_compute; reflexivity.
Defined.

(** X2.  [sortFieldList] neither drops nor duplicates a member: on a
    member list of any length on which no comparison panics, it returns
    a rearrangement of the list. *)
Theorem sortFieldList_permutes (upperRune : string -> bool) (sprintExpr : Expr -> string)
    (fs : list Field) :
  comparable (fieldLess upperRune sprintExpr) fs = true ->
  exists out, sortFieldList upperRune sprintExpr fs = Done out /\ out ≡ₚ fs.
Proof. apply sorts_to_permutation. done. Qed.

Lemma sortFieldList_permutes_witness :
  exists out, sortFieldList up0 sp0 [member "b"; embedded (Ident "T"); member "A"]
              = Done out /\
    out ≡ₚ [member "b"; embedded (Ident "T"); member "A"].
Proof.
  apply (sortFieldList_permutes up0 sp0 [member "b"; embedded (Ident "T"); member "A"]).
  vm_compute; reflexivity.
Defined.

Lemma name_pinned upperRune d :
  preserveOrder d = true -> name upperRune d = Done ("", (-1)%Z).
Proof. destruct d as [| [] specs |]; simpl; try done. Qed.

(** The weight bucket of a declaration: the first component of its key. *)
Definition bucket (upperRune : string -> bool) (d : Decl) : Z :=
  if preserveOrder d then (-2)%Z
  else match name upperRune d with Done (_, w) => w | _ => 0%Z end.

Lemma declKey_bucket upperRune i d :
  exists t r a, declKey upperRune (i, d) = (bucket upperRune d, t, r, a).
Proof.
  unfold declKey, bucket. simpl. destruct (preserveOrder d); [by eexists _, _, _|].
  destruct (name upperRune d) as [[s w]| |]; try (by eexists _, _, _).
  destruct (Z.eqb_spec w (-1)) as [->|Hw]; [by eexists _, _, _|].
  destruct (splitOnDot s) as [[r n]| |]; by eexists _, _, _.
Qed.

(** X3.  [sortDecls] orders by weight first: when no comparison panics
    and the package and import declarations come first, the weights that
    [name] gives the declarations ascend along the output, so that the
    declarations come out as package and imports, declarations of no
    known kind (-1), [main] (10), exported functions that start with
    [New] (29), other exported functions (30), functions that start with
    [new] (50), types and methods (100), other functions (200). *)
Theorem sortDecls_weights_ascend (upperRune : string -> bool) (ds : list Decl) :
  comparable (hiLess upperRune) ds = true ->
  importsFirstb ds = true ->
  exists out, sortDecls upperRune ds = Done out /\ out ≡ₚ ds /\
    forall p q x y sx wx sy wy, p <= q -> out !! p = Some x -> out !! q = Some y ->
      name upperRune x = Done (sx, wx) -> name upperRune y = Done (sy, wy) ->
      (wx <= wy)%Z.
Proof.
  intros Hcomp Hfirst.
  destruct (sortDecls_ordered upperRune ds Hcomp (importsFirstb_spec ds Hfirst))
    as (out & _ & Hrun & Harr & Hsorted).
  exists out.*2. split; [done|]. split; [by apply arranges_snd|].
  intros p q x y sx wx sy wy Hpq Hx Hy Hnx Hny.
  apply list_lookup_fmap_Some in Hx as ([i x'] & ? & Hx). simpl in *. subst x'.
  apply list_lookup_fmap_Some in Hy as ([j y'] & ? & Hy). simpl in *. subst y'.
  pose proof (Hsorted p q _ _ Hpq Hx Hy) as Hle. unfold declLe in Hle.
  destruct (declKey_bucket upperRune i x) as (tx & rx & ax & Hkx).
  destruct (declKey_bucket upperRune j y) as (ty & ry & ay & Hky).
  rewrite Hkx, Hky in Hle. apply key_le_fst in Hle.
  pose proof (name_weight upperRune _ _ _ Hnx).
  pose proof (name_weight upperRune _ _ _ Hny).
  unfold bucket in Hle. rewrite Hnx, Hny in Hle.
  destruct (preserveOrder x) eqn:Px.
  - rewrite (name_pinned upperRune x Px) in Hnx. simplify_eq. lia.
  - destruct (preserveOrder y); lia.
Qed.

Lemma sortDecls_weights_ascend_witness :
  exists out, sortDecls up0 [importDecl; free "f"; typ "T"; free "main"] = Done out /\
    out ≡ₚ [importDecl; free "f"; typ "T"; free "main"] /\
    forall p q x y sx wx sy wy, p <= q -> out !! p = Some x -> out !! q = Some y ->
      name up0 x = Done (sx, wx) -> name up0 y = Done (sy, wy) -> (wx <= wy)%Z.
Proof.
  apply (sortDecls_weights_ascend up0 [importDecl; free "f"; typ "T"; free "main"]);
    vm_compute; reflexivity.
Defined.

(** X4.  Within one receiver type the methods are ordered by visibility:
    when no comparison panics and the package and import declarations
    come first, the weight adjustments of the names of the methods of
    one receiver type ascend along the output of [sortDecls]: exported
    methods that start with [New] (-3), other exported methods (-2),
    unexported methods (0). *)
Theorem sortDecls_methods_by_visibility (upperRune : string -> bool) (ds : list Decl) :
  comparable (hiLess upperRune) ds = true ->
  importsFirstb ds = true ->
  exists out, sortDecls upperRune ds = Done out /\ out ≡ₚ ds /\
    forall p q r1 n1 r2 n2, p <= q ->
      out !! p = Some (FuncDecl r1 n1) -> out !! q = Some (FuncDecl r2 n2) ->
      fieldListName r1 <> "" -> fieldListName r1 = fieldListName r2 ->
      (weightAdjustment upperRune n1 <= weightAdjustment upperRune n2)%Z.
Proof.
  intros Hcomp Hfirst.
  destruct (sortDecls_ordered upperRune ds Hcomp (importsFirstb_spec ds Hfirst))
    as (out & _ & Hrun & Harr & Hsorted).
  exists out.*2. split; [done|]. split; [by apply arranges_snd|].
  intros p q r1 n1 r2 n2 Hpq Hx Hy Hne Heq.
  apply list_lookup_fmap_Some in Hx as ([i x'] & ? & Hx). simpl in *. subst x'.
  apply list_lookup_fmap_Some in Hy as ([j y'] & ? & Hy). simpl in *. subst y'.
  pose proof (Hsorted p q _ _ Hpq Hx Hy) as Hle. unfold declLe in Hle.
  assert (forall k d, out !! k = Some d -> returns (hiLess upperRune d.2 d.2)) as Hret.
  { intros k [k' d] Hd. apply (arranges_lookup _ _ _ _ _ Harr) in Hd.
    apply list_elem_of_lookup_2 in Hd. by apply (comparable_returns _ ds). }
  rewrite (declKey_method upperRune i (fieldListName r1) r1 n1) in Hle;
    [|done|done|exact (Hret p _ Hx)].
  rewrite (declKey_method upperRune j (fieldListName r1) r2 n2) in Hle;
    [|done|done|exact (Hret q _ Hy)].
  apply key_le_adjusted in Hle. unfold adjusted in Hle. lia.
Qed.

Lemma sortDecls_methods_by_visibility_witness :
  exists out,
    sortDecls up0 [method "T" "b"; typ "T"; method "T" "A"; method "T" "NewT"] = Done out /\
    out ≡ₚ [method "T" "b"; typ "T"; method "T" "A"; method "T" "NewT"] /\
    forall p q r1 n1 r2 n2, p <= q ->
      out !! p = Some (FuncDecl r1 n1) -> out !! q = Some (FuncDecl r2 n2) ->
      fieldListName r1 <> "" -> fieldListName r1 = fieldListName r2 ->
      (weightAdjustment up0 n1 <= weightAdjustment up0 n2)%Z.
Proof.
  apply (sortDecls_methods_by_visibility up0
           [method "T" "b"; typ "T"; method "T" "A"; method "T" "NewT"]);
    vm_compute; reflexivity.
Defined.

(** X5.  Running [sortDecls] on its own output changes nothing, for up
    to 20 declarations on which no comparison panics. *)
Theorem sortDecls_twice (upperRune : string -> bool) (ds : list Decl) :
  length ds <= 20 -> comparable (hiLess upperRune) ds = true ->
  exists out, sortDecls upperRune ds = Done out /\ out ≡ₚ ds /\
    sortDecls upperRune out = Done out.
Proof.
  intros Hshort Hcomp.
  apply (sorts_twice (declLess upperRune) (hiLess upperRune)); try done.
  - apply declLess_hi.
  - apply hiLess_asym.
Qed.

Lemma sortDecls_twice_witness :
  exists out,
    sortDecls up0 [free "seta"; importDecl; free "has"; typ "T"; free "getb"] = Done out /\
    out ≡ₚ [free "seta"; importDecl; free "has"; typ "T"; free "getb"] /\
    sortDecls up0 out = Done out.
Proof.
  apply (sortDecls_twice up0 [free "seta"; importDecl; free "has"; typ "T"; free "getb"]).
  - simpl. lia.
  - vm_compute; reflexivity.
Defined.

(** X6.  Running [sortFieldList] on its own output changes nothing, for
    up to 20 members on which no comparison panics. *)
Theorem sortFieldList_twice (upperRune : string -> bool) (sprintExpr : Expr -> string)
    (fs : list Field) :
  length fs <= 20 -> comparable (fieldLess upperRune sprintExpr) fs = true ->
  exists out, sortFieldList upperRune sprintExpr fs = Done out /\ out ≡ₚ fs /\
    sortFieldList upperRune sprintExpr out = Done out.
Proof.
  intros Hshort Hcomp.
  apply (sorts_twice (fun _ _ => fieldLess upperRune sprintExpr)
           (fieldLess upperRune sprintExpr)); try done.
  apply fieldLess_asym.
Qed.

Lemma sortFieldList_twice_witness :
  exists out,
    sortFieldList up0 sp0 [member "seta"; embedded (Ident "T"); member "Has"] = Done out /\
    out ≡ₚ [member "seta"; embedded (Ident "T"); member "Has"] /\
    sortFieldList up0 sp0 out = Done out.
Proof.
  apply (sortFieldList_twice up0 sp0 [member "seta"; embedded (Ident "T"); member "Has"]).
  - simpl. lia.
  - vm_compute; reflexivity.
Defined.

(* ===================================================================== *)
(** ** Lists on which the closure of [sortDecls] is an order *)
(* ===================================================================== *)

(** Something is left of the name after [trimCommonPrefix]: the name is
    not empty and is not one of the prefixes itself, in its own or in
    lower case. *)
Definition properName (n : string) : bool :=
  negb (string_eqb (trimCommonPrefix n).2 "").

Definition properDecl (d : Decl) : bool :=
  match d with
  | FuncDecl _ nm => dotFree nm && properName nm
  | _ => true
  end.

Lemma key_le_antisym k1 k2 : key_le k1 k2 -> key_le k2 k1 -> k1 = k2.
Proof.
  destruct k1 as [[[w1 t1] r1] a1], k2 as [[[w2 t2] r2] a2]. unfold key_le, slt.
  intros [H1|(-> & [H1|(-> & [H1|(-> & H1)])])] [H2|(E2 & [H2|(E3 & [H2|(E4 & H2)])])];
    try lia; simplify_eq; try (by rewrite ltb_irrefl in * );
    try (pose proof (ltb_asym _ _ H1); congruence).
  f_equal. lia.
Qed.

Section FullOrder.

Variable upperRune : string -> bool.

(** What [lesss] compares last: the name part of the key without its
    common prefix. *)
Definition rest (d : Decl) : string :=
  match name upperRune d with
  | Done (s, _) =>
      match splitOnDot s with
      | Done (_, n) => (trimCommonPrefix n).2
      | _ => ""
      end
  | _ => ""
  end.

(** The order of the keys, then of what is left of the names, then of
    the input positions. *)
Definition fullLe (x y : nat * Decl) : Prop :=
  declLe upperRune x y /\
  (declLe upperRune y x ->
   slt (rest x.2) (rest y.2) \/ (rest x.2 = rest y.2 /\ x.1 <= y.1)).

Lemma fullLe_refl x : fullLe x x.
Proof. split; [apply key_le_refl|]. intros _. right. split; [done|lia]. Qed.

Lemma fullLe_trans x y z : fullLe x y -> fullLe y z -> fullLe x z.
Proof.
  unfold fullLe, declLe. intros [Hxy Rxy] [Hyz Ryz].
  split; [by apply (key_le_trans _ (declKey upperRune y))|]. intros Hzx.
  assert (key_le (declKey upperRune y) (declKey upperRune x)) as Hyx
    by (by apply (key_le_trans _ (declKey upperRune z))).
  assert (key_le (declKey upperRune z) (declKey upperRune y)) as Hzy
    by (by apply (key_le_trans _ (declKey upperRune x))).
  destruct (Rxy Hyx) as [H1|[E1 P1]]; destruct (Ryz Hzy) as [H2|[E2 P2]].
  - left. unfold slt in *. by apply (ltb_trans _ (rest y.2)).
  - left. by rewrite <- E2.
  - left. by rewrite E1.
  - right. split; [congruence|lia].
Qed.

Lemma fullLe_antisym x y : fullLe x y -> fullLe y x -> x.1 = y.1.
Proof.
  intros [Hxy Rxy] [Hyx Ryx].
  destruct (Rxy Hyx) as [H1|[E1 P1]]; destruct (Ryx Hxy) as [H2|[E2 P2]];
    unfold slt in *.
  - pose proof (ltb_asym _ _ H1). congruence.
  - rewrite E2, ltb_irrefl in H1. done.
  - rewrite E1, ltb_irrefl in H2. done.
  - lia.
Qed.

(** The name part of the key of a proper declaration is not one of the
    prefixes. *)
Lemma proper_rest d s w r n :
  properDecl d = true -> name upperRune d = Done (s, w) -> (w <> -1)%Z ->
  splitOnDot s = Done (r, n) -> (trimCommonPrefix n).2 <> "".
Proof.
  intros Hp Hn Hw Hs. destruct d as [recv nm|tok specs|].
  - simpl in Hp. apply andb_true_iff in Hp as [Hd%Nat.eqb_eq Hp].
    unfold name in Hn.
    destruct (funcName upperRune (FuncDecl recv nm)) as [[s' w']| |] eqn:Hf; try done.
    apply funcName_weight in Hf. rewrite bind_Done in Hn.
    destruct (string_eqb (fieldListName recv) "").
    + destruct Hf as [-> Hf]. destruct (Z.eqb_spec w' (-1)); [lia|]. simpl in Hn.
      injection Hn as <- <-. rewrite (splitOnDot_nodot nm Hd) in Hs.
      injection Hs as <- <-.
      unfold properName in Hp. apply negb_true_iff in Hp. by apply string_eqb_neq.
    + destruct Hf as [-> ->]. simpl in Hn. injection Hn as <- <-.
      apply splitOnDot_join in Hs as (_ & -> & _).
      unfold properName in Hp. apply negb_true_iff in Hp. by apply string_eqb_neq.
  - cbn in Hn. destruct tok; simpl in Hn; try (by simplify_eq).
    destruct specs as [|[tn| |] specs]; simpl in Hn; try done.
    injection Hn as <- <-. apply splitOnDot_join in Hs as (_ & -> & _). done.
  - cbn in Hn. by simplify_eq.
Qed.

(** On two declarations with one key the closure compares what is left
    of the names. *)
Lemma hiLess_equal_keys i j x y :
  returns (hiLess upperRune x x) -> returns (hiLess upperRune y y) ->
  properDecl x = true -> properDecl y = true ->
  declKey upperRune (i, x) = declKey upperRune (j, y) -> i <> j ->
  hiLess upperRune x y = Done (String.ltb (rest x) (rest y)).
Proof.
  intros Rx Ry Hpx Hpy Hk Hij. unfold declKey in Hk. simpl in Hk. unfold rest.
  destruct (preserveOrder x) eqn:Px.
  { destruct (preserveOrder y) eqn:Py; [by simplify_eq|].
    destruct (name upperRune y) as [[sy wy]| |] eqn:Hny; try (by simplify_eq).
    pose proof (name_weight upperRune _ _ _ Hny).
    destruct (Z.eqb_spec wy (-1)); [by simplify_eq|].
    destruct (splitOnDot sy) as [[? ?]| |]; simplify_eq; lia. }
  destruct (name_cases upperRune x Rx Px) as (sx & wx & Hnx & Hwx).
  pose proof (name_weight upperRune _ _ _ Hnx) as Hx1.
  rewrite Hnx in Hk |- *.
  destruct (preserveOrder y) eqn:Py.
  { destruct (Z.eqb_spec wx (-1)); [by simplify_eq|].
    destruct (splitOnDot sx) as [[? ?]| |]; simplify_eq; lia. }
  destruct (name_cases upperRune y Ry Py) as (sy & wy & Hny & Hwy).
  pose proof (name_weight upperRune _ _ _ Hny) as Hy1.
  rewrite Hny in Hk |- *.
  destruct Hwx as [->|(Hwx & rx & nx & Hsx)].
  { simpl in Hk. destruct (Z.eqb_spec wy (-1)); [by simplify_eq|].
    destruct (splitOnDot sy) as [[? ?]| |]; simplify_eq; lia. }
  destruct Hwy as [->|(Hwy & ry & ny & Hsy)].
  { simpl in Hk. destruct (Z.eqb_spec wx (-1)); [done|].
    destruct (splitOnDot sx) as [[? ?]| |]; simplify_eq; lia. }
  rewrite Hsx, Hsy in Hk |- *.
  destruct (Z.eqb_spec wx (-1)); [done|]. destruct (Z.eqb_spec wy (-1)); [done|].
  injection Hk as -> -> Ha.
  rewrite (hiLess_eval upperRune x y sx wy sy wy Px Py Hnx Hny).
  destruct (Z.eqb_spec wy (-1)); [done|]. rewrite Z.eqb_refl. cbn [andb negb].
  rewrite (lesss_eval upperRune sx sy ry nx ry ny Hsx Hsy). f_equal.
  apply lesss_parts_tie.
  - unfold adjusted in Ha. lia.
  - by apply (proper_rest x sx wy ry nx).
  - by apply (proper_rest y sy wy ry ny).
Qed.

(** On a list of proper declarations with the package and import
    declarations in front, the closure is the strict part of [fullLe]. *)
Lemma full_cmp ds x y :
  comparable (hiLess upperRune) ds = true -> importsFirst ds ->
  forallb properDecl ds = true ->
  x ∈ tagged ds -> y ∈ tagged ds -> y.1 < x.1 ->
  exists c : bool, hiLess upperRune x.2 y.2 = Done c /\
    if c then fullLe x y else fullLe y x.
Proof.
  intros Hcomp Hfirst Hproper Hx Hy Hpos.
  destruct (decl_cmp upperRune ds x y Hcomp Hfirst Hx Hy Hpos) as (c & Hc & Hle).
  exists c. split; [done|].
  destruct x as [i dx], y as [j dy]. simpl in *.
  apply elem_of_tagged in Hx, Hy.
  apply list_elem_of_lookup_2 in Hx, Hy.
  rewrite forallb_forall in Hproper.
  assert (forall Hle' : declKey upperRune (i, dx) = declKey upperRune (j, dy),
            c = String.ltb (rest dx) (rest dy)) as Htie.
  { intros Hk.
    rewrite (hiLess_equal_keys i j dx dy) in Hc; try done; try lia.
    - by simplify_eq.
    - by apply (comparable_returns _ ds).
    - by apply (comparable_returns _ ds).
    - by apply Hproper, list_elem_of_In.
    - by apply Hproper, list_elem_of_In. }
  destruct c; (split; [done|]); intros Hle'; simpl.
  - left. unfold slt. symmetry. apply Htie. by apply key_le_antisym.
  - assert (String.ltb (rest dx) (rest dy) = false) as Hlt
      by (symmetry; apply Htie; by apply key_le_antisym).
    destruct (String.eqb_spec (rest dy) (rest dx)) as [E|E].
    + right. split; [done|lia].
    + left. apply ltb_total; [congruence|done].
Qed.

End FullOrder.

(** [sortDecls] on a list of proper declarations with the package and
    import declarations in front. *)
Lemma sortDecls_proper upperRune ds :
  comparable (hiLess upperRune) ds = true -> importsFirst ds ->
  forallb properDecl ds = true ->
  exists out, sortDecls_traced upperRune ds = Done out /\
    sortDecls upperRune ds = Done out.*2 /\ arranges ds out /\
    (forall p q x y, p <= q -> out !! p = Some x -> out !! q = Some y ->
       fullLe upperRune x y) /\
    keepsOrder (hiLess upperRune) out /\
    sortDecls upperRune out.*2 = Done out.*2.
Proof.
  intros Hcomp Hfirst Hproper.
  apply (sorts_stably (declLess upperRune) (hiLess upperRune) (fullLe upperRune)).
  - apply declLess_hi.
  - apply fullLe_refl.
  - apply fullLe_trans.
  - apply fullLe_antisym.
  - apply hiLess_asym.
  - done.
  - intros x y Hx Hy Hpos. by apply (full_cmp upperRune ds).
Qed.

(** X7.  [sortDecls] is stable on lists of any length when the closure
    is an order on them: when no comparison panics, the package and
    import declarations come first and every function name is free of
    dots and is not one of the common prefixes itself (so that something
    is left of it after [trimCommonPrefix]), two declarations keep their
    input order unless the later one compares less than the earlier one;
    in particular two declarations of which neither compares less than
    the other keep their order. *)
Theorem sortDecls_stable_proper (upperRune : string -> bool) (ds : list Decl) :
  comparable (hiLess upperRune) ds = true ->
  importsFirstb ds = true ->
  forallb properDecl ds = true ->
  exists out, sortDecls_traced upperRune ds = Done out /\
    sortDecls upperRune ds = Done out.*2 /\ arranges ds out /\
    keepsOrder (hiLess upperRune) out /\ stableOrder (hiLess upperRune) out.
Proof.
  intros Hcomp Hfirst%importsFirstb_spec Hproper.
  destruct (sortDecls_proper upperRune ds Hcomp Hfirst Hproper)
    as (out & Htr & Hrun & Harr & _ & Hkeeps & _).
  exists out. repeat split; try done. by apply keepsOrder_stable.
Qed.

(** Twenty-one unexported free functions of which something is left
    after [trimCommonPrefix]. *)
Definition proper_across_blocks : list Decl :=
  map free ["b"; "c"; "hasa"; "seta"; "d"; "e"; "f"; "g"; "h"; "i"; "j"; "k"; "l"; "m";
            "n"; "o"; "p"; "q"; "r"; "s"; "geta"].

Lemma sortDecls_stable_proper_witness :
  exists out, sortDecls_traced up0 proper_across_blocks = Done out /\
    sortDecls up0 proper_across_blocks = Done out.*2 /\
    arranges proper_across_blocks out /\
    keepsOrder (hiLess up0) out /\ stableOrder (hiLess up0) out.
Proof.
  apply (sortDecls_stable_proper up0 proper_across_blocks); vm_compute; reflexivity.
Defined.

(** X8.  Under the same conditions running [sortDecls] on its own output
    changes nothing, whatever the length of the list. *)
Theorem sortDecls_twice_proper (upperRune : string -> bool) (ds : list Decl) :
  comparable (hiLess upperRune) ds = true ->
  importsFirstb ds = true ->
  forallb properDecl ds = true ->
  exists out, sortDecls upperRune ds = Done out /\ out ≡ₚ ds /\
    sortDecls upperRune out = Done out.
Proof.
  intros Hcomp Hfirst%importsFirstb_spec Hproper.
  destruct (sortDecls_proper upperRune ds Hcomp Hfirst Hproper)
    as (out & Htr & Hrun & Harr & _ & _ & Htwice).
  exists out.*2. split; [done|]. split; [by apply arranges_snd|done].
Qed.

Lemma sortDecls_twice_proper_witness :
  exists out, sortDecls up0 (importDecl :: proper_across_blocks) = Done out /\
    out ≡ₚ importDecl :: proper_across_blocks /\
    sortDecls up0 out = Done out.
Proof.
  apply (sortDecls_twice_proper up0 (importDecl :: proper_across_blocks));
    vm_compute; reflexivity.
Defined.

(* ===================================================================== *)
(** ** Further properties of the helpers *)
(* ===================================================================== *)

Lemma HasPrefix_app s p q :
  strings_HasPrefix s (p ++ q) = true -> strings_HasPrefix s p = true.
Proof.
  unfold strings_HasPrefix. revert s. induction p as [|a p IH]; intros s; simpl; [done|].
  destruct s as [|b s]; [done|]. destruct (Ascii.eqb a b); [apply IH|done].
Qed.

Lemma HasPrefix_New_upper upperRune n :
  strings_HasPrefix n "New" = true -> firstUpper upperRune n = true.
Proof. intros H%HasPrefix_true. rewrite H. reflexivity. Qed.

Lemma weightAdjustment_cases upperRune n :
  weightAdjustment upperRune n =
    if string_eqb n magicTypeMarker then (-5)%Z
    else if strings_HasPrefix n "New" then (-3)%Z
    else if firstUpper upperRune n then (-2)%Z else 0%Z.
Proof.
  unfold weightAdjustment. destruct (string_eqb n magicTypeMarker) eqn:E.
  - apply string_eqb_eq in E. subst n. reflexivity.
  - destruct (strings_HasPrefix n "New") eqn:HN.
    + by rewrite (HasPrefix_New_upper upperRune n HN).
    + by destruct (firstUpper upperRune n).
Qed.

(** X9.  [weightAdjustment] takes four values only: -5 for the name
    [______], -3 for a name that starts with [New] (such a name is
    exported, so that the two deductions always come together), -2 for
    another exported name and 0 for any other name; the weights that
    [lesss] compares are therefore 95, 97, 98 and 100. *)
Theorem weightAdjustment_values (upperRune : string -> bool) (n : string) :
  weightAdjustment upperRune n =
    (if string_eqb n magicTypeMarker then (-5)%Z
     else if strings_HasPrefix n "New" then (-3)%Z
     else if firstUpper upperRune n then (-2)%Z else 0%Z)
  /\ (strings_HasPrefix n "New" = true -> firstUpper upperRune n = true)
  /\ In (adjusted upperRune n) [95%Z; 97%Z; 98%Z; 100%Z].
Proof.
  split; [apply weightAdjustment_cases|]. split; [apply HasPrefix_New_upper|].
  unfold adjusted. rewrite weightAdjustment_cases.
  destruct (string_eqb n magicTypeMarker); [simpl; auto|].
  destruct (strings_HasPrefix n "New"); [simpl; auto|].
  destruct (firstUpper upperRune n); simpl; auto.
Qed.

Lemma trimCommonPrefix_not_Error s : (trimCommonPrefix s).1 <> "Error".
Proof.
  pose proof (HasPrefix_app s "Err" "or") as HE.
  change ("Err" ++ "or") with "Error" in HE.
  pose proof (HasPrefix_app s (strings_ToLower "Err") "or") as He.
  change (strings_ToLower "Err" ++ "or") with (strings_ToLower "Error") in He.
  unfold trimCommonPrefix, commonPrefixes. cbn [trimCommonPrefix_loop].
  repeat match goal with
  | |- context [strings_HasPrefix s ?p] =>
      let H := fresh "H" in destruct (strings_HasPrefix s p) eqn:H; [simpl; try discriminate|]
  end; try (simpl; discriminate).
  - specialize (HE eq_refl). discriminate.
  - specialize (He eq_refl). discriminate.
Qed.

(** X10.  The entry [Error] of [commonPrefixes] is never used: [Err]
    stands in front of it in the list and matches every name that
    [Error] matches, so that [trimCommonPrefix] never returns the prefix
    [Error], and a name that starts with [Error] or [error] is split
    after [Err]. *)
Theorem trimCommonPrefix_Error_shadowed (s t : string) :
  (trimCommonPrefix s).1 <> "Error"
  /\ trimCommonPrefix ("Error" ++ t) = ("Err", "or" ++ t)
  /\ trimCommonPrefix ("error" ++ t) = ("Err", "or" ++ t).
Proof. split; [apply trimCommonPrefix_not_Error|]. split; reflexivity. Qed.

(** X11.  What [name] returns, by kind of declaration: a function gets
    one of the weights 10, 29, 30, 50, 100, 200 and never -1; a type
    declaration whose first specification is a type specification gets
    the key [Name.______] and the weight 100; every other declaration
    gets the empty key and the weight -1.  [name] panics on type
    declarations only: with an index out of range when the declaration
    has no specification (the empty group [type ()]), with a failed type
    assertion when its first specification is not a type specification. *)
Theorem name_outcomes (upperRune : string -> bool) (d : Decl) :
  match name upperRune d with
  | Done (s, w) =>
      if isFuncDecl d then In w [10; 29; 30; 50; 100; 200]%Z
      else match d with
           | GenDecl TYPE (TypeSpec n :: _) => s = n ++ "." ++ magicTypeMarker /\ w = 100%Z
           | _ => s = "" /\ w = (-1)%Z
           end
  | Panic p =>
      match d with
      | GenDecl TYPE [] => p = IndexOutOfRange
      | GenDecl TYPE (spec :: _) => p = TypeAssertion /\ forall n, spec <> TypeSpec n
      | _ => False
      end
  | OutOfFuel => False
  end.
Proof.
  destruct d as [recv nm|tok specs|].
  - destruct (funcName_returns upperRune recv nm) as [[s w] Hf].
    pose proof (funcName_weight upperRune recv nm s w Hf) as Hw.
    unfold name. rewrite Hf, bind_Done. simpl isFuncDecl. cbv iota.
    destruct (string_eqb (fieldListName recv) "").
    + destruct Hw as [_ Hw]. destruct (Z.eqb_spec w (-1)); [lia|]. simpl.
      destruct Hw as [-> | [-> | [-> | [-> | ->]]]]; auto 10.
    + destruct Hw as [_ ->]. simpl. auto 10.
  - destruct tok; try (by cbn).
    destruct specs as [|[n| |] specs]; cbn; try done; split; done.
  - by cbn.
Qed.

Lemma string_app_nil_r (s : string) : s ++ "" = s.
Proof. induction s as [|c s IH]; simpl; [done|by rewrite IH]. Qed.

Lemma string_app_assoc (s t u : string) : (s ++ t) ++ u = s ++ (t ++ u).
Proof. induction s as [|c s IH]; simpl; [done|by rewrite IH]. Qed.

Lemma fieldListName_acc (fs : list Field) (acc : string) :
  fold_left (fun b v => b ++ fieldTypeName v) fs acc
  = acc ++ fold_left (fun b v => b ++ fieldTypeName v) fs "".
Proof.
  revert acc. induction fs as [|f fs IH]; intros acc; simpl.
  - by rewrite string_app_nil_r.
  - rewrite IH. rewrite (IH (fieldTypeName f)). by rewrite string_app_assoc.
Qed.

(** The receiver type is an identifier or a pointer to one. *)
Definition namesReceiver (e : Expr) : bool :=
  match e with
  | Ident _ | StarExpr (Ident _) => true
  | _ => false
  end.

Lemma fieldListName_unnamed (fs : list Field) :
  forallb (fun f => negb (namesReceiver (Type_ f))) fs = true ->
  fieldListName (Some fs) = "".
Proof.
  unfold fieldListName. induction fs as [|f fs IH]; simpl; [done|].
  intros [Hf Hfs]%andb_true_iff. rewrite fieldListName_acc, (IH Hfs), string_app_nil_r.
  unfold fieldTypeName. by destruct (Type_ f) as [n| |[n| | |]|].
Qed.

(** X12.  [fieldListName] joins the names of the receiver types that are
    an identifier [T] or a pointer [*T] to one and skips every other
    receiver type.  A method whose receiver type is of another shape - a
    generic receiver such as [*Stack[T]] - therefore has the empty
    receiver name, and [sortDecls] keys, weighs and compares it as the
    free function of the same name; a receiver [T] or [*T] gives the key
    [T.name] and the weight 100. *)
Theorem receiver_names (upperRune : string -> bool) (fs fs' : list Field)
    (names : list string) (T nm : string) :
  forallb (fun f => negb (namesReceiver (Type_ f))) fs = true ->
  T <> "" ->
  fieldListName (Some (fs ++ fs')%list) = fieldListName (Some fs')
  /\ fieldListName (Some fs) = fieldListName None
  /\ name upperRune (FuncDecl (Some fs) nm) = name upperRune (FuncDecl None nm)
  /\ (forall i j d,
        declLess upperRune i j (FuncDecl (Some fs) nm) d
        = declLess upperRune i j (FuncDecl None nm) d
        /\ declLess upperRune i j d (FuncDecl (Some fs) nm)
           = declLess upperRune i j d (FuncDecl None nm))
  /\ name upperRune (FuncDecl (Some [mkField names (Ident T)]) nm)
     = Done (T ++ "." ++ nm, 100%Z)
  /\ name upperRune (FuncDecl (Some [mkField names (StarExpr (Ident T))]) nm)
     = Done (T ++ "." ++ nm, 100%Z).
Proof.
  intros Hfs HT. pose proof (fieldListName_unnamed fs Hfs) as Hnil.
  assert (name upperRune (FuncDecl (Some fs) nm) = name upperRune (FuncDecl None nm)) as Hn.
  { unfold name, funcName. by rewrite Hnil. }
  split.
  { unfold fieldListName in *. rewrite fold_left_app, Hnil. done. }
  split; [done|]. split; [done|]. split.
  { intros i j d. unfold declLess. simpl preserveOrder. by rewrite Hn. }
  assert (forall e, fieldTypeName (mkField names e) = T ->
            name upperRune (FuncDecl (Some [mkField names e]) nm)
            = Done (T ++ "." ++ nm, 100%Z)) as Hone.
  { intros e He. unfold name, funcName, fieldListName. simpl fold_left. rewrite He.
    apply string_eqb_neq in HT. rewrite HT. reflexivity. }
  split; by apply Hone.
Qed.

Lemma receiver_names_witness :
  fieldListName (Some ([mkField ["s"] (StarExpr (OtherExpr "IndexExpr"))] ++ [])%list)
  = fieldListName (Some [])
  /\ fieldListName (Some [mkField ["s"] (StarExpr (OtherExpr "IndexExpr"))])
     = fieldListName None
  /\ name up0 (FuncDecl (Some [mkField ["s"] (StarExpr (OtherExpr "IndexExpr"))]) "Push")
     = name up0 (FuncDecl None "Push")
  /\ (forall i j d,
        declLess up0 i j
          (FuncDecl (Some [mkField ["s"] (StarExpr (OtherExpr "IndexExpr"))]) "Push") d
        = declLess up0 i j (FuncDecl None "Push") d
        /\ declLess up0 i j d
             (FuncDecl (Some [mkField ["s"] (StarExpr (OtherExpr "IndexExpr"))]) "Push")
           = declLess up0 i j d (FuncDecl None "Push"))
  /\ name up0 (FuncDecl (Some [mkField ["s"] (Ident "Stack")]) "Push")
     = Done ("Stack" ++ "." ++ "Push", 100%Z)
  /\ name up0 (FuncDecl (Some [mkField ["s"] (StarExpr (Ident "Stack"))]) "Push")
     = Done ("Stack" ++ "." ++ "Push", 100%Z).
Proof.
  apply (receiver_names up0 [mkField ["s"] (StarExpr (OtherExpr "IndexExpr"))] []
           ["s"] "Stack" "Push"); [reflexivity|discriminate].
Defined.

(* ===================================================================== *)
(** ** [lesss] on names of which something is left *)
(* ===================================================================== *)

Definition properKey (s : string) : bool :=
  match splitOnDot s with
  | Done (_, n) => properName n
  | _ => false
  end.

Section NameOrder.

Variable upperRune : string -> bool.

(** Receiver, adjusted weight and what is left of the name, compared in
    that order. *)
Definition partsLt (r1 n1 r2 n2 : string) : Prop :=
  slt r1 r2 \/
  (r1 = r2 /\
   ((adjusted upperRune n1 < adjusted upperRune n2)%Z \/
    (adjusted upperRune n1 = adjusted upperRune n2 /\
     slt (trimCommonPrefix n1).2 (trimCommonPrefix n2).2))).

Lemma lesss_parts_proper r1 n1 r2 n2 :
  properName n1 = true -> properName n2 = true ->
  lesss_parts upperRune r1 n1 r2 n2 = true <-> partsLt r1 n1 r2 n2.
Proof.
  intros H1%negb_true_iff%string_eqb_neq H2%negb_true_iff%string_eqb_neq.
  unfold partsLt, slt.
  destruct (String.eqb_spec r1 r2) as [->|Hr].
  - destruct (Z.eq_dec (adjusted upperRune n1) (adjusted upperRune n2)) as [Ea|Na].
    + rewrite lesss_parts_tie; [|unfold adjusted in Ea; lia|done|done]. split.
      * intros H. right. split; [done|]. right. done.
      * intros [H|(_ & [H|(_ & H)])]; [by rewrite ltb_irrefl in H|lia|done].
    + unfold lesss_parts. rewrite (proj2 (string_eqb_eq r2 r2) eq_refl). simpl.
      fold (adjusted upperRune n1). fold (adjusted upperRune n2).
      destruct (Z.eqb_spec (adjusted upperRune n1) (adjusted upperRune n2)); [done|].
      simpl. rewrite Z.ltb_lt. split.
      * intros H. right. split; [done|]. by left.
      * intros [H|(_ & [H|(E & _)])]; [by rewrite ltb_irrefl in H|done|done].
  - unfold lesss_parts. rewrite (proj2 (string_eqb_neq r1 r2) Hr). simpl. split.
    + by left.
    + intros [H|(E & _)]; done.
Qed.

Lemma partsLt_trans r1 n1 r2 n2 r3 n3 :
  partsLt r1 n1 r2 n2 -> partsLt r2 n2 r3 n3 -> partsLt r1 n1 r3 n3.
Proof.
  unfold partsLt, slt.
  intros [H1|(-> & [H1|(E1 & H1)])] [H2|(-> & [H2|(E2 & H2)])];
    try (left; by eauto using ltb_trans); right; (split; [done|]);
    try (left; lia). right. split; [lia|]. by eauto using ltb_trans.
Qed.

Lemma partsLt_total r1 n1 r2 n2 :
  partsLt r1 n1 r2 n2 \/ partsLt r2 n2 r1 n1 \/
  (r1 = r2 /\ adjusted upperRune n1 = adjusted upperRune n2 /\
   (trimCommonPrefix n1).2 = (trimCommonPrefix n2).2).
Proof.
  unfold partsLt, slt.
  destruct (String.eqb_spec r1 r2) as [->|Hr].
  - destruct (Z.lt_trichotomy (adjusted upperRune n1) (adjusted upperRune n2))
      as [H|[H|H]]; [left; right; split; auto| |right; left; right; split; auto].
    destruct (String.eqb_spec (trimCommonPrefix n1).2 (trimCommonPrefix n2).2) as [E|E].
    + right. right. done.
    + destruct (String.ltb (trimCommonPrefix n1).2 (trimCommonPrefix n2).2) eqn:Hlt.
      * left. right. split; [done|]. right. done.
      * right. left. right. split; [done|]. right. split; [done|].
        by apply ltb_total.
  - destruct (String.ltb r1 r2) eqn:Hlt; [left; by left|].
    right. left. left. by apply ltb_total.
Qed.

Lemma partsLt_tie r1 n1 r2 n2 r3 n3 :
  r1 = r2 /\ adjusted upperRune n1 = adjusted upperRune n2 /\
    (trimCommonPrefix n1).2 = (trimCommonPrefix n2).2 ->
  (partsLt r1 n1 r3 n3 <-> partsLt r2 n2 r3 n3) /\
  (partsLt r3 n3 r1 n1 <-> partsLt r3 n3 r2 n2).
Proof. intros (-> & Ea & Er). unfold partsLt. by rewrite Ea, Er. Qed.

Lemma partsLt_irrefl r n : ~ partsLt r n r n.
Proof.
  unfold partsLt, slt. intros [H|(_ & [H|(_ & H)])];
    [by rewrite ltb_irrefl in H|lia|by rewrite ltb_irrefl in H].
Qed.

End NameOrder.

(** X13.  On keys of which something is left of the name part after
    [trimCommonPrefix] (the name is not empty and is not one of the
    prefixes itself), [lesss] is a strict weak order: it is transitive,
    and so is its incomparability; it compares the receiver, then the
    adjusted weight, then what is left of the name. *)
Theorem lesss_order_proper (upperRune : string -> bool) (s1 s2 s3 : string) :
  properKey s1 = true -> properKey s2 = true -> properKey s3 = true ->
  (lesss upperRune s1 s2 = Done true -> lesss upperRune s2 s3 = Done true ->
   lesss upperRune s1 s3 = Done true)
  /\ (lesss upperRune s1 s2 = Done false -> lesss upperRune s2 s3 = Done false ->
      lesss upperRune s1 s3 = Done false)
  /\ lesss upperRune s1 s1 = Done false.
Proof.
  unfold properKey.
  destruct (splitOnDot s1) as [[r1 n1]| |] eqn:E1; try done.
  destruct (splitOnDot s2) as [[r2 n2]| |] eqn:E2; try done.
  destruct (splitOnDot s3) as [[r3 n3]| |] eqn:E3; try done.
  intros P1 P2 P3.
  rewrite (lesss_eval upperRune s1 s2 r1 n1 r2 n2 E1 E2).
  rewrite (lesss_eval upperRune s2 s3 r2 n2 r3 n3 E2 E3).
  rewrite (lesss_eval upperRune s1 s3 r1 n1 r3 n3 E1 E3).
  rewrite (lesss_eval upperRune s1 s1 r1 n1 r1 n1 E1 E1).
  pose proof (lesss_parts_proper upperRune r1 n1 r2 n2 P1 P2) as H12.
  pose proof (lesss_parts_proper upperRune r2 n2 r3 n3 P2 P3) as H23.
  pose proof (lesss_parts_proper upperRune r1 n1 r3 n3 P1 P3) as H13.
  pose proof (lesss_parts_proper upperRune r1 n1 r1 n1 P1 P1) as H11.
  split; [|split].
  - intros [=A] [=B]. f_equal. apply H13.
    apply (partsLt_trans upperRune _ _ r2 n2); [by apply H12|by apply H23].
  - intros [=A] [=B]. f_equal.
    destruct (lesss_parts upperRune r1 n1 r3 n3) eqn:C; [|done]. exfalso.
    assert (partsLt upperRune r1 n1 r3 n3) as C' by (by apply H13).
    destruct (partsLt_total upperRune r1 n1 r2 n2) as [T|[T|T]].
    + apply H12 in T. congruence.
    + assert (partsLt upperRune r2 n2 r3 n3) as T'
        by (by apply (partsLt_trans upperRune _ _ r1 n1)).
      apply H23 in T'. congruence.
    + apply (partsLt_tie upperRune _ _ _ _ r3 n3) in T as [T _].
      apply T, H23 in C'. congruence.
  - f_equal. destruct (lesss_parts upperRune r1 n1 r1 n1) eqn:C; [|done].
    assert (partsLt upperRune r1 n1 r1 n1) as C' by (by apply H11).
    by apply partsLt_irrefl in C'.
Qed.

Lemma lesss_order_proper_witness :
  (lesss up0 "T.seta" "T.getb" = Done true -> lesss up0 "T.getb" "T.hasc" = Done true ->
   lesss up0 "T.seta" "T.hasc" = Done true)
  /\ (lesss up0 "T.seta" "T.getb" = Done false -> lesss up0 "T.getb" "T.hasc" = Done false ->
      lesss up0 "T.seta" "T.hasc" = Done false)
  /\ lesss up0 "T.seta" "T.seta" = Done false.
Proof.
  apply (lesss_order_proper up0 "T.seta" "T.getb" "T.hasc"); reflexivity.
Defined.

Lemma sortDecls_pair upperRune d0 d1 :
  sortDecls upperRune [d0; d1]
  = (b ← declLess upperRune 1 0 d1 d0; Done (if b : bool then [d1; d0] else [d0; d1])).
Proof.
  unfold sortDecls, SliceStable, stable. cbn.
  by destruct (declLess upperRune 1 0 d1 d0) as [[|]| |].
Qed.

(** X14.  Lists of fewer than two entries are returned as they are,
    without a comparison, whatever they hold; on two declarations
    [sortDecls] makes one call of its closure, the second declaration
    against the first, and swaps the two when the answer is yes; a panic
    of that call is the panic of [sortDecls]. *)
Theorem sortDecls_up_to_two (upperRune : string -> bool) (d0 d1 : Decl) :
  sortDecls upperRune [] = Done []
  /\ sortDecls upperRune [d0] = Done [d0]
  /\ sortDecls upperRune [d0; d1]
     = (b ← declLess upperRune 1 0 d1 d0; Done (if b : bool then [d1; d0] else [d0; d1])).
Proof.
  split; [reflexivity|]. split; [reflexivity|]. apply sortDecls_pair.
Qed.

(* ===================================================================== *)
(** ** Member lists on which the closure of [sortFieldList] is an order *)
(* ===================================================================== *)

Section MemberOrder.

Variable upperRune : string -> bool.
Variable sprintExpr : Expr -> string.

(** The string that the closure hands to [lesss] for a member: its type
    as [strf] prints it when it has no name, else its first name. *)
Definition memberName (f : Field) : outcome string :=
  match Names f with
  | [] => strf sprintExpr (Type_ f)
  | n :: _ => Done n
  end.

Definition memberParts (f : Field) : string * string :=
  match memberName f with
  | Done s => match splitOnDot s with Done p => p | _ => ("", "") end
  | _ => ("", "")
  end.

(** Embedded members in bucket 0, named ones in bucket 1; then the part
    in front of the dot and the adjusted weight of the part behind it. *)
Definition memberKey (x : nat * Field) : key :=
  ((if Nat.eqb (length (Names x.2)) 0 then 0%Z else 1%Z), 0, (memberParts x.2).1,
   adjusted upperRune (memberParts x.2).2).

Definition memberRest (f : Field) : string := (trimCommonPrefix (memberParts f).2).2.

Definition properField (f : Field) : bool := negb (string_eqb (memberRest f) "").

Definition memberLe (x y : nat * Field) : Prop := key_le (memberKey x) (memberKey y).

Definition memberFullLe (x y : nat * Field) : Prop :=
  memberLe x y /\
  (memberLe y x ->
   slt (memberRest x.2) (memberRest y.2) \/
   (memberRest x.2 = memberRest y.2 /\ x.1 <= y.1)).

Lemma memberFullLe_refl x : memberFullLe x x.
Proof. split; [apply key_le_refl|]. intros _. right. split; [done|lia]. Qed.

Lemma memberFullLe_trans x y z : memberFullLe x y -> memberFullLe y z -> memberFullLe x z.
Proof.
  unfold memberFullLe, memberLe. intros [Hxy Rxy] [Hyz Ryz].
  split; [by apply (key_le_trans _ (memberKey y))|]. intros Hzx.
  assert (key_le (memberKey y) (memberKey x)) as Hyx
    by (by apply (key_le_trans _ (memberKey z))).
  assert (key_le (memberKey z) (memberKey y)) as Hzy
    by (by apply (key_le_trans _ (memberKey x))).
  destruct (Rxy Hyx) as [H1|[E1 P1]]; destruct (Ryz Hzy) as [H2|[E2 P2]].
  - left. unfold slt in *. by apply (ltb_trans _ (memberRest y.2)).
  - left. by rewrite <- E2.
  - left. by rewrite E1.
  - right. split; [congruence|lia].
Qed.

Lemma memberFullLe_antisym x y : memberFullLe x y -> memberFullLe y x -> x.1 = y.1.
Proof.
  intros [Hxy Rxy] [Hyx Ryx].
  destruct (Rxy Hyx) as [H1|[E1 P1]]; destruct (Ryx Hxy) as [H2|[E2 P2]];
    unfold slt in *.
  - pose proof (ltb_asym _ _ H1). congruence.
  - rewrite E2, ltb_irrefl in H1. done.
  - rewrite E1, ltb_irrefl in H2. done.
  - lia.
Qed.

(** A member that can be compared with itself has a name that splits. *)
Lemma memberName_returns f :
  returns (fieldLess upperRune sprintExpr f f) ->
  exists s r n, memberName f = Done s /\ splitOnDot s = Done (r, n) /\
    memberParts f = (r, n).
Proof.
  intros [c Hc]. unfold fieldLess, memberParts, memberName in *.
  destruct (Names f) as [|n0 ns]; simpl in Hc.
  - unfold less in Hc. destruct (strf sprintExpr (Type_ f)) as [s| |]; try done.
    rewrite !bind_Done in Hc. unfold lesss in Hc.
    destruct (splitOnDot s) as [[r n]| |] eqn:Hs; try done. by exists s, r, n.
  - unfold lessStringers, lesss in Hc.
    destruct (splitOnDot n0) as [[r n]| |] eqn:Hs; try done. by exists n0, r, n.
Qed.

Lemma fieldLess_eval x y sx sy :
  memberName x = Done sx -> memberName y = Done sy ->
  fieldLess upperRune sprintExpr x y =
    if Nat.eqb (length (Names x)) 0 then
      if Nat.eqb (length (Names y)) 0 then lesss upperRune sx sy else Done true
    else if Nat.eqb (length (Names y)) 0 then Done false else lesss upperRune sx sy.
Proof.
  unfold memberName, fieldLess, less, lessStringers.
  destruct (Names x) as [|n1 r1], (Names y) as [|n2 r2]; simpl.
  - intros -> ->. by rewrite !bind_Done.
  - done.
  - done.
  - by intros [= ->] [= ->].
Qed.

Lemma key_le_same w t r1 a1 r2 a2 :
  slt r1 r2 \/ (r1 = r2 /\ (a1 <= a2)%Z) -> key_le (w, t, r1, a1) (w, t, r2, a2).
Proof. intros H. right. split; [done|]. right. split; [done|]. done. Qed.

(** The closure on two members of one kind. *)
Lemma same_kind_cmp (i j : nat) (b : Z) rx nx ry ny :
  (trimCommonPrefix nx).2 <> "" -> (trimCommonPrefix ny).2 <> "" -> j < i ->
  let kx := (b, 0, rx, adjusted upperRune nx) in
  let ky := (b, 0, ry, adjusted upperRune ny) in
  if lesss_parts upperRune rx nx ry ny
  then key_le kx ky /\
       (key_le ky kx -> slt (trimCommonPrefix nx).2 (trimCommonPrefix ny).2 \/
                        ((trimCommonPrefix nx).2 = (trimCommonPrefix ny).2 /\ i <= j))
  else key_le ky kx /\
       (key_le kx ky -> slt (trimCommonPrefix ny).2 (trimCommonPrefix nx).2 \/
                        ((trimCommonPrefix ny).2 = (trimCommonPrefix nx).2 /\ j <= i)).
Proof.
  intros Px Py Hpos kx ky.
  pose proof (lesss_parts_order upperRune rx nx ry ny) as Ho.
  assert (kx = ky -> lesss_parts upperRune rx nx ry ny
                     = String.ltb (trimCommonPrefix nx).2 (trimCommonPrefix ny).2) as Htie.
  { unfold kx, ky. intros [= -> Ha].
    apply lesss_parts_tie; [unfold adjusted in Ha; lia|done|done]. }
  destruct (lesss_parts upperRune rx nx ry ny).
  - assert (key_le kx ky) as Hle by (by apply key_le_same).
    split; [done|]. intros Hle'. left. unfold slt. symmetry. apply Htie.
    by apply key_le_antisym.
  - assert (key_le ky kx) as Hle by (by apply key_le_same).
    split; [done|]. intros Hle'.
    assert (String.ltb (trimCommonPrefix nx).2 (trimCommonPrefix ny).2 = false) as Hlt
      by (symmetry; apply Htie; by apply key_le_antisym).
    destruct (String.eqb_spec (trimCommonPrefix ny).2 (trimCommonPrefix nx).2) as [E'|E'].
    + right. split; [done|lia].
    + left. apply ltb_total; [congruence|done].
Qed.

(** The closure refines the order of the member keys, and on proper
    members with one key it compares what is left of the names. *)
Lemma member_cmp fs x y :
  comparable (fieldLess upperRune sprintExpr) fs = true ->
  forallb properField fs = true ->
  x ∈ tagged fs -> y ∈ tagged fs -> y.1 < x.1 ->
  exists c : bool, fieldLess upperRune sprintExpr x.2 y.2 = Done c /\
    if c then memberFullLe x y else memberFullLe y x.
Proof.
  intros Hcomp Hproper Hx Hy Hpos. destruct x as [i fx], y as [j fy]. simpl in *.
  apply elem_of_tagged in Hx, Hy. apply list_elem_of_lookup_2 in Hx, Hy.
  rewrite forallb_forall in Hproper.
  pose proof (Hproper fx (proj1 (list_elem_of_In _ _) Hx)) as Px.
  pose proof (Hproper fy (proj1 (list_elem_of_In _ _) Hy)) as Py.
  apply negb_true_iff, string_eqb_neq in Px, Py.
  destruct (memberName_returns fx) as (sx & rx & nx & Hnx & Hsx & Hpx);
    [by apply (comparable_returns _ fs)|].
  destruct (memberName_returns fy) as (sy & ry & ny & Hny & Hsy & Hpy);
    [by apply (comparable_returns _ fs)|].
  rewrite (fieldLess_eval fx fy sx sy Hnx Hny).
  rewrite (lesss_eval upperRune sx sy rx nx ry ny Hsx Hsy).
  unfold memberFullLe, memberLe, memberKey, memberRest in *.
  cbn [fst snd]. rewrite Hpx, Hpy in *. cbn [fst snd] in *.
  destruct (Nat.eqb (length (Names fx)) 0) eqn:Ex;
    destruct (Nat.eqb (length (Names fy)) 0) eqn:Ey.
  - eexists. split; [done|]. by apply same_kind_cmp.
  - exists true. split; [done|]. split; [left; lia|].
    intros Hle. apply key_le_fst in Hle. lia.
  - exists false. split; [done|]. split; [left; lia|].
    intros Hle. apply key_le_fst in Hle. lia.
  - eexists. split; [done|]. by apply same_kind_cmp.
Qed.

End MemberOrder.

Section MemberSorting.

Variable upperRune : string -> bool.
Variable sprintExpr : Expr -> string.

Lemma key_le_same_inv w t r1 a1 r2 a2 :
  key_le (w, t, r1, a1) (w, t, r2, a2) -> slt r1 r2 \/ (r1 = r2 /\ (a1 <= a2)%Z).
Proof. intros [H|[_ [H|[_ H]]]]; [lia|lia|done]. Qed.

Lemma ltb_nil_r s : String.ltb s "" = false.
Proof. unfold String.ltb. by destruct s. Qed.

(** The closure refines the order of the member keys. *)
Lemma member_key_cmp fs x y :
  comparable (fieldLess upperRune sprintExpr) fs = true ->
  x ∈ tagged fs -> y ∈ tagged fs ->
  exists c : bool, fieldLess upperRune sprintExpr x.2 y.2 = Done c /\
    if c then memberLe upperRune sprintExpr x y else memberLe upperRune sprintExpr y x.
Proof.
  intros Hcomp Hx Hy. destruct x as [i fx], y as [j fy]. simpl in *.
  apply elem_of_tagged in Hx, Hy. apply list_elem_of_lookup_2 in Hx, Hy.
  destruct (memberName_returns upperRune sprintExpr fx) as (sx & rx & nx & Hnx & Hsx & Hpx);
    [by apply (comparable_returns _ fs)|].
  destruct (memberName_returns upperRune sprintExpr fy) as (sy & ry & ny & Hny & Hsy & Hpy);
    [by apply (comparable_returns _ fs)|].
  rewrite (fieldLess_eval upperRune sprintExpr fx fy sx sy Hnx Hny).
  rewrite (lesss_eval upperRune sx sy rx nx ry ny Hsx Hsy).
  unfold memberLe, memberKey. cbn [fst snd]. rewrite Hpx, Hpy. cbn [fst snd].
  pose proof (lesss_parts_order upperRune rx nx ry ny) as Ho.
  destruct (Nat.eqb (length (Names fx)) 0) eqn:Ex;
    destruct (Nat.eqb (length (Names fy)) 0) eqn:Ey.
  - eexists. split; [done|].
    destruct (lesss_parts upperRune rx nx ry ny); by apply key_le_same.
  - exists true. split; [done|]. left. lia.
  - exists false. split; [done|]. left. lia.
  - eexists. split; [done|].
    destruct (lesss_parts upperRune rx nx ry ny); by apply key_le_same.
Qed.

Lemma sortFieldList_by_key fs :
  comparable (fieldLess upperRune sprintExpr) fs = true ->
  exists out, sortFieldList_traced upperRune sprintExpr fs = Done out /\
    sortFieldList upperRune sprintExpr fs = Done out.*2 /\ arranges fs out /\
    forall p q x y, p <= q -> out !! p = Some x -> out !! q = Some y ->
      memberLe upperRune sprintExpr x y.
Proof.
  intros Hcomp.
  apply (traced_sorted (fun _ _ => fieldLess upperRune sprintExpr)
           (fieldLess upperRune sprintExpr) (fun _ _ _ _ _ => eq_refl)
           (memberLe upperRune sprintExpr)).
  - intros x. apply key_le_refl.
  - intros x y z. apply key_le_trans.
  - intros x y Hx Hy _. by apply (member_key_cmp fs).
Qed.

Lemma sortFieldList_proper fs :
  comparable (fieldLess upperRune sprintExpr) fs = true ->
  forallb (properField sprintExpr) fs = true ->
  exists out, sortFieldList_traced upperRune sprintExpr fs = Done out /\
    sortFieldList upperRune sprintExpr fs = Done out.*2 /\ arranges fs out /\
    (forall p q x y, p <= q -> out !! p = Some x -> out !! q = Some y ->
       memberFullLe upperRune sprintExpr x y) /\
    keepsOrder (fieldLess upperRune sprintExpr) out /\
    sortFieldList upperRune sprintExpr out.*2 = Done out.*2.
Proof.
  intros Hcomp Hproper.
  apply (sorts_stably (fun _ _ => fieldLess upperRune sprintExpr)
           (fieldLess upperRune sprintExpr) (memberFullLe upperRune sprintExpr)).
  - done.
  - apply memberFullLe_refl.
  - apply memberFullLe_trans.
  - apply memberFullLe_antisym.
  - apply fieldLess_asym.
  - done.
  - intros x y Hx Hy Hpos. by apply (member_cmp upperRune sprintExpr fs).
Qed.

(** The parts of the key of an embedded member. *)
Lemma memberParts_selector f px sx :
  returns (fieldLess upperRune sprintExpr f f) ->
  Names f = [] -> Type_ f = SelectorExpr (Ident px) sx ->
  memberParts sprintExpr f = (px, sx).
Proof.
  intros Hret Hn Ht.
  destruct (memberName_returns upperRune sprintExpr f Hret) as (s & r & n & Hs & Hsplit & ->).
  unfold memberName in Hs. rewrite Hn, Ht in Hs. simpl in Hs. injection Hs as <-.
  by apply splitOnDot_join in Hsplit as (-> & -> & _).
Qed.

Lemma memberParts_ident f n :
  Names f = [] -> Type_ f = Ident n -> count_dots n = 0 ->
  memberParts sprintExpr f = ("", n).
Proof.
  intros Hn Ht Hd. unfold memberParts, memberName. rewrite Hn, Ht. simpl.
  by rewrite (splitOnDot_nodot n Hd).
Qed.

End MemberSorting.

(** X15.  Among the embedded members [sortFieldList] orders by package
    first: when no comparison panics, an embedded type without package
    qualifier never follows a qualified one in the output, qualified
    embedded types come out in ascending byte order of their package
    names, and within one package (and among the unqualified ones) in
    ascending order of the adjusted weight of the type name. *)
Theorem sortFieldList_embedded_by_package (upperRune : string -> bool)
    (sprintExpr : Expr -> string) (fs : list Field) :
  comparable (fieldLess upperRune sprintExpr) fs = true ->
  exists out, sortFieldList upperRune sprintExpr fs = Done out /\ out ≡ₚ fs /\
    forall p q x y, p < q -> out !! p = Some x -> out !! q = Some y ->
      Names x = [] -> Names y = [] ->
      (forall px sx py sy,
         Type_ x = SelectorExpr (Ident px) sx -> Type_ y = SelectorExpr (Ident py) sy ->
         String.ltb py px = false /\
         (px = py -> (adjusted upperRune sx <= adjusted upperRune sy)%Z)) /\
      (forall px sx ny,
         Type_ x = SelectorExpr (Ident px) sx -> Type_ y = Ident ny ->
         count_dots ny = 0 -> px = "") /\
      (forall nx ny,
         Type_ x = Ident nx -> Type_ y = Ident ny ->
         count_dots nx = 0 -> count_dots ny = 0 ->
         (adjusted upperRune nx <= adjusted upperRune ny)%Z).
Proof.
  intros Hcomp.
  destruct (sortFieldList_by_key upperRune sprintExpr fs Hcomp)
    as (out & _ & Hrun & Harr & Hsorted).
  exists out.*2. split; [done|]. split; [by apply arranges_snd|].
  intros p q x y Hpq Hx Hy Hnx Hny.
  apply list_lookup_fmap_Some in Hx as ([i x'] & ? & Hx). simpl in *. subst x'.
  apply list_lookup_fmap_Some in Hy as ([j y'] & ? & Hy). simpl in *. subst y'.
  pose proof (Hsorted p q _ _ ltac:(lia) Hx Hy) as Hle.
  assert (forall k d, out !! k = Some d ->
            returns (fieldLess upperRune sprintExpr d.2 d.2)) as Hret.
  { intros k [k' d] Hd. apply (arranges_lookup _ _ _ _ _ Harr) in Hd.
    apply list_elem_of_lookup_2 in Hd. by apply (comparable_returns _ fs). }
  unfold memberLe, memberKey in Hle. cbn [fst snd] in Hle. rewrite Hnx, Hny in Hle.
  simpl in Hle. apply key_le_same_inv in Hle.
  split; [|split].
  - intros px sx py sy Tx Ty.
    rewrite (memberParts_selector upperRune sprintExpr x px sx (Hret p _ Hx) Hnx Tx) in Hle.
    rewrite (memberParts_selector upperRune sprintExpr y py sy (Hret q _ Hy) Hny Ty) in Hle.
    simpl in Hle. destruct Hle as [Hlt|[-> Ha]].
    + split; [by apply ltb_asym|]. intros ->. unfold slt in Hlt.
      by rewrite ltb_irrefl in Hlt.
    + split; [apply ltb_irrefl|done].
  - intros px sx ny Tx Ty Hd.
    rewrite (memberParts_selector upperRune sprintExpr x px sx (Hret p _ Hx) Hnx Tx) in Hle.
    rewrite (memberParts_ident sprintExpr y ny Hny Ty Hd) in Hle.
    simpl in Hle. destruct Hle as [Hlt|[-> _]]; [|done].
    unfold slt in Hlt. by rewrite ltb_nil_r in Hlt.
  - intros nx ny Tx Ty Hdx Hdy.
    rewrite (memberParts_ident sprintExpr x nx Hnx Tx Hdx) in Hle.
    rewrite (memberParts_ident sprintExpr y ny Hny Ty Hdy) in Hle.
    simpl in Hle. destruct Hle as [Hlt|[_ Ha]]; [|done].
    unfold slt in Hlt. by rewrite ltb_irrefl in Hlt.
Qed.

Lemma sortFieldList_embedded_by_package_witness :
  exists out,
    sortFieldList up0 sp0
      [embedded (SelectorExpr (Ident "io") "Writer"); member "Len"; embedded (Ident "error");
       embedded (SelectorExpr (Ident "fmt") "Stringer")] = Done out /\
    out ≡ₚ [embedded (SelectorExpr (Ident "io") "Writer"); member "Len";
            embedded (Ident "error"); embedded (SelectorExpr (Ident "fmt") "Stringer")] /\
    forall p q x y, p < q -> out !! p = Some x -> out !! q = Some y ->
      Names x = [] -> Names y = [] ->
      (forall px sx py sy,
         Type_ x = SelectorExpr (Ident px) sx -> Type_ y = SelectorExpr (Ident py) sy ->
         String.ltb py px = false /\
         (px = py -> (adjusted up0 sx <= adjusted up0 sy)%Z)) /\
      (forall px sx ny,
         Type_ x = SelectorExpr (Ident px) sx -> Type_ y = Ident ny ->
         count_dots ny = 0 -> px = "") /\
      (forall nx ny,
         Type_ x = Ident nx -> Type_ y = Ident ny ->
         count_dots nx = 0 -> count_dots ny = 0 ->
         (adjusted up0 nx <= adjusted up0 ny)%Z).
Proof.
  apply (sortFieldList_embedded_by_package up0 sp0
           [embedded (SelectorExpr (Ident "io") "Writer"); member "Len";
            embedded (Ident "error"); embedded (SelectorExpr (Ident "fmt") "Stringer")]).
  vm_compute; reflexivity.
Defined.

(** X16.  [sortFieldList] is stable on member lists of any length when
    no comparison panics and something is left of the name part of every
    member's key after [trimCommonPrefix] (no member is named like one
    of the common prefixes itself): two members keep their input order
    unless the later one compares less than the earlier one. *)
Theorem sortFieldList_stable_proper (upperRune : string -> bool)
    (sprintExpr : Expr -> string) (fs : list Field) :
  comparable (fieldLess upperRune sprintExpr) fs = true ->
  forallb (properField sprintExpr) fs = true ->
  exists out, sortFieldList_traced upperRune sprintExpr fs = Done out /\
    sortFieldList upperRune sprintExpr fs = Done out.*2 /\ arranges fs out /\
    keepsOrder (fieldLess upperRune sprintExpr) out /\
    stableOrder (fieldLess upperRune sprintExpr) out.
Proof.
  intros Hcomp Hproper.
  destruct (sortFieldList_proper upperRune sprintExpr fs Hcomp Hproper)
    as (out & Htr & Hrun & Harr & _ & Hkeeps & _).
  exists out. repeat split; try done. by apply keepsOrder_stable.
Qed.

(** Twenty-one members with names of which something is left after
    [trimCommonPrefix], and an embedded type. *)
Definition proper_members : list Field :=
  (map member ["b"; "c"; "hasa"; "seta"; "d"; "e"; "f"; "g"; "h"; "i"; "j"; "k"; "l"; "m";
               "n"; "o"; "p"; "q"; "r"; "s"; "geta"]
   ++ [embedded (SelectorExpr (Ident "io") "Reader")])%list.

Lemma sortFieldList_stable_proper_witness :
  exists out, sortFieldList_traced up0 sp0 proper_members = Done out /\
    sortFieldList up0 sp0 proper_members = Done out.*2 /\ arranges proper_members out /\
    keepsOrder (fieldLess up0 sp0) out /\ stableOrder (fieldLess up0 sp0) out.
Proof.
  apply (sortFieldList_stable_proper up0 sp0 proper_members); vm_compute; reflexivity.
Defined.

(** X17.  Under the same conditions running [sortFieldList] on its own
    output changes nothing, whatever the length of the list. *)
Theorem sortFieldList_twice_proper (upperRune : string -> bool)
    (sprintExpr : Expr -> string) (fs : list Field) :
  comparable (fieldLess upperRune sprintExpr) fs = true ->
  forallb (properField sprintExpr) fs = true ->
  exists out, sortFieldList upperRune sprintExpr fs = Done out /\ out ≡ₚ fs /\
    sortFieldList upperRune sprintExpr out = Done out.
Proof.
  intros Hcomp Hproper.
  destruct (sortFieldList_proper upperRune sprintExpr fs Hcomp Hproper)
    as (out & Htr & Hrun & Harr & _ & _ & Htwice).
  exists out.*2. split; [done|]. split; [by apply arranges_snd|done].
Qed.

Lemma sortFieldList_twice_proper_witness :
  exists out, sortFieldList up0 sp0 proper_members = Done out /\
    out ≡ₚ proper_members /\ sortFieldList up0 sp0 out = Done out.
Proof.
  apply (sortFieldList_twice_proper up0 sp0 proper_members); vm_compute; reflexivity.
Defined.

(* ===================================================================== *)
(** ** How the two sorts end *)
(* ===================================================================== *)

Lemma strf_panics sprintExpr e :
  match strf sprintExpr e with
  | Done _ => True
  | Panic p => p = TypeSwitch
  | OutOfFuel => False
  end.
Proof. by destruct e as [n|[] sel|x|k]. Qed.

Lemma fieldLess_panics upperRune sprintExpr x y :
  match fieldLess upperRune sprintExpr x y with
  | Done _ => True
  | Panic p => p = TooMany \/ p = TypeSwitch
  | OutOfFuel => False
  end.
Proof.
  unfold fieldLess. destruct (Names x) as [|n1 r1], (Names y) as [|n2 r2]; simpl;
    try done.
  - unfold less. pose proof (strf_panics sprintExpr (Type_ x)) as Hx.
    pose proof (strf_panics sprintExpr (Type_ y)) as Hy.
    destruct (strf sprintExpr (Type_ x)) as [a|p|]; [|simpl; auto|done].
    destruct (strf sprintExpr (Type_ y)) as [b|p|]; [|simpl; auto|done].
    rewrite !bind_Done. pose proof (lesss_outcomes upperRune a b) as Hl.
    destruct (lesss upperRune a b) as [c|p|]; [done| |done]. destruct Hl as [-> _]. auto.
  - unfold lessStringers. pose proof (lesss_outcomes upperRune n1 n2) as Hl.
    destruct (lesss upperRune n1 n2) as [c|p|]; [done| |done]. destruct Hl as [-> _]. auto.
Qed.


(** X19.  [sortFieldList] ends on every member list, and nothing but its
    closure can make it panic: either it returns a permutation of the
    list, or it panics with the panic of a comparison of two members of
    the list, which is "too many" (from [splitOnDot]) or the panic of the
    type switch of [less]; reading the first name of a member never
    fails. *)
Theorem sortFieldList_ends (upperRune : string -> bool) (sprintExpr : Expr -> string)
    (fs : list Field) :
  match sortFieldList upperRune sprintExpr fs with
  | Done out => out ≡ₚ fs
  | Panic p =>
      (exists x y, x ∈ fs /\ y ∈ fs /\ fieldLess upperRune sprintExpr x y = Panic p) /\
      (p = TooMany \/ p = TypeSwitch)
  | OutOfFuel => False
  end.
Proof.
  pose proof (SliceStable_guarded (at_indices (fun _ _ => fieldLess upperRune sprintExpr))
                (fieldLess upperRune sprintExpr)
                (at_indices_hi _ _ (fun _ _ _ _ _ => eq_refl))) as H.
  specialize (H (fun x y => ltac:(pose proof (fieldLess_panics upperRune sprintExpr x y) as Hp;
                                   by destruct (fieldLess _ _ _ _))) fs).
  unfold sortFieldList. destruct (SliceStable _ fs) as [out|p|]; [done| |done].
  split; [done|]. destruct H as (x & y & _ & _ & Hp).
  pose proof (fieldLess_panics upperRune sprintExpr x y) as Hq. by rewrite Hp in Hq.
Qed.

(* ===================================================================== *)
(** ** The empty type group *)
(* ===================================================================== *)







(* ===================================================================== *)
(** ** The earlier revision of [main.go]

    The first 270 lines of [main.go] hold the revision before weights
    and prefixes were introduced: [lesss] puts "important" names first
    and compares in byte order otherwise, and the closure of [sortDecls]
    works with a status instead of a weight.  [sortFieldList],
    [fieldListName], [less], [lessStringers], [preserveOrder] and
    [isFuncDecl] read as in the current revision. *)
(* ===================================================================== *)

Module Rev1.

(** [strings.Index(name, ".")]: the index of the first dot, or -1. *)
Fixpoint strings_Index_dot (s : string) : Z :=
  match s with
  | EmptyString => (-1)%Z
  | String c s' =>
      if Ascii.eqb c dot then 0%Z
      else let i := strings_Index_dot s' in
           if (i <? 0)%Z then (-1)%Z else (i + 1)%Z
  end.

(** [s[n:]] *)
Fixpoint slice_from (n : nat) (s : string) : string :=
  match n, s with
  | 0, _ => s
  | S n', String _ s' => slice_from n' s'
  | S _, EmptyString => EmptyString
  end.

Section Gorder.

Variable upperRune : string -> bool.
Variable sprintExpr : Expr -> string.

Definition isImportant (name : string) : bool :=
  let doti := strings_Index_dot name in
  if (doti <=? 0)%Z then true
  else
    let name := slice_from (Z.to_nat (doti + 1)) name in
    (* for _, r := range name { return unicode.IsUpper(r) }; return false *)
    firstUpper upperRune name.

Definition lesss (s1 s2 : string) : bool :=
  let e1 := isImportant s1 in
  let e2 := isImportant s2 in
  if negb (Bool.eqb e1 e2) then (if e1 then true else false)
  else String.ltb s1 s2.

Definition lessStringers (s1 s2 : string) : bool := lesss s1 s2.

Definition less (s t : Expr) : outcome bool :=
  a ← strf sprintExpr s;
  b ← strf sprintExpr t;
  Done (lesss a b).

(** The closures [funcName], [genName] and [name] of [sortDecls]. *)
Definition funcName (d : Decl) : string * Z :=
  match d with
  | FuncDecl recv name => ((fieldListName recv ++ "." ++ name)%string, 0%Z)
  | _ => (EmptyString, (-1)%Z)
  end.

Definition genName (d : Decl) : outcome (string * Z) :=
  match d with
  | GenDecl tok specs =>
      if Token_eqb tok TYPE then
        match specs with
        | [] => Panic IndexOutOfRange
        | TypeSpec n :: _ => Done (n, 0%Z)
        | _ :: _ => Panic TypeAssertion
        end
      else Done (EmptyString, 1%Z)
  | _ => Done (EmptyString, (-1)%Z)
  end.

Definition name (d : Decl) : outcome (string * Z) :=
  let '(s, status) := funcName d in
  if negb (status =? -1)%Z then Done (s, status) else genName d.

Definition declLess (i j : nat) (di dj : Decl) : outcome bool :=
  if preserveOrder di || preserveOrder dj then Done (i <? j)%nat
  else
    '(si, statusi) ← name di;
    '(sj, statusj) ← name dj;
    if (statusi =? 1)%Z || (statusj =? 1)%Z then Done (i <? j)%nat
    else if negb (statusi =? statusj)%Z then Done (statusi =? 0)%Z
    else Done (lesss si sj).

Definition fieldLess (fi fj : Field) : outcome bool :=
  let ni := length (Names fi) in
  let nj := length (Names fj) in
  if Nat.eqb ni 0 && Nat.eqb nj 0 then less (Type_ fi) (Type_ fj)
  else if Nat.eqb ni 0 then Done true
  else if Nat.eqb nj 0 then Done false
  else Done (lessStringers (nth 0 (Names fi) EmptyString) (nth 0 (Names fj) EmptyString)).

Definition sortDecls (decls : list Decl) : outcome (list Decl) :=
  SliceStable (at_indices declLess) decls.

Definition sortFieldList (fields : list Field) : outcome (list Field) :=
  SliceStable (at_indices (fun _ _ => fieldLess)) fields.

End Gorder.

End Rev1.

(** *** [lesss] of the earlier revision is an order *)

Lemma lesss_v1_spec upperRune s1 s2 :
  Rev1.lesss upperRune s1 s2 =
    if Rev1.isImportant upperRune s1
    then (if Rev1.isImportant upperRune s2 then String.ltb s1 s2 else true)
    else (if Rev1.isImportant upperRune s2 then false else String.ltb s1 s2).
Proof.
  unfold Rev1.lesss.
  by destruct (Rev1.isImportant upperRune s1), (Rev1.isImportant upperRune s2).
Qed.

Lemma lesss_v1_asym upperRune s1 s2 :
  Rev1.lesss upperRune s1 s2 = true -> Rev1.lesss upperRune s2 s1 = false.
Proof.
  rewrite !lesss_v1_spec.
  destruct (Rev1.isImportant upperRune s1), (Rev1.isImportant upperRune s2);
    try done; apply ltb_asym.
Qed.

(** X21.  In the earlier revision [lesss] never fails and is a strict
    total order on strings: irreflexive, asymmetric, transitive, and of
    two different strings one is less than the other; "important" names
    come first, and within the important and within the other names the
    byte order decides. *)
Theorem lesss_v1_total_order (upperRune : string -> bool) (s1 s2 s3 : string) :
  Rev1.lesss upperRune s1 s1 = false
  /\ (Rev1.lesss upperRune s1 s2 = true -> Rev1.lesss upperRune s2 s1 = false)
  /\ (Rev1.lesss upperRune s1 s2 = true -> Rev1.lesss upperRune s2 s3 = true ->
      Rev1.lesss upperRune s1 s3 = true)
  /\ (s1 <> s2 ->
      Rev1.lesss upperRune s1 s2 = true \/ Rev1.lesss upperRune s2 s1 = true)
  /\ (Rev1.isImportant upperRune s1 = true -> Rev1.isImportant upperRune s2 = false ->
      Rev1.lesss upperRune s1 s2 = true).
Proof.
  split; [|split; [apply lesss_v1_asym|split; [|split]]].
  - rewrite lesss_v1_spec. destruct (Rev1.isImportant upperRune s1); apply ltb_irrefl.
  - rewrite !lesss_v1_spec.
    destruct (Rev1.isImportant upperRune s1), (Rev1.isImportant upperRune s2),
      (Rev1.isImportant upperRune s3); try done; apply ltb_trans.
  - intros Hne. rewrite !lesss_v1_spec.
    destruct (Rev1.isImportant upperRune s1), (Rev1.isImportant upperRune s2); auto;
      (destruct (String.ltb s1 s2) eqn:E; [by left|right; by apply ltb_total]).
  - intros H1 H2. by rewrite lesss_v1_spec, H1, H2.
Qed.

(** *** Which keys are important *)

Lemma Index_nodot s : count_dots s = 0 -> Rev1.strings_Index_dot s = (-1)%Z.
Proof.
  induction s as [|c s IH]; simpl; [done|].
  destruct (Ascii.eqb c dot); [done|]. intros H. by rewrite (IH H).
Qed.

Lemma Index_join r n :
  count_dots r = 0 -> Rev1.strings_Index_dot (r ++ "." ++ n) = Z.of_nat (String.length r).
Proof.
  induction r as [|c r IH]; simpl; [done|].
  destruct (Ascii.eqb c dot); [done|]. intros H.
  change (r ++ String "." n) with (r ++ "." ++ n). rewrite (IH H).
  destruct (Z.ltb_spec (Z.of_nat (String.length r)) 0); lia.
Qed.

Lemma slice_from_join r n :
  Rev1.slice_from (String.length r + 1) (r ++ "." ++ n) = n.
Proof. induction r as [|c r IH]; simpl; [done|]. exact IH. Qed.

(** X22.  What "important" means for the keys that the earlier revision
    builds: a name without a dot (the key of a type declaration) and the
    key [.name] of a function without receiver are important; the key
    [T.name] of a method is important exactly when the method name
    starts with an upper case letter.  Functions without receiver and
    types therefore come before unexported methods. *)
Theorem isImportant_keys (upperRune : string -> bool) (T n s : string) :
  T <> "" -> count_dots T = 0 -> count_dots s = 0 ->
  Rev1.isImportant upperRune s = true
  /\ Rev1.isImportant upperRune ("" ++ "." ++ n) = true
  /\ Rev1.isImportant upperRune (T ++ "." ++ n) = firstUpper upperRune n
  /\ Rev1.funcName (FuncDecl None n) = ("" ++ "." ++ n, 0%Z)
  /\ (forall recv, Rev1.funcName (FuncDecl recv n) = (fieldListName recv ++ "." ++ n, 0%Z)).
Proof.
  intros HT Hd Hs. split; [|split; [done|split; [|done]]].
  - unfold Rev1.isImportant. by rewrite (Index_nodot s Hs).
  - unfold Rev1.isImportant. rewrite (Index_join T n Hd).
    destruct T as [|c T]; [done|]. cbn [String.length].
    destruct (Z.leb_spec (Z.of_nat (S (String.length T))) 0); [lia|].
    replace (Z.to_nat (Z.of_nat (S (String.length T)) + 1))
      with (String.length (String c T) + 1) by (simpl; lia).
    by rewrite slice_from_join.
Qed.

Lemma isImportant_keys_witness :
  Rev1.isImportant up0 "Foo" = true
  /\ Rev1.isImportant up0 ("" ++ "." ++ "bar") = true
  /\ Rev1.isImportant up0 ("Foo" ++ "." ++ "bar") = firstUpper up0 "bar"
  /\ Rev1.funcName (FuncDecl None "bar") = ("" ++ "." ++ "bar", 0%Z)
  /\ (forall recv, Rev1.funcName (FuncDecl recv "bar")
                   = (fieldListName recv ++ "." ++ "bar", 0%Z)).
Proof.
  apply (isImportant_keys up0 "Foo" "bar" "Foo"); [discriminate|reflexivity|reflexivity].
Defined.

(** *** [sortDecls] of the earlier revision *)

Section Rev1Sorting.

Variable upperRune : string -> bool.

(** The closure when the first index is the higher one. *)
Definition hiLess_v1 (x y : Decl) : outcome bool := Rev1.declLess upperRune 1 0 x y.

Lemma declLess_v1_hi i j x y :
  j < i -> Rev1.declLess upperRune i j x y = hiLess_v1 x y.
Proof.
  intros Hij. unfold hiLess_v1, Rev1.declLess.
  destruct (Nat.ltb_spec i j); [lia|]. reflexivity.
Qed.

(** A declaration that the closure never moves: a package or import
    declaration, or another declaration that is not a function and not a
    type declaration (status 1: [const], [var]). *)
Definition isAnchor (d : Decl) : bool :=
  match d with
  | GenDecl tok _ => negb (Token_eqb tok TYPE)
  | _ => false
  end.

Lemma hiLess_v1_anchor x y :
  returns (hiLess_v1 x y) -> isAnchor x || isAnchor y = true -> hiLess_v1 x y = Done false.
Proof.
  intros [c Hc] Ha. revert Hc. unfold hiLess_v1, Rev1.declLess.
  destruct (preserveOrder x || preserveOrder y); [by intros [= <-]|].
  destruct (Rev1.name x) as [[sx wx]| |] eqn:Hx; try done.
  destruct (Rev1.name y) as [[sy wy]| |] eqn:Hy; try done.
  rewrite !bind_Done. intros _.
  assert (forall d s w, Rev1.name d = Done (s, w) -> isAnchor d = true -> w = 1%Z) as Hst.
  { intros [recv nm|tok specs|] s w; cbn; try done.
    destruct tok; cbn; try done; by intros [= <- <-]. }
  apply orb_true_iff in Ha as [Ha|Ha].
  - rewrite (Hst x sx wx Hx Ha). done.
  - rewrite (Hst y sy wy Hy Ha), orb_true_r. done.
Qed.

Lemma hiLess_v1_asym x y :
  hiLess_v1 x y = Done true -> hiLess_v1 y x = Done false.
Proof.
  unfold hiLess_v1, Rev1.declLess. rewrite (orb_comm (preserveOrder y)).
  destruct (preserveOrder x || preserveOrder y); [done|].
  destruct (Rev1.name x) as [[sx wx]| |]; try done.
  destruct (Rev1.name y) as [[sy wy]| |]; try done.
  rewrite !bind_Done. rewrite (orb_comm (wy =? 1)%Z), (Z.eqb_sym wy wx).
  destruct ((wx =? 1)%Z || (wy =? 1)%Z); [done|].
  destruct (Z.eqb_spec wx wy) as [->|Hne]; simpl.
  - intros [= H]. by rewrite (lesss_v1_asym _ _ _ H).
  - intros [= H%Z.eqb_eq]. f_equal. apply Z.eqb_neq. lia.
Qed.

End Rev1Sorting.

(** X23.  In the earlier revision every declaration that is not a
    function and not a type declaration - package, import, [const] and
    [var] declarations - is an anchor: on at most 20 declarations on
    which no comparison panics, [sortDecls] returns a permutation in
    which each anchor has kept its side of every other declaration, two
    declarations have kept their input order unless the later one
    compares less than the earlier one, and sorting the result again
    changes nothing. *)
Theorem sortDecls_v1_anchors (upperRune : string -> bool) (ds : list Decl) :
  length ds <= 20 ->
  comparable (hiLess_v1 upperRune) ds = true ->
  exists out, traced (Rev1.declLess upperRune) ds = Done out /\
    Rev1.sortDecls upperRune ds = Done out.*2 /\ arranges ds out /\
    (forall p q x y, p < q -> out !! p = Some x -> out !! q = Some y ->
       isAnchor x.2 || isAnchor y.2 = true -> x.1 < y.1) /\
    keepsOrder (hiLess_v1 upperRune) out /\
    Rev1.sortDecls upperRune out.*2 = Done out.*2.
Proof.
  intros Hshort Hcomp.
  destruct (traced_short (Rev1.declLess upperRune) (hiLess_v1 upperRune)
              (declLess_v1_hi upperRune) ds Hshort) as (out & Htr & Hrun & Harr & Hjust).
  { intros [i x] [j y] Hx Hy _. apply elem_of_tagged in Hx, Hy. simpl.
    apply (comparable_returns _ ds); eauto using list_elem_of_lookup_2. }
  exists out. split; [done|]. split; [done|]. split; [done|]. split; [|split].
  - intros p q x y Hpq Hx Hy Ha.
    destruct (Nat.lt_trichotomy x.1 y.1) as [Hlt|[Heq|Hgt]]; [done| |].
    + pose proof (arranges_inj _ _ _ _ _ _ Harr Hx Hy Heq). lia.
    + specialize (Hjust p q x y Hpq Hx Hy Hgt).
      rewrite hiLess_v1_anchor in Hjust; [done|by eexists|done].
  - by apply (justified_keepsOrder _ ds).
  - destruct (sorts_twice (Rev1.declLess upperRune) (hiLess_v1 upperRune) ds
                (declLess_v1_hi upperRune) (hiLess_v1_asym upperRune) Hshort Hcomp)
      as (out' & Hrun' & _ & Htwice).
    unfold Rev1.sortDecls in *. rewrite Hrun in Hrun'. by injection Hrun' as <-.
Qed.

Lemma sortDecls_v1_anchors_witness :
  exists out,
    traced (Rev1.declLess up0) [free "b"; varDecl; typ "T"; free "a"; importDecl] = Done out /\
    Rev1.sortDecls up0 [free "b"; varDecl; typ "T"; free "a"; importDecl] = Done out.*2 /\
    arranges [free "b"; varDecl; typ "T"; free "a"; importDecl] out /\
    (forall p q x y, p < q -> out !! p = Some x -> out !! q = Some y ->
       isAnchor x.2 || isAnchor y.2 = true -> x.1 < y.1) /\
    keepsOrder (hiLess_v1 up0) out /\
    Rev1.sortDecls up0 out.*2 = Done out.*2.
Proof.
  apply (sortDecls_v1_anchors up0 [free "b"; varDecl; typ "T"; free "a"; importDecl]).
  - simpl. lia.
  - vm_compute; reflexivity.
Defined.

(** *** [sortFieldList] of the earlier revision *)

Section Rev1Members.

Variable upperRune : string -> bool.
Variable sprintExpr : Expr -> string.

(** The string that the closure compares, empty when [strf] panics. *)
Definition memberString (f : Field) : string :=
  match memberName sprintExpr f with
  | Done s => s
  | _ => ""
  end.

(** Embedded members first, then the order of [lesss] on the strings
    that the closure compares, then the input position. *)
Definition memberLe_v1 (x y : nat * Field) : Prop :=
  let bx := Nat.eqb (length (Names x.2)) 0 in
  let by_ := Nat.eqb (length (Names y.2)) 0 in
  (bx = true /\ by_ = false) \/
  (bx = by_ /\
   (Rev1.lesss upperRune (memberString x.2) (memberString y.2) = true \/
    (memberString x.2 = memberString y.2 /\ x.1 <= y.1))).

Lemma fieldLess_v1_eval x y sx sy :
  memberName sprintExpr x = Done sx -> memberName sprintExpr y = Done sy ->
  Rev1.fieldLess upperRune sprintExpr x y =
    if Nat.eqb (length (Names x)) 0 then
      if Nat.eqb (length (Names y)) 0 then Done (Rev1.lesss upperRune sx sy) else Done true
    else if Nat.eqb (length (Names y)) 0 then Done false
         else Done (Rev1.lesss upperRune sx sy).
Proof.
  unfold memberName, Rev1.fieldLess, Rev1.less, Rev1.lessStringers.
  destruct (Names x) as [|n1 r1], (Names y) as [|n2 r2]; simpl.
  - intros -> ->. by rewrite !bind_Done.
  - done.
  - done.
  - by intros [= ->] [= ->].
Qed.

Lemma memberName_v1_returns f :
  returns (Rev1.fieldLess upperRune sprintExpr f f) ->
  exists s, memberName sprintExpr f = Done s.
Proof.
  intros [c Hc]. unfold Rev1.fieldLess, memberName in *.
  destruct (Names f) as [|n0 ns]; simpl in Hc; [|by eexists].
  unfold Rev1.less in Hc. destruct (strf sprintExpr (Type_ f)) as [s| |]; try done.
  by eexists.
Qed.

Lemma fieldLess_v1_asym x y :
  Rev1.fieldLess upperRune sprintExpr x y = Done true ->
  Rev1.fieldLess upperRune sprintExpr y x = Done false.
Proof.
  unfold Rev1.fieldLess, Rev1.less, Rev1.lessStringers.
  destruct (Names x) as [|n1 r1], (Names y) as [|n2 r2]; simpl; try done.
  - destruct (strf sprintExpr (Type_ x)) as [a| |]; try done.
    destruct (strf sprintExpr (Type_ y)) as [b| |]; try done. rewrite !bind_Done.
    intros [= H]. by rewrite (lesss_v1_asym _ _ _ H).
  - intros [= H]. by rewrite (lesss_v1_asym _ _ _ H).
Qed.

Lemma lesss_v1_trans s1 s2 s3 :
  Rev1.lesss upperRune s1 s2 = true -> Rev1.lesss upperRune s2 s3 = true ->
  Rev1.lesss upperRune s1 s3 = true.
Proof.
  rewrite !lesss_v1_spec.
  destruct (Rev1.isImportant upperRune s1), (Rev1.isImportant upperRune s2),
    (Rev1.isImportant upperRune s3); try done; apply ltb_trans.
Qed.

Lemma lesss_v1_irrefl s : Rev1.lesss upperRune s s = false.
Proof. rewrite lesss_v1_spec. destruct (Rev1.isImportant upperRune s); apply ltb_irrefl. Qed.

Lemma lesss_v1_total s1 s2 :
  Rev1.lesss upperRune s1 s2 = false -> Rev1.lesss upperRune s2 s1 = true \/ s1 = s2.
Proof.
  rewrite !lesss_v1_spec.
  destruct (Rev1.isImportant upperRune s1), (Rev1.isImportant upperRune s2); auto;
    try done; intros H; (destruct (String.eqb_spec s1 s2) as [->|Hne]; [by right|left]);
    by apply ltb_total.
Qed.

Lemma memberLe_v1_refl x : memberLe_v1 x x.
Proof. right. split; [done|]. right. split; [done|lia]. Qed.

Lemma memberLe_v1_trans x y z : memberLe_v1 x y -> memberLe_v1 y z -> memberLe_v1 x z.
Proof.
  unfold memberLe_v1.
  intros [[H1 H2]|[E1 [L1|[S1 P1]]]] [[H3 H4]|[E2 [L2|[S2 P2]]]];
    try (left; split; congruence); right; (split; [congruence|]).
  - left. by apply (lesss_v1_trans _ (memberString y.2)).
  - left. by rewrite <- S2.
  - left. by rewrite S1.
  - right. split; [congruence|lia].
Qed.

Lemma memberLe_v1_antisym x y : memberLe_v1 x y -> memberLe_v1 y x -> x.1 = y.1.
Proof.
  unfold memberLe_v1.
  intros [[H1 H2]|[E1 [L1|[S1 P1]]]] [[H3 H4]|[E2 [L2|[S2 P2]]]]; try congruence.
  - pose proof (lesss_v1_asym _ _ _ L1). congruence.
  - rewrite S2, lesss_v1_irrefl in L1. done.
  - rewrite S1, lesss_v1_irrefl in L2. done.
  - lia.
Qed.

Lemma member_cmp_v1 fs x y :
  comparable (Rev1.fieldLess upperRune sprintExpr) fs = true ->
  x ∈ tagged fs -> y ∈ tagged fs -> y.1 < x.1 ->
  exists c : bool, Rev1.fieldLess upperRune sprintExpr x.2 y.2 = Done c /\
    if c then memberLe_v1 x y else memberLe_v1 y x.
Proof.
  intros Hcomp Hx Hy Hpos. destruct x as [i fx], y as [j fy]. simpl in *.
  apply elem_of_tagged in Hx, Hy. apply list_elem_of_lookup_2 in Hx, Hy.
  destruct (memberName_v1_returns fx) as [sx Hsx]; [by apply (comparable_returns _ fs)|].
  destruct (memberName_v1_returns fy) as [sy Hsy]; [by apply (comparable_returns _ fs)|].
  rewrite (fieldLess_v1_eval fx fy sx sy Hsx Hsy).
  unfold memberLe_v1, memberString. simpl. rewrite Hsx, Hsy.
  destruct (Nat.eqb (length (Names fx)) 0), (Nat.eqb (length (Names fy)) 0).
  - eexists. split; [done|]. destruct (Rev1.lesss upperRune sx sy) eqn:E.
    + right. auto.
    + right. split; [done|]. destruct (lesss_v1_total sx sy E) as [H| ->]; auto.
      right. split; [done|lia].
  - exists true. split; [done|]. by left.
  - exists false. split; [done|]. by left.
  - eexists. split; [done|]. destruct (Rev1.lesss upperRune sx sy) eqn:E.
    + right. auto.
    + right. split; [done|]. destruct (lesss_v1_total sx sy E) as [H| ->]; auto.
      right. split; [done|lia].
Qed.

End Rev1Members.

(** X24.  In the earlier revision [sortFieldList] is a stable sort on
    member lists of any length on which no comparison panics: it returns
    a permutation with the embedded members in front of the named ones
    and the named members with dot-free names in ascending byte order
    (so exported names, which start with an upper case ASCII letter,
    come before names that start with a lower case one), two members
    keep their input order unless the later one compares less than the
    earlier one, and sorting the result again changes nothing. *)
Theorem sortFieldList_v1_sorts (upperRune : string -> bool) (sprintExpr : Expr -> string)
    (fs : list Field) :
  comparable (Rev1.fieldLess upperRune sprintExpr) fs = true ->
  exists out, traced (fun _ _ => Rev1.fieldLess upperRune sprintExpr) fs = Done out /\
    Rev1.sortFieldList upperRune sprintExpr fs = Done out.*2 /\ arranges fs out /\
    (forall p q x y, p < q -> out !! p = Some x -> out !! q = Some y ->
       (Names y.2 = [] -> Names x.2 = []) /\
       (forall n1 n2 r1 r2, Names x.2 = n1 :: r1 -> Names y.2 = n2 :: r2 ->
          count_dots n1 = 0 -> count_dots n2 = 0 -> String.ltb n2 n1 = false)) /\
    keepsOrder (Rev1.fieldLess upperRune sprintExpr) out /\
    Rev1.sortFieldList upperRune sprintExpr out.*2 = Done out.*2.
Proof.
  intros Hcomp.
  destruct (sorts_stably (fun _ _ => Rev1.fieldLess upperRune sprintExpr)
              (Rev1.fieldLess upperRune sprintExpr) (memberLe_v1 upperRune sprintExpr) fs)
    as (out & Htr & Hrun & Harr & Hsorted & Hkeeps & Htwice); try done.
  - apply memberLe_v1_refl.
  - apply memberLe_v1_trans.
  - apply memberLe_v1_antisym.
  - apply fieldLess_v1_asym.
  - intros x y Hx Hy Hpos. by apply (member_cmp_v1 upperRune sprintExpr fs).
  - exists out. split; [done|]. split; [done|]. split; [done|].
    split; [|split; done].
    intros p q x y Hpq Hx Hy.
    pose proof (Hsorted p q x y ltac:(lia) Hx Hy) as Hle. split.
    + intros Hy0. unfold memberLe_v1 in Hle. rewrite Hy0 in Hle. simpl in Hle.
      destruct (Names x.2); [done|]. simpl in Hle.
      destruct Hle as [[? ?]|[? _]]; done.
    + intros n1 n2 r1 r2 Hn1 Hn2 Hd1 Hd2.
      unfold memberLe_v1, memberString, memberName in Hle. rewrite Hn1, Hn2 in Hle.
      simpl in Hle. destruct Hle as [[? ?]|[_ Hle]]; [done|].
      rewrite lesss_v1_spec in Hle. unfold Rev1.isImportant in Hle.
      rewrite (Index_nodot n1 Hd1), (Index_nodot n2 Hd2) in Hle. simpl in Hle.
      destruct Hle as [Hlt|[-> _]]; [by apply ltb_asym|apply ltb_irrefl].
Qed.

Lemma sortFieldList_v1_sorts_witness :
  exists out,
    traced (fun _ _ => Rev1.fieldLess up0 sp0)
      [member "zeta"; embedded (SelectorExpr (Ident "io") "Reader"); member "Alpha"]
    = Done out /\
    Rev1.sortFieldList up0 sp0
      [member "zeta"; embedded (SelectorExpr (Ident "io") "Reader"); member "Alpha"]
    = Done out.*2 /\
    arranges [member "zeta"; embedded (SelectorExpr (Ident "io") "Reader"); member "Alpha"]
      out /\
    (forall p q x y, p < q -> out !! p = Some x -> out !! q = Some y ->
       (Names y.2 = [] -> Names x.2 = []) /\
       (forall n1 n2 r1 r2, Names x.2 = n1 :: r1 -> Names y.2 = n2 :: r2 ->
          count_dots n1 = 0 -> count_dots n2 = 0 -> String.ltb n2 n1 = false)) /\
    keepsOrder (Rev1.fieldLess up0 sp0) out /\
    Rev1.sortFieldList up0 sp0 out.*2 = Done out.*2.
Proof.
  apply (sortFieldList_v1_sorts up0 sp0
           [member "zeta"; embedded (SelectorExpr (Ident "io") "Reader"); member "Alpha"]).
  vm_compute; reflexivity.
Defined.

(* ===================================================================== *)
(** ** The order inside the weight buckets of [sortDecls] *)
(* ===================================================================== *)

Lemma key_le_receiver w t r1 a1 r2 a2 :
  key_le (w, t, r1, a1) (w, t, r2, a2) -> String.ltb r2 r1 = false.
Proof.
  intros [H|[_ [H|[_ [H|[-> _]]]]]]; try lia.
  - by apply ltb_asym.
  - apply ltb_irrefl.
Qed.

(** X25.  Type declarations and methods come out in the byte order of
    their type names, a type declaration counting under the name of its
    first spec, the only one [genName] reads: when no comparison panics
    and the package and import declarations come first, of two
    declarations of the output of which each is a type declaration whose
    first spec has a name that is not empty, or a method with a receiver
    name that is not empty, the later one does not have the name that is
    less in byte order.  The later specs of a type group have no part in
    this. *)
Theorem sortDecls_types_ascend (upperRune : string -> bool) (ds : list Decl) :
  comparable (hiLess upperRune) ds = true ->
  importsFirstb ds = true ->
  exists out, sortDecls upperRune ds = Done out /\ out ≡ₚ ds /\
    forall p q x y n1 n2, p <= q -> out !! p = Some x -> out !! q = Some y ->
      n1 <> "" -> n2 <> "" ->
      typeNamed n1 x || methodOf n1 x = true ->
      typeNamed n2 y || methodOf n2 y = true ->
      String.ltb n2 n1 = false.
Proof.
  intros Hcomp Hfirst.
  destruct (sortDecls_ordered upperRune ds Hcomp (importsFirstb_spec ds Hfirst))
    as (out & _ & Hrun & Harr & Hsorted).
  exists out.*2. split; [done|]. split; [by apply arranges_snd|].
  intros p q x y n1 n2 Hpq Hx Hy Hn1 Hn2 Gx Gy.
  apply list_lookup_fmap_Some in Hx as ([i x'] & ? & Hx). simpl in *. subst x'.
  apply list_lookup_fmap_Some in Hy as ([j y'] & ? & Hy). simpl in *. subst y'.
  pose proof (Hsorted p q _ _ Hpq Hx Hy) as Hle. unfold declLe in Hle.
  assert (forall k d, out !! k = Some d -> returns (hiLess upperRune d.2 d.2)) as Hret.
  { intros k [k' d] Hd. apply (arranges_lookup _ _ _ _ _ Harr) in Hd.
    apply list_elem_of_lookup_2 in Hd. by apply (comparable_returns _ ds). }
  assert (forall k i' d n, out !! k = Some (i', d) -> n <> "" ->
            typeNamed n d || methodOf n d = true ->
            exists a, declKey upperRune (i', d) = (100%Z, 0, n, a)) as Hkey.
  { intros k i' d n Hd Hn [Ht|Hm]%orb_true_iff.
    - eexists. apply declKey_type; [done|]. exact (Hret k _ Hd).
    - destruct (methodOf_inv n d Hm) as (recv & nm & -> & Hr).
      eexists. apply declKey_method; [done|done|]. exact (Hret k _ Hd). }
  destruct (Hkey p i x n1 Hx Hn1 Gx) as [a1 K1].
  destruct (Hkey q j y n2 Hy Hn2 Gy) as [a2 K2].
  rewrite K1, K2 in Hle. by apply key_le_receiver in Hle.
Qed.

Lemma sortDecls_types_ascend_witness :
  exists out,
    sortDecls up0 [method "B" "m"; typ "B"; typ "A"; method "A" "n"] = Done out /\
    out ≡ₚ [method "B" "m"; typ "B"; typ "A"; method "A" "n"] /\
    forall p q x y n1 n2, p <= q -> out !! p = Some x -> out !! q = Some y ->
      n1 <> "" -> n2 <> "" ->
      typeNamed n1 x || methodOf n1 x = true ->
      typeNamed n2 y || methodOf n2 y = true ->
      String.ltb n2 n1 = false.
Proof.
  apply (sortDecls_types_ascend up0 [method "B" "m"; typ "B"; typ "A"; method "A" "n"]);
    vm_compute; reflexivity.
Defined.

(** The key of a proper function, and what is left of its name. *)
Lemma declKey_func upperRune i recv nm s w :
  properDecl (FuncDecl recv nm) = true ->
  returns (hiLess upperRune (FuncDecl recv nm) (FuncDecl recv nm)) ->
  name upperRune (FuncDecl recv nm) = Done (s, w) ->
  declKey upperRune (i, FuncDecl recv nm)
  = (w, 0, fieldListName recv, adjusted upperRune nm)
  /\ rest upperRune (FuncDecl recv nm) = (trimCommonPrefix nm).2.
Proof.
  intros Hp Hret Hn. simpl in Hp. apply andb_true_iff in Hp as [Hd%Nat.eqb_eq _].
  destruct (name_cases upperRune _ Hret eq_refl) as (s' & w' & Hn' & Hw).
  rewrite Hn in Hn'. injection Hn' as <- <-.
  unfold declKey, rest. simpl fst. simpl snd. simpl preserveOrder. cbv iota. rewrite Hn.
  unfold name in Hn.
  destruct (funcName upperRune (FuncDecl recv nm)) as [[s' w']| |] eqn:Hf; try done.
  apply funcName_weight in Hf. rewrite bind_Done in Hn.
  destruct (String.eqb_spec (fieldListName recv) "") as [E|E]; unfold string_eqb in Hf.
  - rewrite E in Hf |- *. simpl in Hf. destruct Hf as [-> Hf].
    destruct (Z.eqb_spec w' (-1)); [lia|]. simpl in Hn. injection Hn as <- <-.
    destruct (Z.eqb_spec w' (-1)); [lia|].
    by rewrite (splitOnDot_nodot nm Hd).
  - rewrite (proj2 (String.eqb_neq _ _) E) in Hf. destruct Hf as [-> ->].
    simpl in Hn. injection Hn as <- <-.
    destruct Hw as [?|(_ & r & n' & Hs)]; [lia|]. simpl. rewrite Hs.
    by apply splitOnDot_join in Hs as (-> & -> & _).
Qed.

(** X26.  Inside a bucket the names decide by what is left of them: when
    no comparison panics, the package and import declarations come first
    and every function name is dot-free and not one of the common
    prefixes itself, two functions of the output with the same receiver
    name (or both without receiver), the same weight and the same weight
    adjustment stand in ascending byte order of what
    [trimCommonPrefix] leaves of their names - the full name when no
    prefix matches. *)
Theorem sortDecls_names_ascend (upperRune : string -> bool) (ds : list Decl) :
  comparable (hiLess upperRune) ds = true ->
  importsFirstb ds = true ->
  forallb properDecl ds = true ->
  exists out, sortDecls upperRune ds = Done out /\ out ≡ₚ ds /\
    forall p q r1 n1 r2 n2 s1 s2 w, p <= q ->
      out !! p = Some (FuncDecl r1 n1) -> out !! q = Some (FuncDecl r2 n2) ->
      fieldListName r1 = fieldListName r2 ->
      name upperRune (FuncDecl r1 n1) = Done (s1, w) ->
      name upperRune (FuncDecl r2 n2) = Done (s2, w) ->
      weightAdjustment upperRune n1 = weightAdjustment upperRune n2 ->
      String.ltb (trimCommonPrefix n2).2 (trimCommonPrefix n1).2 = false.
Proof.
  intros Hcomp Hfirst%importsFirstb_spec Hproper.
  destruct (sortDecls_proper upperRune ds Hcomp Hfirst Hproper)
    as (out & _ & Hrun & Harr & Hsorted & _ & _).
  exists out.*2. split; [done|]. split; [by apply arranges_snd|].
  intros p q r1 n1 r2 n2 s1 s2 w Hpq Hx Hy Hr Hn1 Hn2 Ha.
  apply list_lookup_fmap_Some in Hx as ([i x'] & ? & Hx). simpl in *. subst x'.
  apply list_lookup_fmap_Some in Hy as ([j y'] & ? & Hy). simpl in *. subst y'.
  destruct (Hsorted p q _ _ Hpq Hx Hy) as [_ Hle]. unfold declLe in Hle. simpl in Hle.
  rewrite forallb_forall in Hproper.
  assert (forall k i' d, out !! k = Some (i', d) ->
            d ∈ ds /\ returns (hiLess upperRune d d) /\ properDecl d = true) as Hin.
  { intros k i' d Hd. apply (arranges_lookup _ _ _ _ _ Harr) in Hd.
    apply list_elem_of_lookup_2 in Hd. split; [done|]. split.
    - by apply (comparable_returns _ ds).
    - by apply Hproper, list_elem_of_In. }
  destruct (Hin p _ _ Hx) as (_ & Rx & Px). destruct (Hin q _ _ Hy) as (_ & Ry & Py).
  destruct (declKey_func upperRune i r1 n1 s1 w Px Rx Hn1) as [K1 R1].
  destruct (declKey_func upperRune j r2 n2 s2 w Py Ry Hn2) as [K2 R2].
  rewrite K1, K2, R1, R2 in Hle. unfold adjusted in Hle. rewrite Hr, Ha in Hle.
  destruct Hle as [Hlt|[-> _]]; [apply key_le_refl|by apply ltb_asym|apply ltb_irrefl].
Qed.

Lemma sortDecls_names_ascend_witness :
  exists out,
    sortDecls up0 [free "setb"; free "zeta"; free "geta"; free "alpha"] = Done out /\
    out ≡ₚ [free "setb"; free "zeta"; free "geta"; free "alpha"] /\
    forall p q r1 n1 r2 n2 s1 s2 w, p <= q ->
      out !! p = Some (FuncDecl r1 n1) -> out !! q = Some (FuncDecl r2 n2) ->
      fieldListName r1 = fieldListName r2 ->
      name up0 (FuncDecl r1 n1) = Done (s1, w) ->
      name up0 (FuncDecl r2 n2) = Done (s2, w) ->
      weightAdjustment up0 n1 = weightAdjustment up0 n2 ->
      String.ltb (trimCommonPrefix n2).2 (trimCommonPrefix n1).2 = false.
Proof.
  apply (sortDecls_names_ascend up0 [free "setb"; free "zeta"; free "geta"; free "alpha"]);
    vm_compute; reflexivity.
Defined.

(** X27.  [lesss] does not look at the prefix that [trimCommonPrefix]
    found when something is left of both names: for every non-empty
    dot-free [X] the names [getX] and [setX] tie, and [sortDecls] leaves
    the functions [setX], [getX] in that order. *)
Theorem get_set_tie (upperRune : string -> bool) (X : string) :
  X <> "" -> count_dots X = 0 ->
  trimCommonPrefix ("get" ++ X) = ("Get", X)
  /\ trimCommonPrefix ("set" ++ X) = ("Set", X)
  /\ lesss upperRune ("get" ++ X) ("set" ++ X) = Done false
  /\ lesss upperRune ("set" ++ X) ("get" ++ X) = Done false
  /\ sortDecls upperRune [free ("set" ++ X); free ("get" ++ X)]
     = Done [free ("set" ++ X); free ("get" ++ X)].
Proof.
  intros HX Hd.
  assert (forall p, count_dots (p ++ X) = count_dots p) as Hdots
    by (intros p; rewrite count_dots_app; lia).
  assert (lesss upperRune ("get" ++ X) ("set" ++ X) = Done false) as H1.
  { unfold lesss. rewrite !splitOnDot_nodot by (by rewrite Hdots). rewrite !bind_Done.
    f_equal. rewrite lesss_parts_tie; [apply ltb_irrefl|reflexivity|done|done]. }
  assert (lesss upperRune ("set" ++ X) ("get" ++ X) = Done false) as H2.
  { unfold lesss. rewrite !splitOnDot_nodot by (by rewrite Hdots). rewrite !bind_Done.
    f_equal. rewrite lesss_parts_tie; [apply ltb_irrefl|reflexivity|done|done]. }
  split; [reflexivity|]. split; [reflexivity|]. split; [done|]. split; [done|].
  rewrite sortDecls_pair.
  assert (declLess upperRune 1 0 (free ("get" ++ X)) (free ("set" ++ X))
          = lesss upperRune ("get" ++ X) ("set" ++ X)) as -> by reflexivity.
  by rewrite H1.
Qed.

Lemma get_set_tie_witness :
  trimCommonPrefix ("get" ++ "Value") = ("Get", "Value")
  /\ trimCommonPrefix ("set" ++ "Value") = ("Set", "Value")
  /\ lesss up0 ("get" ++ "Value") ("set" ++ "Value") = Done false
  /\ lesss up0 ("set" ++ "Value") ("get" ++ "Value") = Done false
  /\ sortDecls up0 [free ("set" ++ "Value"); free ("get" ++ "Value")]
     = Done [free ("set" ++ "Value"); free ("get" ++ "Value")].
Proof. apply (get_set_tie up0 "Value"); [discriminate|reflexivity]. Defined.
